(** * go-mvcc-map: a shallow embedding of the MVCC store and its transactions

    The development follows the Go package [mvcc]:
    - [version.go]  : [versionedValue], [version], [newVersion], [clone];
    - [map.go]      : [MVCCMap], [NewMVCCMap], [BeginTx], [commit],
                      [unregisterTx], [VersionCount];
    - [tx.go]       : [Tx], [Get], [Put], [Commit], [Rollback], [checkActive];
    - [gc.go]       : [collectVersions], [currentVersionID];
    - [deadlock.go] : [detectDeadlocks] (with its local closure [dfs]),
                      [resolveDeadlock].

    Conventions.
    - [uint64] values are integers in [Z]; every [Add] on an atomic counter
      wraps ([wrap64] for [atomic.Uint64], [swrap64] for [atomic.Int64]).
    - Go maps are [gmap]s, Go sets ([map[K]struct{}], [map[uint64]bool]) are
      [gset]s.
    - [*version] pointers are locations into the object store [objs]: the
      store's [current], the [versions] slice and every transaction's
      [snapshot] may alias the same version object, whose [refCount] is
      mutated in place.
    - Every exported operation is modelled as one atomic step (explicit
      state passing); the mutexes only delimit those steps. *)

From stdpp Require Import gmap strings list fin_maps sorting.
From Stdlib Require Import ZArith Lia.

Open Scope Z_scope.

(** ** Machine integers *)

(** [atomic.Uint64.Add] : addition modulo 2^64. *)
Definition wrap64 (x : Z) : Z := x mod 2 ^ 64.

(** [atomic.Int64.Add] : two's complement addition on 64 bits. *)
Definition swrap64 (x : Z) : Z := (x + 2 ^ 63) mod 2 ^ 64 - 2 ^ 63.

(** ** Errors, states and diagnostics *)

(** [txState] (tx.go). *)
Inductive txState := txActive | txCommitted | txRolledBack.

(** The two values [context.Context.Err] can return once a context is done. *)
Inductive ctxError := Canceled | DeadlineExceeded.

(** The sentinel errors of tx.go.  [ErrTxCanceled cause] stands for
    [fmt.Errorf("%w: %w", ErrTxCanceled, err)] with [err = tx.ctx.Err()];
    [ErrConflict] for the wrapped [ErrConflict] returned by [commit]. *)
Inductive error :=
  | ErrConflict
  | ErrTxDone
  | ErrDeadlock
  | ErrTxCanceled (cause : ctxError).

(** The calls made on [m.logger], in order. *)
Inductive logEvent :=
  | LogCommitted (txID versionID : Z) (writtenKeys : nat)
  | LogCollected (versionID : Z)
  | LogDeadlock (cycle : list Z) (victim : Z).

#[global] Instance txState_eq_dec : EqDecision txState.
Proof. solve_decision. Defined.
#[global] Instance ctxError_eq_dec : EqDecision ctxError.
Proof. solve_decision. Defined.
#[global] Instance error_eq_dec : EqDecision error.
Proof. solve_decision. Defined.

(** A [*version] pointer. *)
Abbreviation loc := nat (only parsing).

(** [txMeta] (tx.go); its mutex only guards [waitFor]. *)
Record txMeta := mkMeta { meta_id : Z; meta_waitFor : Z }.

Section MVCC.
Context {K : Type} `{Countable K} {V : Type}.

(** ** version.go *)

Record versionedValue := mkVV { value : V; writerTxID : Z }.

Record version := mkVersion {
  ver_id : Z;
  ver_data : gmap K versionedValue;
  ver_refCount : Z
}.

Definition newVersion (id : Z) (data : gmap K versionedValue) : version :=
  mkVersion id data 0.

(** [maps.Clone]: a new map holding the same entries. *)
Definition clone (v : version) : gmap K versionedValue := ver_data v.

(** ** map.go *)

Record MVCCMap := mkMap {
  objs : gmap loc version;       (* the version objects pointers refer to *)
  current : loc;
  nextTxID : Z;
  nextVersionID : Z;
  activeTxs : gmap Z txMeta;
  versions : list loc;
  logger : list logEvent
}.

(** tx.go: [ctx]/[cancel] are modelled by [tx_ctx], the value [tx.ctx.Err()]
    would return ([None] for [nil]); [db] is the store passed alongside. *)
Record Tx := mkTx {
  tx_id : Z;
  tx_snapshot : loc;
  tx_writes : gmap K versionedValue;
  tx_readSet : gset K;
  tx_state : txState;
  tx_ctx : option ctxError
}.

(** Pointer dereference.  A dangling location plays the role of a nil
    pointer; it never occurs in a store built by [NewMVCCMap]. *)
Definition deref (m : MVCCMap) (l : loc) : version :=
  default (newVersion 0 ∅) (objs m !! l).

(** [v.refCount.Add(delta)] on the object at [l]. *)
Definition refCount_Add (l : loc) (delta : Z) (m : MVCCMap) : MVCCMap :=
  {| objs := alter (λ v, mkVersion (ver_id v) (ver_data v)
                                   (swrap64 (ver_refCount v + delta))) l (objs m);
     current := current m;
     nextTxID := nextTxID m;
     nextVersionID := nextVersionID m;
     activeTxs := activeTxs m;
     versions := versions m;
     logger := logger m |}.

Definition NewMVCCMap : MVCCMap :=
  let v0 := newVersion 0 ∅ in
  {| objs := {[ 0%nat := v0 ]};
     current := 0%nat;
     nextTxID := 0;
     nextVersionID := 0;
     activeTxs := ∅;
     versions := [0%nat];
     logger := [] |}.

(** [BeginTx(ctx)]; [pctx] is [ctx.Err()] of the caller's context, which the
    child context inherits. *)
Definition BeginTx (pctx : option ctxError) (m : MVCCMap) : Tx * MVCCMap :=
  let txID := wrap64 (nextTxID m + 1) in
  let snap := current m in
  let m1 := refCount_Add snap 1 m in
  let tx := {| tx_id := txID; tx_snapshot := snap; tx_writes := ∅;
               tx_readSet := ∅; tx_state := txActive; tx_ctx := pctx |} in
  (tx, {| objs := objs m1;
          current := current m1;
          nextTxID := txID;
          nextVersionID := nextVersionID m1;
          activeTxs := <[txID := mkMeta txID 0]> (activeTxs m1);
          versions := versions m1;
          logger := logger m1 |}).

(** The body of the conflict loop of [commit] for one key of [tx.writes]:
    [true] when the loop returns [ErrConflict] at this key. *)
Definition conflictOn (cur snap : version) (key : K) : bool :=
  match ver_data cur !! key with
  | Some vv =>
      if negb (writerTxID vv =? 0) && (ver_id cur >? ver_id snap) then
        match ver_data snap !! key with
        | None => true
        | Some snapVV => negb (writerTxID snapVV =? writerTxID vv)
        end
      else false
  | None => false
  end.

(** [for k, vv := range tx.writes { newData[k] = vv }]. *)
Definition applyWrites (newData : gmap K versionedValue)
    (writes : gmap K versionedValue) : gmap K versionedValue :=
  foldl (λ acc kv, <[kv.1 := kv.2]> acc) newData (map_to_list writes).

(** [MVCCMap.commit], the critical section.  The range loops visit the keys
    of [tx.writes] in the order of [map_to_list]; the outcome does not depend
    on that order (see [commit_conflict_iff] and [applyWrites_union]). *)
Definition commit (tx : Tx) (m : MVCCMap) : option error * MVCCMap :=
  let cur := deref m (current m) in
  let snap := deref m (tx_snapshot tx) in
  if existsb (λ kv, conflictOn cur snap kv.1) (map_to_list (tx_writes tx))
  then (Some ErrConflict, m)
  else
    let newData := applyWrites (clone cur) (tx_writes tx) in
    let newVID := wrap64 (nextVersionID m + 1) in
    let newVer := newVersion newVID newData in
    let l := fresh (dom (objs m)) in
    (None,
     {| objs := <[l := newVer]> (objs m);
        current := l;
        nextTxID := nextTxID m;
        nextVersionID := newVID;
        activeTxs := activeTxs m;
        versions := versions m ++ [l];
        logger := logger m ++
                  [LogCommitted (tx_id tx) newVID (size (tx_writes tx))] |}).

Definition unregisterTx (txID : Z) (m : MVCCMap) : MVCCMap :=
  {| objs := objs m;
     current := current m;
     nextTxID := nextTxID m;
     nextVersionID := nextVersionID m;
     activeTxs := delete txID (activeTxs m);
     versions := versions m;
     logger := logger m |}.

Definition VersionCount (m : MVCCMap) : nat := length (versions m).

(** ** tx.go *)

Definition set_state (s : txState) (tx : Tx) : Tx :=
  {| tx_id := tx_id tx; tx_snapshot := tx_snapshot tx;
     tx_writes := tx_writes tx; tx_readSet := tx_readSet tx;
     tx_state := s; tx_ctx := tx_ctx tx |}.

(** [tx.cancel()]: the context becomes done with [Canceled] unless it was
    done already. *)
Definition cancel (tx : Tx) : Tx :=
  {| tx_id := tx_id tx; tx_snapshot := tx_snapshot tx;
     tx_writes := tx_writes tx; tx_readSet := tx_readSet tx;
     tx_state := tx_state tx;
     tx_ctx := match tx_ctx tx with
               | Some e => Some e
               | None => Some Canceled
               end |}.

Definition checkActive (tx : Tx) : option error :=
  if decide (tx_state tx = txActive) then None else Some ErrTxDone.

(** [Get]: Go returns [(V, bool)]; [None] is [(zero, false)]. *)
Definition Get (key : K) (tx : Tx) (m : MVCCMap) : option V * Tx :=
  let record :=
    {| tx_id := tx_id tx; tx_snapshot := tx_snapshot tx;
       tx_writes := tx_writes tx; tx_readSet := {[key]} ∪ tx_readSet tx;
       tx_state := tx_state tx; tx_ctx := tx_ctx tx |} in
  match checkActive tx with
  | Some _ => (None, tx)
  | None =>
      match tx_writes tx !! key with
      | Some vv => (Some (value vv), record)
      | None =>
          match ver_data (deref m (tx_snapshot tx)) !! key with
          | Some vv => (Some (value vv), record)
          | None => (None, tx)
          end
      end
  end.

Definition Rollback (tx : Tx) (m : MVCCMap) : Tx * MVCCMap :=
  match tx_state tx with
  | txActive =>
      let tx1 := cancel (set_state txRolledBack tx) in
      (tx1, refCount_Add (tx_snapshot tx) (-1) (unregisterTx (tx_id tx) m))
  | _ => (tx, m)
  end.

Definition Put (key : K) (v : V) (tx : Tx) (m : MVCCMap)
    : option error * Tx * MVCCMap :=
  match checkActive tx with
  | Some err => (Some err, tx, m)
  | None =>
      match tx_ctx tx with
      | Some err =>
          let '(tx1, m1) := Rollback tx m in
          (Some (ErrTxCanceled err), tx1, m1)
      | None =>
          (None,
           {| tx_id := tx_id tx; tx_snapshot := tx_snapshot tx;
              tx_writes := <[key := mkVV v (tx_id tx)]> (tx_writes tx);
              tx_readSet := tx_readSet tx;
              tx_state := tx_state tx; tx_ctx := tx_ctx tx |},
           m)
      end
  end.

(** [Commit]: the deferred closure (cancel, unregister, refcount release)
    runs after the body on every path that passed the compare-and-swap. *)
Definition Commit (tx : Tx) (m : MVCCMap) : option error * Tx * MVCCMap :=
  match tx_state tx with
  | txActive =>
      let tx1 := set_state txCommitted tx in
      let '(err, tx2, m2) :=
        match tx_ctx tx1 with
        | Some e => (Some (ErrTxCanceled e), set_state txRolledBack tx1, m)
        | None => let '(e, m') := commit tx1 m in (e, tx1, m')
        end in
      (err, cancel tx2,
       refCount_Add (tx_snapshot tx) (-1) (unregisterTx (tx_id tx) m2))
  | _ => (Some ErrTxDone, tx, m)
  end.

(** ** gc.go *)

Definition currentVersionID (m : MVCCMap) : Z :=
  match objs m !! current m with
  | Some cur => ver_id cur
  | None => 0
  end.

(** The condition of the compaction loop, for the version at [l]. *)
Definition keepVersion (m : MVCCMap) (currentID minSnapshotID : Z) (l : loc)
    : bool :=
  let v := deref m l in
  (ver_id v =? currentID) || (ver_refCount v >? 0)
  || (ver_id v >=? minSnapshotID).

(** [kept := m.versions[:0]; for _, v := range m.versions { ... }].
    [kept] shares the backing array [arr] of [m.versions]: [append] writes
    [v] at index [j] (the length of [kept]) while the range loop reads index
    [i]; [todo] is the number of iterations left.  The result is the array,
    the length of [kept] and the log lines emitted. *)
Fixpoint compactLoop (m : MVCCMap) (currentID minSnapshotID : Z)
    (todo : nat) (i j : nat) (arr : list loc) (lg : list logEvent)
    : list loc * nat * list logEvent :=
  match todo with
  | O => (arr, j, lg)
  | S todo' =>
      match arr !! i with
      | Some v =>
          if keepVersion m currentID minSnapshotID v
          then compactLoop m currentID minSnapshotID todo' (S i) (S j)
                 (<[j := v]> arr) lg
          else compactLoop m currentID minSnapshotID todo' (S i) j arr
                 (lg ++ [LogCollected (ver_id (deref m v))])
      | None => (arr, j, lg)
      end
  end.

(** Step 1 of [collectVersions]: [minSnapshotID] starts as the current
    version id, and the loop over [m.activeTxs] has an empty body
    ([_ = meta]). *)
Definition minSnapshotID_of (m : MVCCMap) : Z :=
  foldl (λ minSnapshotID (meta : Z * txMeta), minSnapshotID)
        (currentVersionID m) (map_to_list (activeTxs m)).

(** Step 2 of [collectVersions], the part under [versionsMu]. *)
Definition collectVersionsFrom (minSnapshotID : Z) (m : MVCCMap) : MVCCMap :=
  let currentID := currentVersionID m in
  let '(arr, j, lg) :=
    compactLoop m currentID minSnapshotID (length (versions m)) 0 0
                (versions m) [] in
  {| objs := objs m;
     current := current m;
     nextTxID := nextTxID m;
     nextVersionID := nextVersionID m;
     activeTxs := activeTxs m;
     versions := take j arr;
     logger := logger m ++ lg |}.

Definition collectVersions (m : MVCCMap) : MVCCMap :=
  collectVersionsFrom (minSnapshotID_of m) m.

(** ** deadlock.go *)

(** The wait-for graph built under [activeTxsMu.RLock]. *)
Definition waitForGraph (m : MVCCMap) : gmap Z Z :=
  omap (λ meta, if meta_waitFor meta =? 0 then None
                else Some (meta_waitFor meta)) (activeTxs m).

(** The two maps captured by the closure [dfs]. *)
Record dfsState := mkDfs { visited : gset Z; inStack : gset Z }.

(** The closure [dfs] of [detectDeadlocks].  [Some cycle] is a non-nil
    slice, [None] is nil; the outer [option] is [None] only when [fuel]
    runs out (it never does, see [dfs_total]). *)
Fixpoint dfs (fuel : nat) (graph : gmap Z Z) (id : Z) (st : dfsState)
    : option (option (list Z) * dfsState) :=
  match fuel with
  | O => None
  | S fuel' =>
      if decide (id ∈ inStack st) then Some (Some [id], st)
      else if decide (id ∈ visited st) then Some (None, st)
      else
        let st1 := mkDfs ({[id]} ∪ visited st) ({[id]} ∪ inStack st) in
        match graph !! id with
        | Some next =>
            match dfs fuel' graph next st1 with
            | None => None
            | Some (Some cycle, st2) => Some (Some (cycle ++ [id]), st2)
            | Some (None, st2) =>
                Some (None, mkDfs (visited st2) (inStack st2 ∖ {[id]}))
            end
        | None => Some (None, mkDfs (visited st1) (inStack st1 ∖ {[id]}))
        end
  end.

(** [for id := range graph { if !visited[id] { ... } }]; [order] is the
    order in which the Go runtime happens to enumerate the keys. *)
Fixpoint detectLoop (fuel : nat) (graph : gmap Z Z) (order : list Z)
    (st : dfsState) : option (option (list Z)) :=
  match order with
  | [] => Some None
  | id :: rest =>
      if decide (id ∈ visited st) then detectLoop fuel graph rest st
      else
        match dfs fuel graph id st with
        | None => None
        | Some (Some cycle, _) => Some (Some cycle)
        | Some (None, st') => detectLoop fuel graph rest st'
        end
  end.

(** The victim loop of [resolveDeadlock]. *)
Definition pickVictim (cycle : list Z) : Z :=
  foldl (λ victim id, if id >? victim then id else victim) 0 cycle.

(** [resolveDeadlock]: logs the cycle and the victim, looks the victim up
    and, when found, only locks and unlocks its [meta.mu]. *)
Definition resolveDeadlock (cycle : list Z) (m : MVCCMap) : MVCCMap :=
  let victim := pickVictim cycle in
  let m1 := {| objs := objs m;
               current := current m;
               nextTxID := nextTxID m;
               nextVersionID := nextVersionID m;
               activeTxs := activeTxs m;
               versions := versions m;
               logger := logger m ++ [LogDeadlock cycle victim] |} in
  match activeTxs m1 !! victim with
  | Some meta => m1
  | None => m1
  end.

(** The cycle handed to [resolveDeadlock] by one run of the detector. *)
Definition findCycle (order : list Z) (m : MVCCMap) : option (list Z) :=
  let graph := waitForGraph m in
  default None (detectLoop (S (size graph)) graph order (mkDfs ∅ ∅)).

Definition detectDeadlocks (order : list Z) (m : MVCCMap) : MVCCMap :=
  match findCycle order m with
  | Some cycle => resolveDeadlock cycle m
  | None => m
  end.

(** ** Clients: a store together with the transaction handles handed out

    A handle is the index of the transaction in [w_txs]. *)

Record World := mkWorld { w_db : MVCCMap; w_txs : list Tx }.

Inductive action :=
  | ABegin (pctx : option ctxError)
  | AGet (h : nat) (key : K)
  | APut (h : nat) (key : K) (v : V)
  | ACommit (h : nat)
  | ARollback (h : nat)
  | ACtxDone (h : nat) (cause : ctxError)   (* the caller's context fires *)
  | AGC                                      (* a reclaimer tick *)
  | ADetect (order : list Z).                (* a detector tick *)

(** The caller's context becomes done: the child context inherits the
    error unless it was done already. *)
Definition ctxDone (cause : ctxError) (tx : Tx) : Tx :=
  {| tx_id := tx_id tx; tx_snapshot := tx_snapshot tx;
     tx_writes := tx_writes tx; tx_readSet := tx_readSet tx;
     tx_state := tx_state tx;
     tx_ctx := match tx_ctx tx with
               | Some e => Some e
               | None => Some cause
               end |}.

(** An action on a handle that was never handed out does nothing. *)
Definition onTx (h : nat) (w : World) (f : Tx → Tx * MVCCMap) : World :=
  match w_txs w !! h with
  | Some tx => let '(tx', m') := f tx in mkWorld m' (<[h := tx']> (w_txs w))
  | None => w
  end.

Definition step (w : World) (a : action) : World :=
  match a with
  | ABegin pctx =>
      let '(tx, m') := BeginTx pctx (w_db w) in mkWorld m' (w_txs w ++ [tx])
  | AGet h key => onTx h w (λ tx, ((Get key tx (w_db w)).2, w_db w))
  | APut h key v =>
      onTx h w (λ tx, let '(_, tx', m') := Put key v tx (w_db w) in (tx', m'))
  | ACommit h =>
      onTx h w (λ tx, let '(_, tx', m') := Commit tx (w_db w) in (tx', m'))
  | ARollback h => onTx h w (λ tx, Rollback tx (w_db w))
  | ACtxDone h cause => onTx h w (λ tx, (ctxDone cause tx, w_db w))
  | AGC => mkWorld (collectVersions (w_db w)) (w_txs w)
  | ADetect order => mkWorld (detectDeadlocks order (w_db w)) (w_txs w)
  end.

Definition run (w : World) (acts : list action) : World := foldl step w acts.

Definition initWorld : World := mkWorld NewMVCCMap [].

(** The handle an action operates on, if any. *)
Definition actsOn (a : action) : option nat :=
  match a with
  | AGet h _ | APut h _ _ | ACommit h | ARollback h | ACtxDone h _ => Some h
  | ABegin _ | AGC | ADetect _ => None
  end.

Definition isBegin (a : action) : bool :=
  match a with ABegin _ => true | _ => false end.

Definition isCommit (a : action) : bool :=
  match a with ACommit _ => true | _ => false end.

(** ** The uniform view of a transaction's operations used by the claims
    about errors: what the caller gets back. *)

Inductive txOp :=
  | OpGet (key : K)
  | OpPut (key : K) (v : V)
  | OpCommit
  | OpRollback.

(** [res_err] is the returned [error]; [Get] and [Rollback] have no error
    result, so it is [None] for them. *)
Record opResult := mkRes { res_value : option V; res_err : option error }.

Definition exec (op : txOp) (tx : Tx) (m : MVCCMap)
    : opResult * Tx * MVCCMap :=
  match op with
  | OpGet key => let '(r, tx') := Get key tx m in (mkRes r None, tx', m)
  | OpPut key v => let '(e, tx', m') := Put key v tx m in (mkRes None e, tx', m')
  | OpCommit => let '(e, tx', m') := Commit tx m in (mkRes None e, tx', m')
  | OpRollback => let '(tx', m') := Rollback tx m in (mkRes None None, tx', m')
  end.

(** Running a sequence of operations of one transaction, collecting the
    results. *)
Fixpoint execAll (ops : list txOp) (tx : Tx) (m : MVCCMap)
    : list opResult * Tx * MVCCMap :=
  match ops with
  | [] => ([], tx, m)
  | op :: rest =>
      let '(r, tx1, m1) := exec op tx m in
      let '(rs, tx2, m2) := execAll rest tx1 m1 in
      (r :: rs, tx2, m2)
  end.

End MVCC.

Arguments versionedValue : clear implicits.
Arguments version K {_ _} V.
Arguments MVCCMap K {_ _} V.
Arguments Tx K {_ _} V.
Arguments World K {_ _} V.
Arguments action : clear implicits.
Arguments txOp : clear implicits.
Arguments opResult : clear implicits.

(** * Cycles of the wait-for graph *)

(** [walk graph n x] follows [n] wait-for edges from [x]. *)
Fixpoint walk (graph : gmap Z Z) (n : nat) (x : Z) : option Z :=
  match n with
  | O => Some x
  | S n' => graph !! x ≫= walk graph n'
  end.

(** [x] is a member of a cycle: following at least one edge leads back to
    [x]. *)
Definition onCycle (graph : gmap Z Z) (x : Z) : Prop :=
  ∃ n, walk graph (S n) x = Some x.

(** [waitChain graph ids]: every id of the list waits for the id just
    before it, which is how [dfs] builds its result with [append(cycle, id)]
    on the way back from the recursion. *)
Fixpoint waitChain (graph : gmap Z Z) (ids : list Z) : Prop :=
  match ids with
  | x :: (y :: _) as rest => graph !! y = Some x ∧ waitChain graph rest
  | _ => True
  end.

(** The ids [dfs] has finished with (visited and no longer on the stack)
    are on no cycle. *)
Definition finishedOffCycles (graph : gmap Z Z) (st : dfsState) : Prop :=
  ∀ v, v ∈ visited st → v ∉ inStack st → ¬ onCycle graph v.

(** * The vocabulary of the statements

    First the definitions that follow the wording of the specification
    rather than the code ([spec_conflictOn], [spec_minActiveSnapshotID],
    [spec_retain]): they are what the code is compared with.  Then the
    notions the statements about runs are phrased with, and the invariants
    of reachable worlds. *)

Section SpecVocabulary.
Context {K : Type} `{Countable K} {V : Type}.

(** The conflict predicate in the words of the specification (4.5, step 2):
    the current entry exists and its writer differs from the snapshot
    entry's writer, a missing snapshot entry counting as a difference. *)
Definition spec_conflictOn (cur snap : version K V) (key : K) : bool :=
  match ver_data cur !! key with
  | Some cv =>
      match ver_data snap !! key with
      | None => true
      | Some sv => negb (writerTxID sv =? writerTxID cv)
      end
  | None => false
  end.

(** The snapshot ids of the transactions that are still active. *)
Definition activeSnapshotIDs (w : World K V) : list Z :=
  (λ tx, ver_id (deref (w_db w) (tx_snapshot tx)))
    <$> filter (λ tx, tx_state tx = txActive) (w_txs w).

(** [min_active_snapshot_id] in the words of the specification (4.7, step
    2): the smallest snapshot id across the active transactions, the current
    version's id when there is none. *)
Definition spec_minActiveSnapshotID (w : World K V) : Z :=
  match activeSnapshotIDs w with
  | [] => currentVersionID (w_db w)
  | id :: rest => foldr Z.min id rest
  end.

(** Retention in the words of the specification (4.7, step 3). *)
Definition spec_retain (w : World K V) (l : loc) : bool :=
  keepVersion (w_db w) (currentVersionID (w_db w))
              (spec_minActiveSnapshotID w) l.

(** Every buffered write carries the id of the transaction that buffered
    it. *)
Definition stamped (tx : Tx K V) : Prop :=
  ∀ k vv, tx_writes tx !! k = Some vv → writerTxID vv = tx_id tx.

(** [Commit] and [Rollback] are the two terminating calls. *)
Definition isTermination (op : txOp K V) : bool :=
  match op with
  | OpCommit | OpRollback => true
  | OpGet _ | OpPut _ _ => false
  end.

(** What a terminating call returns on a transaction that is already
    terminal: [Commit] reports [ErrTxDone], [Rollback] returns nothing. *)
Definition doneResult (op : txOp K V) : opResult V :=
  match op with
  | OpCommit => mkRes None (Some ErrTxDone)
  | _ => mkRes None None
  end.

Definition terminal (s : txState) : Prop := s = txCommitted ∨ s = txRolledBack.

(** [shape m l] is the immutable part (id and data) of the version object
    at [l]. *)
Definition shape (m : MVCCMap K V) (l : loc)
    : option (Z * gmap K (versionedValue V)) :=
  (λ ver, (ver_id ver, ver_data ver)) <$> objs m !! l.

(** [published tx m] tells whether [Commit tx m] publishes a version: the
    transaction is active, its context has not fired and the conflict check
    passes. *)
Definition published (tx : Tx K V) (m : MVCCMap K V) : bool :=
  bool_decide (tx_state tx = txActive ∧ tx_ctx tx = None
               ∧ (commit (set_state txCommitted tx) m).1 = None).

(** How a transaction's own operations may change its handle: the id and
    the snapshot pointer stay, and the write buffer stays or gains one entry
    stamped with the transaction's id. *)
Definition evolves (tx tx' : Tx K V) : Prop :=
  tx_id tx' = tx_id tx ∧ tx_snapshot tx' = tx_snapshot tx
  ∧ (tx_writes tx' = tx_writes tx
     ∨ ∃ k v, tx_state tx = txActive
              ∧ tx_writes tx' = <[k := mkVV v (tx_id tx)]> (tx_writes tx)).

(** The new value of a handle after an action on it. *)
Definition txAfter (a : action K V) (m : MVCCMap K V) (tx : Tx K V) : Tx K V :=
  match a with
  | AGet _ key => (Get key tx m).2
  | APut _ key v => (Put key v tx m).1.2
  | ACommit _ => (Commit tx m).1.2
  | ARollback _ => (Rollback tx m).1
  | ACtxDone _ cause => ctxDone cause tx
  | _ => tx
  end.

(** Reachable worlds keep their pointers valid: the current version and
    every transaction's snapshot are allocated, and every buffered write is
    stamped with its transaction's id. *)
Definition Alloc (w : World K V) : Prop :=
  is_Some (objs (w_db w) !! current (w_db w))
  ∧ ∀ (h : nat) tx, w_txs w !! h = Some tx →
                    is_Some (objs (w_db w) !! tx_snapshot tx) ∧ stamped tx.

(** While the transaction counter has not wrapped ([n] transactions begun so
    far): ids handed out and writer ids stored are at least 1. *)
Definition Ids (n : Z) (w : World K V) : Prop :=
  0 ≤ n ∧ nextTxID (w_db w) = n
  ∧ (∀ (h : nat) tx, w_txs w !! h = Some tx → 1 ≤ tx_id tx)
  ∧ (∀ l ver k vv, objs (w_db w) !! l = Some ver →
                   ver_data ver !! k = Some vv → 1 ≤ writerTxID vv).

(** The number of [BeginTx] calls among the actions. *)
Definition begins (acts : list (action K V)) : Z :=
  Z.of_nat (length (List.filter isBegin acts)).

(** One [BeginTx] immediately followed by [Rollback]. *)
Definition churn (m : MVCCMap K V) : MVCCMap K V :=
  (Rollback (BeginTx None m).1 (BeginTx None m).2).2.

(** A fresh store whose transaction counter reads [t]. *)
Definition idleStore (t : Z) : MVCCMap K V :=
  {| objs := {[ 0%nat := newVersion 0 ∅ ]};
     current := 0%nat;
     nextTxID := t;
     nextVersionID := 0;
     activeTxs := ∅;
     versions := [0%nat];
     logger := [] |}.

(** Whether an action publishes a version: it is a [Commit] on a handle
    that was handed out, and that [Commit] publishes. *)
Definition publishes (w : World K V) (a : action K V) : bool :=
  match a with
  | ACommit h =>
      match w_txs w !! h with
      | Some tx => published tx (w_db w)
      | None => false
      end
  | _ => false
  end.

(** The number of [Commit] calls among the actions. *)
Definition commits (acts : list (action K V)) : Z :=
  Z.of_nat (length (List.filter isCommit acts)).

(** While the version counter has not wrapped (at most [c] commits so
    far): version ids are bounded by the counter, distinct version objects
    have distinct ids, and the current version carries the counter's
    value. *)
Definition VersionIds (c : Z) (w : World K V) : Prop :=
  ∃ n, 0 ≤ n ≤ c
       ∧ nextVersionID (w_db w) = n
       ∧ (∀ l id d, shape (w_db w) l = Some (id, d) → 0 ≤ id ≤ n)
       ∧ (∀ l l' id d d', shape (w_db w) l = Some (id, d) →
                          shape (w_db w) l' = Some (id, d') → l = l')
       ∧ (∃ d, shape (w_db w) (current (w_db w)) = Some (n, d)).

End SpecVocabulary.

(** * Concrete stores and transactions, over string keys and integer values *)

Module Examples.

(** A store whose current version (id 1) holds an entry for ["k"] written
    under transaction id 0, and a transaction that began on version 0. *)
Definition zeroWriterStore : MVCCMap string Z :=
  {| objs := {[ 0%nat := mkVersion 0 ∅ 1;
                1%nat := mkVersion 1 {[ "k" := mkVV 7 0 ]} 0 ]};
     current := 1%nat;
     nextTxID := 1;
     nextVersionID := 1;
     activeTxs := {[ 1 := mkMeta 1 0 ]};
     versions := [0%nat; 1%nat];
     logger := [] |}.

(** The same, with the entry written under transaction id 1 and the current
    version carrying the same id as the snapshot. *)
Definition sameIdStore : MVCCMap string Z :=
  {| objs := {[ 0%nat := mkVersion 1 ∅ 1;
                1%nat := mkVersion 1 {[ "k" := mkVV 7 1 ]} 0 ]};
     current := 1%nat;
     nextTxID := 2;
     nextVersionID := 1;
     activeTxs := {[ 2 := mkMeta 2 0 ]};
     versions := [0%nat; 1%nat];
     logger := [] |}.

Definition writerOfK (id : Z) : Tx string Z :=
  {| tx_id := id; tx_snapshot := 0%nat;
     tx_writes := {[ "k" := mkVV 9 id ]}; tx_readSet := ∅;
     tx_state := txActive; tx_ctx := None |}.

(** [BeginTx], [Put("x", 42)] on a fresh store. *)
Definition freshStore : MVCCMap string Z := NewMVCCMap.
Definition txX : Tx string Z :=
  (Put "x" 42 (BeginTx None freshStore).1 (BeginTx None freshStore).2).1.2.
Definition storeX : MVCCMap string Z :=
  (Put "x" 42 (BeginTx None freshStore).1 (BeginTx None freshStore).2).2.

(** Three registered transactions: 1 waits for 2, 2 waits for 1, and 5
    waits for 1. *)
Definition waitingStore : MVCCMap string Z :=
  {| objs := {[ 0%nat := mkVersion 0 ∅ 3 ]};
     current := 0%nat;
     nextTxID := 5;
     nextVersionID := 0;
     activeTxs := {[ 1 := mkMeta 1 2; 2 := mkMeta 2 1; 5 := mkMeta 5 1 ]};
     versions := [0%nat];
     logger := [] |}.

(** The test scenario [TestWriteWriteConflict]: two transactions begin on
    the same snapshot and put the same key; the first commits. *)
Definition conflictActs : list (action string Z) :=
  [ABegin None; ABegin None; APut 0%nat "counter" 1; APut 1%nat "counter" 2;
   ACommit 0%nat].

(** Three commits on ["k"], with one reader (handle 1) that began after the
    first and is still active. *)
Definition gcActs : list (action string Z) :=
  [ABegin None; APut 0%nat "k" 1; ACommit 0%nat;
   ABegin None;
   ABegin None; APut 2%nat "k" 2; ACommit 2%nat;
   ABegin None; APut 3%nat "k" 3; ACommit 3%nat].

(** The store after 2^64 - 1 transactions were begun and rolled back, and
    what follows: one transaction begins and gets id 0, a second one begins
    (id 1, same snapshot), the first puts ["k"] and commits, then the second
    puts ["k"]. *)
Definition wrappedStore : MVCCMap string Z :=
  N.iter (2 ^ 64 - 1) churn NewMVCCMap.

Definition wrapActs : list (action string Z) :=
  [ABegin None; ABegin None; APut 0%nat "k" 7; ACommit 0%nat; APut 1%nat "k" 9].

Definition wrappedWorld : World string Z :=
  run (mkWorld wrappedStore []) wrapActs.

(** The handles of [wrappedWorld], as they are after [wrapActs]. *)
Definition wrapTx0 : Tx string Z :=
  {| tx_id := 0; tx_snapshot := 0%nat;
     tx_writes := {[ "k" := mkVV 7 0 ]}; tx_readSet := ∅;
     tx_state := txCommitted; tx_ctx := Some Canceled |}.

Definition wrapTx1 : Tx string Z :=
  {| tx_id := 1; tx_snapshot := 0%nat;
     tx_writes := {[ "k" := mkVV 9 1 ]}; tx_readSet := ∅;
     tx_state := txActive; tx_ctx := None |}.

(** The second transaction of [conflictActs], as it is after them. *)
Definition conflictTx2 : Tx string Z :=
  {| tx_id := 2; tx_snapshot := 0%nat;
     tx_writes := {[ "counter" := mkVV 2 2 ]}; tx_readSet := ∅;
     tx_state := txActive; tx_ctx := None |}.

(** A commit of ["k"], then a transaction that puts ["j"]. *)
Definition overlayActs : list (action string Z) :=
  [ABegin None; APut 0%nat "k" 1; ACommit 0%nat; ABegin None;
   APut 1%nat "j" 5].

Definition overlayTx : Tx string Z :=
  {| tx_id := 2; tx_snapshot := 1%nat;
     tx_writes := {[ "j" := mkVV 5 2 ]}; tx_readSet := ∅;
     tx_state := txActive; tx_ctx := None |}.

(** A transaction that puts and reads ["x"], and a second one, with no
    commit so far. *)
Definition readActs : list (action string Z) :=
  [ABegin None; APut 0%nat "x" 42; AGet 0%nat "x"; ABegin None].

Definition readTx1 : Tx string Z :=
  {| tx_id := 1; tx_snapshot := 0%nat;
     tx_writes := {[ "x" := mkVV 42 1 ]}; tx_readSet := {[ "x" ]};
     tx_state := txActive; tx_ctx := None |}.

Definition readTx2 : Tx string Z :=
  {| tx_id := 2; tx_snapshot := 0%nat;
     tx_writes := ∅; tx_readSet := ∅;
     tx_state := txActive; tx_ctx := None |}.

End Examples.

(** * Accounting notions for runs of the store *)

Section RunVocabulary.
Context {K : Type} `{Countable K} {V : Type}.

(** The store as the critical section of [commit] leaves it when it
    publishes the write set of [tx]. *)
Definition pubStore (tx : Tx K V) (m : MVCCMap K V) : MVCCMap K V :=
  let l := fresh (dom (objs m)) in
  let newVID := wrap64 (nextVersionID m + 1) in
  {| objs := <[l := newVersion newVID
                      (tx_writes tx ∪ ver_data (deref m (current m)))]> (objs m);
     current := l;
     nextTxID := nextTxID m;
     nextVersionID := newVID;
     activeTxs := activeTxs m;
     versions := versions m ++ [l];
     logger := logger m ++
               [LogCommitted (tx_id tx) newVID (size (tx_writes tx))] |}.

(** The three releases every terminating call performs. *)
Definition release (tx : Tx K V) (m : MVCCMap K V) : MVCCMap K V :=
  refCount_Add (tx_snapshot tx) (-1) (unregisterTx (tx_id tx) m).

(** [tx] is active and holds the version object at [l] as its snapshot. *)
Definition activeOn (l : loc) (tx : Tx K V) : bool :=
  bool_decide (tx_state tx = txActive ∧ tx_snapshot tx = l).

(** The number of active transactions pinned on the version object at
    [l]. *)
Definition pins (txs : list (Tx K V)) (l : loc) : nat :=
  length (List.filter (activeOn l) txs).

(** The number of active transactions. *)
Definition activeCount (txs : list (Tx K V)) : nat :=
  length (List.filter (λ tx, bool_decide (tx_state tx = txActive)) txs).

(** The bookkeeping of a reachable world, while fewer than 2^63
    transactions have been begun: the [n]-th transaction begun has id [n],
    the registry holds exactly the ids of the active transactions, each with
    no wait-for edge, and the reference count of every version object is the
    number of active transactions pinned on it. *)
Definition Accounting (w : World K V) : Prop :=
  nextTxID (w_db w) = Z.of_nat (length (w_txs w))
  ∧ (∀ (h : nat) tx, w_txs w !! h = Some tx → tx_id tx = Z.of_nat h + 1)
  ∧ (∀ id, is_Some (activeTxs (w_db w) !! id) ↔
           ∃ (h : nat) tx, w_txs w !! h = Some tx ∧ tx_id tx = id
                           ∧ tx_state tx = txActive)
  ∧ (∀ l ver, objs (w_db w) !! l = Some ver →
              ver_refCount ver = Z.of_nat (pins (w_txs w) l)).

(** Every entry of every version object was written by a transaction that
    is no longer active. *)
Definition WritersDone (w : World K V) : Prop :=
  ∀ l ver k vv,
    objs (w_db w) !! l = Some ver → ver_data ver !! k = Some vv →
    ∃ (h : nat) tx, w_txs w !! h = Some tx ∧ tx_id tx = writerTxID vv
                    ∧ tx_state tx ≠ txActive.

(** The id of the version object at [l]. *)
Definition vid (m : MVCCMap K V) (l : loc) : Z := ver_id (deref m l).

(** The versions list holds allocated objects in strictly increasing order
    of id, the current version last; and the snapshot of every active
    transaction is in it. *)
Definition VersionsList (w : World K V) : Prop :=
  Forall (λ l, is_Some (objs (w_db w) !! l)) (versions (w_db w))
  ∧ StronglySorted Z.lt (vid (w_db w) <$> versions (w_db w))
  ∧ last (versions (w_db w)) = Some (current (w_db w)).


(** No registered transaction waits for another one. *)
Definition NoWaits (m : MVCCMap K V) : Prop :=
  ∀ id meta, activeTxs m !! id = Some meta → meta_waitFor meta = 0.

Definition isGC (a : action K V) : bool :=
  match a with AGC => true | _ => false end.

(** The versions list keeps the sweep's order: what a reclaimer tick
    retains. *)
Definition sweep (m : MVCCMap K V) : list loc :=
  List.filter (keepVersion m (currentVersionID m) (currentVersionID m))
              (versions m).

End RunVocabulary.

(** * options.go

    [time.Duration] is a count of nanoseconds; [L] stands for
    [*slog.Logger]. *)

Section Options.
Context {L : Type}.

Record config := mkConfig {
  gcInterval : Z;
  deadlockCheckInterval : Z;
  cfg_logger : L
}.

(** [stderrWarn] is the logger [defaultConfig] builds: a text handler on
    standard error at level [Warn]. *)
Definition defaultConfig (stderrWarn : L) : config :=
  {| gcInterval := 5 * 1000000000;
     deadlockCheckInterval := 100 * 1000000;
     cfg_logger := stderrWarn |}.

(** An [Option] is a function on a pointer to the [config]: here, its
    effect on the pointee. *)
Definition Option : Type := config → config.

Definition WithGCInterval (d : Z) : Option :=
  λ c, {| gcInterval := d;
          deadlockCheckInterval := deadlockCheckInterval c;
          cfg_logger := cfg_logger c |}.

Definition WithDeadlockCheckInterval (d : Z) : Option :=
  λ c, {| gcInterval := gcInterval c;
          deadlockCheckInterval := d;
          cfg_logger := cfg_logger c |}.

Definition WithLogger (l : L) : Option :=
  λ c, {| gcInterval := gcInterval c;
          deadlockCheckInterval := deadlockCheckInterval c;
          cfg_logger := l |}.

(** The first lines of [NewMVCCMap]:
    [cfg := defaultConfig(); for _, o := range opts { o(&cfg) }]. *)
Definition applyOptions (stderrWarn : L) (opts : list Option) : config :=
  foldl (λ cfg o, o cfg) (defaultConfig stderrWarn) opts.

(** The options a caller can build, by constructor. *)
Inductive setting :=
  | SetGCInterval (d : Z)
  | SetDeadlockCheckInterval (d : Z)
  | SetLogger (l : L).

Definition optionOf (s : setting) : Option :=
  match s with
  | SetGCInterval d => WithGCInterval d
  | SetDeadlockCheckInterval d => WithDeadlockCheckInterval d
  | SetLogger l => WithLogger l
  end.

Definition gcSetting (s : setting) : option Z :=
  match s with SetGCInterval d => Some d | _ => None end.

Definition deadlockSetting (s : setting) : option Z :=
  match s with SetDeadlockCheckInterval d => Some d | _ => None end.

Definition loggerSetting (s : setting) : option L :=
  match s with SetLogger l => Some l | _ => None end.

End Options.

Arguments config : clear implicits.
Arguments Option : clear implicits.
Arguments setting : clear implicits.

(** * More runs, over string keys and integer values *)

Module Scenarios.

(** Two transactions begin on the fresh store and put different keys. *)
Definition disjointActs : list (action string Z) :=
  [ABegin None; ABegin None; APut 0%nat "a" 1; APut 1%nat "b" 2].

Definition disjointTx1 : Tx string Z :=
  {| tx_id := 1; tx_snapshot := 0%nat;
     tx_writes := {[ "a" := mkVV 1 1 ]}; tx_readSet := ∅;
     tx_state := txActive; tx_ctx := None |}.

Definition disjointTx2 : Tx string Z :=
  {| tx_id := 2; tx_snapshot := 0%nat;
     tx_writes := {[ "b" := mkVV 2 2 ]}; tx_readSet := ∅;
     tx_state := txActive; tx_ctx := None |}.

(** Two transactions begin on the fresh store and put the same key. *)
Definition raceActs : list (action string Z) :=
  [ABegin None; ABegin None; APut 0%nat "counter" 1; APut 1%nat "counter" 2].

Definition raceTx1 : Tx string Z :=
  {| tx_id := 1; tx_snapshot := 0%nat;
     tx_writes := {[ "counter" := mkVV 1 1 ]}; tx_readSet := ∅;
     tx_state := txActive; tx_ctx := None |}.

(** What the second transaction of [Examples.readActs] and the background
    do while the first one is idle. *)
Definition othersActs : list (action string Z) :=
  [APut 1%nat "x" 5; ACommit 1%nat; AGC; ADetect [1; 2]; ABegin None].

(** A terminated transaction. *)
Definition doneTx : Tx string Z :=
  {| tx_id := 1; tx_snapshot := 0%nat;
     tx_writes := ∅; tx_readSet := ∅;
     tx_state := txRolledBack; tx_ctx := Some Canceled |}.

End Scenarios.

(** * Properties *)

Section CommitProperties.
Context {K : Type} `{Countable K} {V : Type}.
Implicit Types (m : MVCCMap K V) (tx : Tx K V) (k : K).
Implicit Types (cur snap : version K V) (d w : gmap K (versionedValue V)).

(** ** The two range loops of [commit] do not depend on the iteration order *)

Lemma existsb_map_to_list (P : K → bool) w :
  existsb (λ kv, P kv.1) (map_to_list w) = true
  ↔ ∃ k, is_Some (w !! k) ∧ P k = true.
Proof.
  rewrite existsb_exists. split.
  - intros [[k vv] [Hin HP]]. exists k. split; [|done].
    apply list_elem_of_In, elem_of_map_to_list in Hin. by exists vv.
  - intros (k & [vv Hk] & HP). exists (k, vv). split; [|done].
    by apply list_elem_of_In, elem_of_map_to_list.
Qed.

Lemma foldl_insert_union (l : list (K * versionedValue V)) d :
  NoDup l.*1 →
  foldl (λ acc kv, <[kv.1 := kv.2]> acc) d l = list_to_map l ∪ d.
Proof.
  revert d. induction l as [|[k vv] l IH]; intros d Hnd; simpl.
  - by rewrite (left_id_L ∅ (∪)).
  - rewrite fmap_cons in Hnd. apply NoDup_cons in Hnd as [Hk Hnd].
    rewrite IH by done. rewrite <- insert_union_l. symmetry.
    apply insert_union_r. by apply not_elem_of_list_to_map_1.
Qed.

Lemma applyWrites_union d w : applyWrites d w = w ∪ d.
Proof.
  unfold applyWrites. rewrite foldl_insert_union by apply NoDup_fst_map_to_list.
  by rewrite list_to_map_to_list.
Qed.

Lemma conflictOn_true cur snap k :
  conflictOn cur snap k = true ↔
  ∃ cv, ver_data cur !! k = Some cv ∧ writerTxID cv ≠ 0
        ∧ ver_id cur > ver_id snap
        ∧ (ver_data snap !! k = None
           ∨ ∃ sv, ver_data snap !! k = Some sv
                   ∧ writerTxID sv ≠ writerTxID cv).
Proof.
  unfold conflictOn. destruct (ver_data cur !! k) as [cv|] eqn:Hc.
  - destruct (Z.eqb_spec (writerTxID cv) 0) as [Hz|Hz]; simpl.
    { split; [done|]. intros (cv' & [= <-] & Hne & _). done. }
    destruct (Z.gtb_spec (ver_id cur) (ver_id snap)) as [Hgt|Hle].
    + destruct (ver_data snap !! k) as [sv|] eqn:Hs.
      * destruct (Z.eqb_spec (writerTxID sv) (writerTxID cv)) as [He|He]; simpl.
        -- split; [done|]. intros (cv' & [= <-] & _ & _ & [?|(sv' & [= <-] & ?)]); done.
        -- split; [|done]. intros _. exists cv. repeat split; [done|lia|].
           right. by exists sv.
      * split; [|done]. intros _. exists cv. repeat split; [done|lia|by left].
    + split; [done|]. intros (cv' & _ & _ & Hgt & _). lia.
  - split; [done|]. by intros (cv & [=] & _).
Qed.

Lemma commit_conflict_iff tx m :
  (commit tx m).1 = Some ErrConflict ↔
  ∃ k, is_Some (tx_writes tx !! k)
       ∧ conflictOn (deref m (current m)) (deref m (tx_snapshot tx)) k = true.
Proof.
  unfold commit. rewrite <- existsb_map_to_list.
  destruct (existsb _ _); simpl; split; done.
Qed.

Lemma commit_err_cases tx m :
  (commit tx m).1 = None ∨ (commit tx m).1 = Some ErrConflict.
Proof. unfold commit. destruct (existsb _ _); simpl; auto. Qed.

(** On the conflict path the store is returned as it was. *)
Lemma commit_conflict_unchanged tx m :
  (commit tx m).1 = Some ErrConflict → (commit tx m).2 = m.
Proof. unfold commit. destruct (existsb _ _); simpl; [done|discriminate]. Qed.

(** On the success path a fresh version object becomes current. *)
Lemma commit_ok_store tx m :
  (commit tx m).1 = None →
  let l := fresh (dom (objs m)) in
  let newVID := wrap64 (nextVersionID m + 1) in
  objs m !! l = None
  ∧ (commit tx m).2 =
    {| objs := <[l := newVersion newVID
                        (tx_writes tx ∪ ver_data (deref m (current m)))]> (objs m);
       current := l;
       nextTxID := nextTxID m;
       nextVersionID := newVID;
       activeTxs := activeTxs m;
       versions := versions m ++ [l];
       logger := logger m ++
                 [LogCommitted (tx_id tx) newVID (size (tx_writes tx))] |}.
Proof.
  intros Hok l newVID. split.
  { apply not_elem_of_dom, is_fresh. }
  revert Hok. unfold commit. destruct (existsb _ _); simpl; [discriminate|].
  intros _. by rewrite applyWrites_union.
Qed.

End CommitProperties.

Section TxProperties.
Context {K : Type} `{Countable K} {V : Type}.
Implicit Types (m : MVCCMap K V) (tx : Tx K V) (k : K) (v : V).

(** ** Small facts about the store updates *)

Lemma swrap64_id x : - 2 ^ 63 ≤ x < 2 ^ 63 → swrap64 x = x.
Proof. intros Hx. unfold swrap64. rewrite Z.mod_small by lia. lia. Qed.

(** What [refCount.Add] does to an allocated version object. *)
Lemma refCount_Add_lookup l l' delta m :
  objs (refCount_Add l delta m) !! l' =
  if decide (l = l') then
    (λ ver, mkVersion (ver_id ver) (ver_data ver)
                      (swrap64 (ver_refCount ver + delta))) <$> objs m !! l'
  else objs m !! l'.
Proof.
  unfold refCount_Add; simpl. rewrite lookup_alter.
  destruct (decide (l = l')) as [->|]; done.
Qed.

Lemma deref_refCount_Add_data l l' delta m :
  ver_data (deref (refCount_Add l delta m) l') = ver_data (deref m l')
  ∧ ver_id (deref (refCount_Add l delta m) l') = ver_id (deref m l').
Proof.
  unfold deref. rewrite refCount_Add_lookup.
  destruct (decide (l = l')), (objs m !! l'); done.
Qed.

Lemma deref_unregisterTx id m l : deref (unregisterTx id m) l = deref m l.
Proof. done. Qed.

(** ** The state machine of a transaction *)

Lemma checkActive_None tx : checkActive tx = None ↔ tx_state tx = txActive.
Proof. unfold checkActive. destruct (decide _); split; done. Qed.

Lemma Rollback_inactive tx m :
  tx_state tx ≠ txActive → Rollback tx m = (tx, m).
Proof. unfold Rollback. destruct (tx_state tx); done. Qed.

Lemma Commit_inactive tx m :
  tx_state tx ≠ txActive → Commit tx m = (Some ErrTxDone, tx, m).
Proof. unfold Commit. destruct (tx_state tx); done. Qed.

Lemma Rollback_active tx m :
  tx_state tx = txActive →
  Rollback tx m =
  (cancel (set_state txRolledBack tx),
   refCount_Add (tx_snapshot tx) (-1) (unregisterTx (tx_id tx) m)).
Proof. unfold Rollback. by intros ->. Qed.

Lemma Commit_active_canceled tx m cause :
  tx_state tx = txActive → tx_ctx tx = Some cause →
  Commit tx m =
  (Some (ErrTxCanceled cause),
   cancel (set_state txRolledBack (set_state txCommitted tx)),
   refCount_Add (tx_snapshot tx) (-1) (unregisterTx (tx_id tx) m)).
Proof. unfold Commit. intros -> Hc. simpl. by rewrite Hc. Qed.

Lemma Commit_active_live tx m :
  tx_state tx = txActive → tx_ctx tx = None →
  Commit tx m =
  ((commit (set_state txCommitted tx) m).1,
   cancel (set_state txCommitted tx),
   refCount_Add (tx_snapshot tx) (-1)
     (unregisterTx (tx_id tx) (commit (set_state txCommitted tx) m).2)).
Proof.
  unfold Commit. intros -> Hc. simpl. rewrite Hc.
  by destruct (commit _ m).
Qed.

(** [commit] never touches the registry of active transactions, and it
    leaves every version object that already exists as it is. *)
Lemma commit_activeTxs tx m : activeTxs (commit tx m).2 = activeTxs m.
Proof. unfold commit. by destruct (existsb _ _). Qed.

Lemma commit_objs_old tx m l ver :
  objs m !! l = Some ver → objs (commit tx m).2 !! l = Some ver.
Proof.
  intros Hl. unfold commit. destruct (existsb _ _); simpl; [done|].
  rewrite lookup_insert_ne; [done|].
  intros <-. pose proof (is_fresh (dom (objs m))) as Hf.
  apply Hf, elem_of_dom. by eexists.
Qed.

(** The three deferred releases, for any store [m2] reached by the body. *)
Lemma release_refCount tx m2 ver :
  objs m2 !! tx_snapshot tx = Some ver →
  objs (refCount_Add (tx_snapshot tx) (-1) (unregisterTx (tx_id tx) m2))
    !! tx_snapshot tx
  = Some (mkVersion (ver_id ver) (ver_data ver)
                    (swrap64 (ver_refCount ver - 1))).
Proof.
  intros Hs. rewrite refCount_Add_lookup. rewrite decide_True by done.
  simpl. rewrite Hs. done.
Qed.

End TxProperties.

Section ClaimsOnTransactions.
Context {K : Type} `{Countable K} {V : Type}.
Implicit Types (m : MVCCMap K V) (tx : Tx K V) (k : K) (v : V).

(** C1 (as amended).  In the commit critical section a conflict is
    signalled exactly when some key of the write set has an entry in the
    current version whose writer id is not 0, the current version's id is
    greater than the snapshot's id, and the snapshot has no entry for the key
    or one with a different writer id.  A key with no current entry never
    conflicts, and [ErrConflict] is the only error of the section. *)
Theorem C1_conflict_predicate tx m :
  let cur := deref m (current m) in
  let snap := deref m (tx_snapshot tx) in
  ((commit tx m).1 = Some ErrConflict ↔
   ∃ k cv, is_Some (tx_writes tx !! k)
           ∧ ver_data cur !! k = Some cv
           ∧ writerTxID cv ≠ 0
           ∧ ver_id cur > ver_id snap
           ∧ (ver_data snap !! k = None
              ∨ ∃ sv, ver_data snap !! k = Some sv
                      ∧ writerTxID sv ≠ writerTxID cv))
  ∧ (∀ k, ver_data cur !! k = None → conflictOn cur snap k = false)
  ∧ ((commit tx m).1 = None ∨ (commit tx m).1 = Some ErrConflict).
Proof.
  intros cur snap. split; [|split].
  - rewrite commit_conflict_iff. split.
    + intros (k & Hw & Hc). apply conflictOn_true in Hc as (cv & Hc).
      exists k, cv. tauto.
    + intros (k & cv & Hw & Hc). exists k. split; [done|].
      apply conflictOn_true. by exists cv.
  - intros k Hk. unfold conflictOn. by rewrite Hk.
  - apply commit_err_cases.
Qed.

(** Where the two guards hold anyway the code's predicate is the
    specification's. *)
Lemma conflictOn_spec_agree (cur snap : version K V) k :
  ver_id cur > ver_id snap →
  (∀ cv, ver_data cur !! k = Some cv → writerTxID cv ≠ 0) →
  conflictOn cur snap k = spec_conflictOn cur snap k.
Proof.
  intros Hgt Hnz. unfold conflictOn, spec_conflictOn.
  destruct (ver_data cur !! k) as [cv|]; [|done].
  specialize (Hnz cv eq_refl).
  destruct (Z.eqb_spec (writerTxID cv) 0); [done|].
  destruct (Z.gtb_spec (ver_id cur) (ver_id snap)); [done|lia].
Qed.

(** C6.  [Commit] starts with the compare-and-swap: on a transaction that
    is not active it returns [ErrTxDone] and changes nothing.  Otherwise, on
    every exit path, the context ends up cancelled, the transaction is
    unregistered and the snapshot's reference count is decremented once; and
    when the context had fired already the state becomes rolled back, the
    error is [ErrTxCanceled] wrapping the context's error, and the critical
    section is not entered. *)
Theorem C6_Commit_protocol tx m :
  (tx_state tx ≠ txActive → Commit tx m = (Some ErrTxDone, tx, m))
  ∧ (tx_state tx = txActive →
     let '(err, tx', m') := Commit tx m in
     is_Some (tx_ctx tx')
     ∧ activeTxs m' = delete (tx_id tx) (activeTxs m)
     ∧ (∀ ver, objs m !! tx_snapshot tx = Some ver →
               objs m' !! tx_snapshot tx
               = Some (mkVersion (ver_id ver) (ver_data ver)
                                 (swrap64 (ver_refCount ver - 1))))
     ∧ (∀ cause, tx_ctx tx = Some cause →
                 err = Some (ErrTxCanceled cause)
                 ∧ tx_state tx' = txRolledBack
                 ∧ m' = refCount_Add (tx_snapshot tx) (-1)
                          (unregisterTx (tx_id tx) m))
     ∧ (tx_ctx tx = None →
        err = (commit (set_state txCommitted tx) m).1
        ∧ tx_state tx' = txCommitted)).
Proof.
  split; [apply Commit_inactive|]. intros Hact.
  destruct (tx_ctx tx) as [cause|] eqn:Hctx.
  - rewrite (Commit_active_canceled _ _ cause) by done.
    split; [simpl; rewrite Hctx; by eexists|].
    split; [done|]. split; [intros ver Hv; by apply release_refCount|].
    split; [|done]. by intros ? [= <-].
  - rewrite Commit_active_live by done.
    split; [simpl; rewrite Hctx; by eexists|].
    split; [simpl; by rewrite commit_activeTxs|].
    split; [|split; done].
    intros ver Hv. apply release_refCount.
    by apply (commit_objs_old (set_state txCommitted tx)).
Qed.

(** C7.  When the critical section detects a conflict it returns the store
    untouched; through [Commit] the current pointer, the versions list, the
    version counter and every version's id and data are as before; and no
    operation other than a [Commit] that reached the conflict check returns
    [ErrConflict]. *)
Theorem C7_conflict_without_publishing tx m :
  ((commit tx m).1 = Some ErrConflict → (commit tx m).2 = m)
  ∧ ((Commit tx m).1.1 = Some ErrConflict →
     let m' := (Commit tx m).2 in
     current m' = current m ∧ versions m' = versions m
     ∧ nextVersionID m' = nextVersionID m
     ∧ dom (objs m') = dom (objs m)
     ∧ ∀ l, ver_id (deref m' l) = ver_id (deref m l)
            ∧ ver_data (deref m' l) = ver_data (deref m l))
  ∧ (∀ op, res_err (exec op tx m).1.1 = Some ErrConflict →
           op = OpCommit ∧ tx_state tx = txActive ∧ tx_ctx tx = None
           ∧ ∃ k, is_Some (tx_writes tx !! k)
                  ∧ conflictOn (deref m (current m))
                               (deref m (tx_snapshot tx)) k = true).
Proof.
  split; [apply commit_conflict_unchanged|].
  assert (Hcommit : (Commit tx m).1.1 = Some ErrConflict →
            tx_state tx = txActive ∧ tx_ctx tx = None
            ∧ (commit (set_state txCommitted tx) m).1 = Some ErrConflict).
  { destruct (decide (tx_state tx = txActive)) as [Ha|Hn].
    - destruct (tx_ctx tx) as [cause|] eqn:Hc.
      + by rewrite (Commit_active_canceled _ _ cause).
      + by rewrite Commit_active_live.
    - by rewrite Commit_inactive. }
  split.
  - intros Herr. destruct (Hcommit Herr) as (Ha & Hc & Hconf).
    rewrite Commit_active_live by done. simpl.
    rewrite (commit_conflict_unchanged _ _ Hconf). simpl.
    repeat split; try done.
    + apply dom_alter_L.
    + apply (deref_refCount_Add_data _ _ _ (unregisterTx (tx_id tx) m)).
    + apply (deref_refCount_Add_data _ _ _ (unregisterTx (tx_id tx) m)).
  - intros op Herr. destruct op as [key|key val| |]; simpl in Herr.
    + by destruct (Get key tx m).
    + unfold Put in Herr. destruct (checkActive tx) eqn:Hca.
      * unfold checkActive in Hca. by destruct (decide _); simplify_eq.
      * destruct (tx_ctx tx); [|done]. by destruct (Rollback tx m).
    + destruct (Commit tx m) as [[e tx'] m'] eqn:HC. simpl in *.
      destruct (Hcommit Herr) as (Ha & Hc & Hconf).
      repeat split; try done. by apply commit_conflict_iff in Hconf.
    + by destruct (Rollback tx m).
Qed.

(** ** Terminal transactions *)

Lemma exec_done (op : txOp K V) tx m :
  isTermination op = true → tx_state tx ≠ txActive →
  exec op tx m = (doneResult op, tx, m).
Proof.
  intros Hop Hs. destruct op; simpl in *; try discriminate.
  - by rewrite Commit_inactive.
  - by rewrite Rollback_inactive.
Qed.

Lemma execAll_done (ops : list (txOp K V)) tx m :
  Forall (λ o, isTermination o = true) ops → tx_state tx ≠ txActive →
  execAll ops tx m = (doneResult <$> ops, tx, m).
Proof.
  intros Hops Hs. induction Hops as [|op ops Hop _ IH]; simpl; [done|].
  rewrite exec_done by done. by rewrite IH.
Qed.

Lemma terminal_not_active s : terminal s → s ≠ txActive.
Proof. by intros [-> | ->]. Qed.

(** The first terminating call on an active transaction. *)
Lemma exec_first_termination (op : txOp K V) tx m ver :
  tx_state tx = txActive → isTermination op = true →
  objs m !! tx_snapshot tx = Some ver →
  terminal (tx_state (exec op tx m).1.2)
  ∧ objs (exec op tx m).2 !! tx_snapshot tx
    = Some (mkVersion (ver_id ver) (ver_data ver)
                      (swrap64 (ver_refCount ver - 1))).
Proof.
  intros Ha Hop Hv. destruct op; simpl in *; try discriminate.
  - destruct (tx_ctx tx) as [cause|] eqn:Hc.
    + rewrite (Commit_active_canceled _ _ cause) by done. simpl.
      split; [by right|by apply release_refCount].
    + rewrite Commit_active_live by done. simpl.
      split; [by left|]. apply release_refCount.
      by apply (commit_objs_old (set_state txCommitted tx)).
  - rewrite Rollback_active by done. simpl.
    split; [by right|by apply release_refCount].
Qed.

(** C8.  For any non-empty sequence of [Commit] and [Rollback] calls on an
    active transaction: the first call moves it to a terminal state
    (committed or rolled back); every later call leaves the transaction and
    the store exactly as they are, [Rollback] returning nothing and [Commit]
    returning [ErrTxDone]; and over the whole sequence the snapshot's
    reference count has been decremented once.  (A [Commit] whose context
    had fired passes through committed and ends rolled back within that
    first call.) *)
Theorem C8_idempotent_termination
    (op : txOp K V) (ops : list (txOp K V)) tx m ver :
  tx_state tx = txActive →
  isTermination op = true →
  Forall (λ o, isTermination o = true) ops →
  objs m !! tx_snapshot tx = Some ver →
  let '(r1, tx1, m1) := exec op tx m in
  let '(rs, tx2, m2) := execAll ops tx1 m1 in
  terminal (tx_state tx1)
  ∧ tx2 = tx1 ∧ m2 = m1
  ∧ rs = doneResult <$> ops
  ∧ objs m2 !! tx_snapshot tx
    = Some (mkVersion (ver_id ver) (ver_data ver)
                      (swrap64 (ver_refCount ver - 1))).
Proof.
  intros Ha Hop Hops Hv.
  destruct (exec_first_termination op tx m ver Ha Hop Hv) as [Hterm Hrc].
  destruct (exec op tx m) as [[r1 tx1] m1]. simpl in *.
  rewrite execAll_done by auto using terminal_not_active.
  done.
Qed.

(** ** Reading *)

Lemma Get_inactive k tx m :
  tx_state tx ≠ txActive → Get k tx m = (None, tx).
Proof.
  intros Hs. unfold Get, checkActive. by rewrite decide_False.
Qed.

Lemma Get_active_value k tx m :
  tx_state tx = txActive →
  (Get k tx m).1 =
  match tx_writes tx !! k with
  | Some vv => Some (value vv)
  | None =>
      match ver_data (deref m (tx_snapshot tx)) !! k with
      | Some vv => Some (value vv)
      | None => None
      end
  end.
Proof.
  intros Hs. unfold Get, checkActive. rewrite decide_True by done.
  destruct (tx_writes tx !! k); [done|].
  by destruct (ver_data (deref m (tx_snapshot tx)) !! k).
Qed.

(** [Get] changes nothing of a transaction but its read set. *)
Lemma Get_tx_fields k tx m :
  let tx' := (Get k tx m).2 in
  tx_id tx' = tx_id tx ∧ tx_snapshot tx' = tx_snapshot tx
  ∧ tx_writes tx' = tx_writes tx ∧ tx_state tx' = tx_state tx
  ∧ tx_ctx tx' = tx_ctx tx.
Proof.
  unfold Get. destruct (checkActive tx); [done|].
  destruct (tx_writes tx !! k); [done|].
  by destruct (ver_data (deref m (tx_snapshot tx)) !! k).
Qed.

(** C3 (as amended).  An active transaction whose cancellation context has
    fired observes [ErrTxCanceled], wrapping the context's error, at its next
    [Put] or [Commit], either of which leaves it rolled back.  [Get] has no
    error result: on such a transaction it still answers from the write
    buffer and the snapshot and leaves the transaction active. *)
Theorem C3_cancellation_observed tx m cause :
  tx_state tx = txActive →
  tx_ctx tx = Some cause →
  (∀ k v, res_err (exec (OpPut k v) tx m).1.1 = Some (ErrTxCanceled cause)
          ∧ tx_state (exec (OpPut k v) tx m).1.2 = txRolledBack)
  ∧ (res_err (exec OpCommit tx m).1.1 = Some (ErrTxCanceled cause)
     ∧ tx_state (exec OpCommit tx m).1.2 = txRolledBack)
  ∧ (∀ k, res_err (exec (OpGet k) tx m).1.1 = None
          ∧ res_value (exec (OpGet k) tx m).1.1
            = value <$> (tx_writes tx ∪ ver_data (deref m (tx_snapshot tx))) !! k
          ∧ tx_state (exec (OpGet k) tx m).1.2 = txActive
          ∧ tx_ctx (exec (OpGet k) tx m).1.2 = Some cause
          ∧ (exec (OpGet k) tx m).2 = m).
Proof.
  intros Ha Hc. split; [|split].
  - intros k v. simpl. unfold Put, checkActive.
    rewrite decide_True by done. rewrite Hc.
    rewrite Rollback_active by done. done.
  - simpl. rewrite (Commit_active_canceled _ _ cause) by done. done.
  - intros k. simpl.
    pose proof (Get_active_value k tx m Ha) as Hv.
    pose proof (Get_tx_fields k tx m) as (_ & _ & _ & Hs & Hx).
    destruct (Get k tx m) as [r tx']. simpl in *.
    rewrite Hs, Hx. repeat split; try done.
    rewrite Hv, lookup_union.
    destruct (tx_writes tx !! k), (ver_data (deref m (tx_snapshot tx)) !! k); done.
Qed.

End ClaimsOnTransactions.

Section Reclaimer.
Context {K : Type} `{Countable K} {V : Type}.
Implicit Types (m : MVCCMap K V).

(** The loop over [m.activeTxs] leaves [minSnapshotID] as it was. *)
Lemma minSnapshotID_of_current m : minSnapshotID_of m = currentVersionID m.
Proof.
  unfold minSnapshotID_of. generalize (currentVersionID m).
  induction (map_to_list (activeTxs m)) as [|meta l IH]; intros z; simpl; auto.
Qed.

(** The in-place compaction is a filter.  Loop invariant: the array is
    [pre ++ mid ++ rest] where [pre] holds the versions kept so far (the
    slice [kept]), [rest] is still to be read, and [mid] is the stale
    stretch between the write index and the read index. *)
Lemma compactLoop_filter m cid mid_ (rest : list loc) :
  ∀ (pre mid : list loc) lg (i j : nat) arr arr' j' lg',
    i = (length pre + length mid)%nat →
    j = length pre →
    arr = pre ++ mid ++ rest →
    compactLoop m cid mid_ (length rest) i j arr lg = (arr', j', lg') →
    take j' arr' = pre ++ List.filter (keepVersion m cid mid_) rest
    ∧ lg' = lg ++ ((λ l, LogCollected (ver_id (deref m l)))
                     <$> List.filter (λ l, negb (keepVersion m cid mid_ l)) rest).
Proof.
  induction rest as [|v rest IH]; intros pre mid lg i j arr arr' j' lg' Hi Hj Harr Hrun.
  - simpl in Hrun. injection Hrun as <- <- <-. subst. simpl.
    by rewrite take_app_length, !(right_id_L [] (++)).
  - assert (arr !! i = Some v) as Hv.
    { subst. rewrite (assoc_L (++)), <- length_app. by apply list_lookup_middle. }
    simpl in Hrun. rewrite Hv in Hrun. simpl.
    destruct (keepVersion m cid mid_ v) eqn:Hk; simpl.
    + destruct mid as [|x mid].
      * apply (IH (pre ++ [v]) []) in Hrun.
        -- by rewrite <- (assoc_L (++)) in Hrun.
        -- subst. rewrite length_app. simpl. lia.
        -- subst. rewrite length_app. simpl. lia.
        -- subst. rewrite insert_app_r_alt by lia.
           rewrite Nat.sub_diag. simpl. by rewrite <- (assoc_L (++)).
      * apply (IH (pre ++ [v]) (mid ++ [v])) in Hrun.
        -- by rewrite <- (assoc_L (++)) in Hrun.
        -- subst. rewrite !length_app. simpl. lia.
        -- subst. rewrite length_app. simpl. lia.
        -- subst. rewrite insert_app_r_alt by lia.
           rewrite Nat.sub_diag. simpl. by rewrite <- !(assoc_L (++)).
    + apply (IH pre (mid ++ [v])) in Hrun.
      * by rewrite <- (assoc_L (++)) in Hrun.
      * subst. rewrite length_app. simpl. lia.
      * done.
      * subst. by rewrite <- (assoc_L (++) mid).
Qed.

Lemma collectVersionsFrom_filter minID m :
  collectVersionsFrom minID m =
  {| objs := objs m;
     current := current m;
     nextTxID := nextTxID m;
     nextVersionID := nextVersionID m;
     activeTxs := activeTxs m;
     versions := List.filter (keepVersion m (currentVersionID m) minID)
                             (versions m);
     logger := logger m ++
       ((λ l, LogCollected (ver_id (deref m l)))
          <$> List.filter (λ l, negb (keepVersion m (currentVersionID m) minID l))
                          (versions m)) |}.
Proof.
  unfold collectVersionsFrom.
  destruct (compactLoop _ _ _ _ _ _ _ _) as [[arr j] lg] eqn:Hrun.
  apply (compactLoop_filter _ _ _ _ [] []) in Hrun as [-> ->]; done.
Qed.

(** C2 (as amended).  On a reclaimer tick the threshold [minSnapshotID] is
    the current version's id, whatever transactions are active.  A version
    of the list is retained if and only if its id is the current id, or its
    reference count is positive, or its id is at least that threshold; all
    others are dropped from the list, the retained ones keeping their order,
    and one log line is emitted per dropped version.  Nothing else of the
    store changes.  (Last conjunct: the same holds of the sweep under
    [versionsMu] for whatever threshold was read before the lock was
    taken.) *)
Theorem C2_collectVersions m :
  let cid := currentVersionID m in
  let retained l :=
    (ver_id (deref m l) =? cid) || (ver_refCount (deref m l) >? 0)
    || (ver_id (deref m l) >=? cid) in
  let m' := collectVersions m in
  minSnapshotID_of m = cid
  ∧ versions m' = List.filter retained (versions m)
  ∧ (∀ l, l ∈ versions m' ↔
          l ∈ versions m
          ∧ (ver_id (deref m l) = cid ∨ ver_refCount (deref m l) > 0
             ∨ cid ≤ ver_id (deref m l)))
  ∧ logger m' = logger m ++
      ((λ l, LogCollected (ver_id (deref m l)))
         <$> List.filter (λ l, negb (retained l)) (versions m))
  ∧ objs m' = objs m ∧ current m' = current m
  ∧ activeTxs m' = activeTxs m
  ∧ nextTxID m' = nextTxID m ∧ nextVersionID m' = nextVersionID m
  ∧ ∀ minID, versions (collectVersionsFrom minID m)
             = List.filter (keepVersion m cid minID) (versions m).
Proof.
  intros cid retained m'. subst m'. unfold collectVersions.
  rewrite minSnapshotID_of_current, collectVersionsFrom_filter. simpl.
  fold cid. change (keepVersion m cid cid) with retained.
  split; [done|]. split; [done|]. split.
  - intros l. rewrite list_elem_of_In, filter_In, <- list_elem_of_In.
    apply and_iff_compat_l. unfold retained.
    rewrite !orb_true_iff, Z.eqb_eq, Z.gtb_lt, Z.geb_le. lia.
  - repeat split; try done. intros minID.
    by rewrite collectVersionsFrom_filter.
Qed.

End Reclaimer.

Section WorldSteps.
Context {K : Type} `{Countable K} {V : Type}.
Implicit Types (m : MVCCMap K V) (tx : Tx K V) (k : K) (v : V).
Implicit Types (w : World K V) (a : action K V) (l : loc).

(** ** What a step does to the version objects *)

Lemma shape_refCount_Add l0 delta m l :
  shape (refCount_Add l0 delta m) l = shape m l.
Proof.
  unfold shape. rewrite refCount_Add_lookup.
  destruct (decide (l0 = l)); [|done]. by destruct (objs m !! l).
Qed.

Lemma shape_BeginTx pctx m l : shape (BeginTx pctx m).2 l = shape m l.
Proof. apply (shape_refCount_Add (current m) 1 m l). Qed.

Lemma shape_Rollback tx m l : shape (Rollback tx m).2 l = shape m l.
Proof.
  unfold Rollback. destruct (tx_state tx); try done.
  apply (shape_refCount_Add _ _ (unregisterTx (tx_id tx) m)).
Qed.

Lemma shape_Put k v tx m l : shape (Put k v tx m).2 l = shape m l.
Proof.
  unfold Put. destruct (checkActive tx); [done|].
  destruct (tx_ctx tx); [|done].
  pose proof (shape_Rollback tx m l). by destruct (Rollback tx m).
Qed.

Lemma shape_collectVersions m l : shape (collectVersions m) l = shape m l.
Proof. unfold collectVersions. by rewrite collectVersionsFrom_filter. Qed.

Lemma objs_detectDeadlocks order m :
  objs (detectDeadlocks order m) = objs m
  ∧ current (detectDeadlocks order m) = current m
  ∧ versions (detectDeadlocks order m) = versions m
  ∧ activeTxs (detectDeadlocks order m) = activeTxs m
  ∧ nextTxID (detectDeadlocks order m) = nextTxID m
  ∧ nextVersionID (detectDeadlocks order m) = nextVersionID m.
Proof.
  unfold detectDeadlocks. destruct (findCycle order m); [|done].
  unfold resolveDeadlock. simpl. by destruct (activeTxs m !! _).
Qed.

Lemma shape_detectDeadlocks order m l :
  shape (detectDeadlocks order m) l = shape m l.
Proof. unfold shape. by rewrite (proj1 (objs_detectDeadlocks order m)). Qed.

(** [commit] either fails and changes nothing, or allocates one fresh
    version object, which becomes current. *)
Lemma shape_commit tx m l :
  shape (commit tx m).2 l =
  match (commit tx m).1 with
  | Some _ => shape m l
  | None =>
      if decide (l = fresh (dom (objs m))) then
        Some (wrap64 (nextVersionID m + 1),
              tx_writes tx ∪ ver_data (deref m (current m)))
      else shape m l
  end.
Proof.
  destruct (commit tx m).1 as [e|] eqn:He.
  - destruct (commit_err_cases tx m) as [Hn|Hc]; [congruence|].
    by rewrite (commit_conflict_unchanged _ _ Hc).
  - destruct (commit_ok_store tx m He) as [_ ->]. unfold shape. simpl.
    destruct (decide (l = _)) as [->|Hne].
    + by rewrite lookup_insert_eq.
    + by rewrite lookup_insert_ne.
Qed.

Lemma current_commit tx m :
  current (commit tx m).2 =
  match (commit tx m).1 with
  | Some _ => current m
  | None => fresh (dom (objs m))
  end.
Proof.
  destruct (commit tx m).1 as [e|] eqn:He.
  - destruct (commit_err_cases tx m) as [Hn|Hc]; [congruence|].
    by rewrite (commit_conflict_unchanged _ _ Hc).
  - by destruct (commit_ok_store tx m He) as [_ ->].
Qed.

(** The same through [Commit]. *)

Lemma Commit_ok_published tx m :
  (Commit tx m).1.1 = None ↔ published tx m = true.
Proof.
  unfold published. rewrite bool_decide_eq_true.
  destruct (decide (tx_state tx = txActive)) as [Ha|Hn].
  - destruct (tx_ctx tx) as [cause|] eqn:Hc.
    + rewrite (Commit_active_canceled _ _ cause) by done. simpl.
      split; [done|]. by intros (_ & ? & _).
    + rewrite Commit_active_live by done. simpl. tauto.
  - rewrite Commit_inactive by done. simpl. split; [done|tauto].
Qed.

Lemma shape_Commit tx m l :
  shape (Commit tx m).2 l =
  if published tx m then
    if decide (l = fresh (dom (objs m))) then
      Some (wrap64 (nextVersionID m + 1),
            tx_writes tx ∪ ver_data (deref m (current m)))
    else shape m l
  else shape m l.
Proof.
  unfold published.
  destruct (decide (tx_state tx = txActive)) as [Ha|Hn].
  - destruct (tx_ctx tx) as [cause|] eqn:Hc.
    + rewrite (Commit_active_canceled _ _ cause) by done. simpl.
      rewrite bool_decide_eq_false_2 by (by intros (_ & ? & _)).
      apply (shape_refCount_Add _ _ (unregisterTx (tx_id tx) m)).
    + rewrite Commit_active_live by done. simpl.
      rewrite (shape_refCount_Add _ _ (unregisterTx (tx_id tx) _)).
      change (shape (unregisterTx (tx_id tx) ?x) l) with (shape x l).
      rewrite shape_commit.
      destruct (commit (set_state txCommitted tx) m).1 eqn:He.
      * by rewrite bool_decide_eq_false_2 by (by intros (_ & _ & ?)).
      * by rewrite bool_decide_eq_true_2.
  - rewrite Commit_inactive by done.
    by rewrite bool_decide_eq_false_2 by (by intros (? & _)).
Qed.

Lemma current_Commit tx m :
  current (Commit tx m).2 =
  if published tx m then fresh (dom (objs m)) else current m.
Proof.
  unfold published.
  destruct (decide (tx_state tx = txActive)) as [Ha|Hn].
  - destruct (tx_ctx tx) as [cause|] eqn:Hc.
    + rewrite (Commit_active_canceled _ _ cause) by done.
      by rewrite bool_decide_eq_false_2 by (by intros (_ & ? & _)).
    + rewrite Commit_active_live by done. simpl.
      rewrite current_commit.
      destruct (commit (set_state txCommitted tx) m).1 eqn:He.
      * by rewrite bool_decide_eq_false_2 by (by intros (_ & _ & ?)).
      * by rewrite bool_decide_eq_true_2.
  - rewrite Commit_inactive by done.
    by rewrite bool_decide_eq_false_2 by (by intros (? & _)).
Qed.

(** ** What a step does to the transaction handles *)

Lemma evolves_refl tx : evolves tx tx.
Proof. repeat split; auto. Qed.

Lemma evolves_Get k tx m : evolves tx (Get k tx m).2.
Proof.
  destruct (Get_tx_fields k tx m) as (? & ? & ? & _). repeat split; auto.
Qed.

Lemma evolves_Rollback tx m : evolves tx (Rollback tx m).1.
Proof. unfold Rollback. destruct (tx_state tx); repeat split; auto. Qed.

Lemma evolves_Put k v tx m : evolves tx (Put k v tx m).1.2.
Proof.
  unfold Put, checkActive. destruct (decide _) as [Ha|]; [|apply evolves_refl].
  destruct (tx_ctx tx).
  - pose proof (evolves_Rollback tx m). by destruct (Rollback tx m).
  - repeat split; simpl; eauto.
Qed.

Lemma evolves_Commit tx m : evolves tx (Commit tx m).1.2.
Proof.
  unfold Commit. destruct (tx_state tx); try apply evolves_refl.
  simpl. destruct (tx_ctx tx); [repeat split; auto|].
  destruct (commit _ m). repeat split; auto.
Qed.

Lemma evolves_ctxDone cause tx : evolves tx (ctxDone cause tx).
Proof. repeat split; auto. Qed.

Lemma evolves_stamped tx tx' : evolves tx tx' → stamped tx → stamped tx'.
Proof.
  intros (Hid & _ & [Hw | (k & v & _ & Hw)]) Hst k' vv; rewrite Hw, Hid.
  - apply Hst.
  - destruct (decide (k = k')) as [->|Hne].
    + rewrite lookup_insert_eq. by intros [= <-].
    + rewrite lookup_insert_ne by done. apply Hst.
Qed.

(** The effect of one action, handle by handle. *)
Lemma step_onTx h w (f : Tx K V → Tx K V * MVCCMap K V) tx :
  w_txs w !! h = Some tx →
  onTx h w f = mkWorld (f tx).2 (<[h := (f tx).1]> (w_txs w)).
Proof. unfold onTx. intros ->. by destruct (f tx). Qed.

Lemma step_onTx_None h w (f : Tx K V → Tx K V * MVCCMap K V) :
  w_txs w !! h = None → onTx h w f = w.
Proof. unfold onTx. by intros ->. Qed.

Lemma onTx_lookup h w (f : Tx K V → Tx K V * MVCCMap K V) h' :
  w_txs (onTx h w f) !! h' =
  if decide (h = h') then (λ tx, (f tx).1) <$> w_txs w !! h'
  else w_txs w !! h'.
Proof.
  destruct (w_txs w !! h) as [tx|] eqn:Hh.
  - rewrite (step_onTx _ _ _ tx) by done. simpl.
    destruct (decide (h = h')) as [<-|Hne].
    + rewrite Hh. simpl. apply list_lookup_insert_eq. by eapply lookup_lt_Some.
    + by apply list_lookup_insert_ne.
  - rewrite step_onTx_None by done.
    destruct (decide (h = h')) as [<-|Hne]; [|done]. by rewrite Hh.
Qed.


Lemma evolves_txAfter a m tx : evolves tx (txAfter a m tx).
Proof.
  destruct a; simpl; auto using evolves_refl, evolves_Get, evolves_Put,
    evolves_Commit, evolves_Rollback, evolves_ctxDone.
Qed.

Lemma step_txs_lookup w a (h : nat) :
  (h < length (w_txs w))%nat →
  w_txs (step w a) !! h =
  if decide (actsOn a = Some h)
  then txAfter a (w_db w) <$> w_txs w !! h
  else w_txs w !! h.
Proof.
  intros Hlt. destruct a as [pctx|h' key|h' key v|h'|h'|h' cause| |order]; simpl;
    try (rewrite onTx_lookup;
         destruct (decide (h' = h)) as [->|Hne];
         [ rewrite decide_True by done
         | rewrite decide_False by congruence; done ]);
    try done.
  - destruct (BeginTx pctx (w_db w)) as [tx m']. simpl.
    by rewrite lookup_app_l.
  - destruct (w_txs w !! h) as [tx|]; [|done]. simpl.
    by destruct (Put key v tx (w_db w)) as [[? ?] ?].
  - destruct (w_txs w !! h) as [tx|]; [|done]. simpl.
    by destruct (Commit tx (w_db w)) as [[? ?] ?].
Qed.

Lemma step_txs_length w a :
  length (w_txs (step w a)) =
  if isBegin a then S (length (w_txs w)) else length (w_txs w).
Proof.
  destruct a as [pctx|h' key|h' key v|h'|h'|h' cause| |order]; simpl; try done;
    try (unfold onTx; destruct (w_txs w !! h') as [tx|]; [|done]).
  - destruct (BeginTx pctx (w_db w)). simpl. rewrite length_app. simpl. lia.
  - simpl. by rewrite length_insert.
  - destruct (Put key v tx (w_db w)) as [[? ?] ?]. simpl. by rewrite length_insert.
  - destruct (Commit tx (w_db w)) as [[? ?] ?]. simpl. by rewrite length_insert.
  - destruct (Rollback tx (w_db w)). simpl. by rewrite length_insert.
  - simpl. by rewrite length_insert.
Qed.

Lemma step_txs_begin w pctx :
  w_txs (step w (ABegin pctx)) !! length (w_txs w)
  = Some (BeginTx pctx (w_db w)).1.
Proof.
  simpl. destruct (BeginTx pctx (w_db w)) as [tx m']. simpl.
  by apply list_lookup_middle.
Qed.

(** ** What a step does to the store *)

Lemma step_db w a :
  w_db (step w a) =
  match a with
  | ABegin pctx => (BeginTx pctx (w_db w)).2
  | AGet _ _ | ACtxDone _ _ => w_db w
  | APut h key v =>
      match w_txs w !! h with
      | Some tx => (Put key v tx (w_db w)).2
      | None => w_db w
      end
  | ACommit h =>
      match w_txs w !! h with
      | Some tx => (Commit tx (w_db w)).2
      | None => w_db w
      end
  | ARollback h =>
      match w_txs w !! h with
      | Some tx => (Rollback tx (w_db w)).2
      | None => w_db w
      end
  | AGC => collectVersions (w_db w)
  | ADetect order => detectDeadlocks order (w_db w)
  end.
Proof.
  destruct a as [pctx|h' key|h' key v|h'|h'|h' cause| |order]; simpl; try done;
    try (unfold onTx; destruct (w_txs w !! h') as [tx|]; [|done]); try done.
  - by destruct (Put key v tx (w_db w)) as [[? ?] ?].
  - by destruct (Commit tx (w_db w)) as [[? ?] ?].
  - by destruct (Rollback tx (w_db w)).
Qed.

(** A version object, once allocated, keeps its id and its data for ever. *)
Lemma step_shape_old w a l s :
  shape (w_db w) l = Some s → shape (w_db (step w a)) l = Some s.
Proof.
  intros Hs. rewrite step_db.
  destruct a as [pctx|h' key|h' key v|h'|h'|h' cause| |order]; try done.
  - by rewrite shape_BeginTx.
  - destruct (w_txs w !! h'); [|done]. by rewrite shape_Put.
  - destruct (w_txs w !! h') as [tx|]; [|done]. rewrite shape_Commit.
    destruct (published tx (w_db w)); [|done].
    rewrite decide_False; [done|]. intros ->.
    pose proof (is_fresh (dom (objs (w_db w)))) as Hf. apply Hf.
    apply elem_of_dom. unfold shape in Hs.
    destruct (objs (w_db w) !! fresh (dom (objs (w_db w)))); [by eexists|done].
  - destruct (w_txs w !! h'); [|done]. by rewrite shape_Rollback.
  - by rewrite shape_collectVersions.
  - by rewrite shape_detectDeadlocks.
Qed.

Lemma shape_is_Some m l : is_Some (shape m l) ↔ is_Some (objs m !! l).
Proof. unfold shape. by rewrite fmap_is_Some. Qed.

Lemma shape_deref m l id d :
  shape m l = Some (id, d) → ver_id (deref m l) = id ∧ ver_data (deref m l) = d.
Proof.
  unfold shape, deref. destruct (objs m !! l); simpl; [|done]. by intros [= <- <-].
Qed.

Lemma step_alloc_old w a l :
  is_Some (objs (w_db w) !! l) → is_Some (objs (w_db (step w a)) !! l).
Proof.
  rewrite <- !shape_is_Some. intros [s Hs]. exists s. by apply step_shape_old.
Qed.

Lemma step_current_alloc w a :
  is_Some (objs (w_db w) !! current (w_db w)) →
  is_Some (objs (w_db (step w a)) !! current (w_db (step w a))).
Proof.
  intros Hc. pose proof (step_alloc_old w a _ Hc) as Hold.
  rewrite step_db in *.
  destruct a as [pctx|h' key|h' key v|h'|h'|h' cause| |order]; try done.
  - destruct (w_txs w !! h') as [tx|]; [|done].
    unfold Put in *. destruct (checkActive tx); [done|].
    destruct (tx_ctx tx); [|done].
    unfold Rollback in *. by destruct (tx_state tx).
  - destruct (w_txs w !! h') as [tx|]; [|done].
    rewrite current_Commit. destruct (published tx (w_db w)) eqn:Hp; [|done].
    apply shape_is_Some. rewrite shape_Commit, Hp.
    by rewrite decide_True.
  - destruct (w_txs w !! h') as [tx|]; [|done].
    unfold Rollback in *. by destruct (tx_state tx).
  - unfold collectVersions in *. by rewrite collectVersionsFrom_filter in *.
  - by rewrite (proj1 (proj2 (objs_detectDeadlocks order (w_db w)))).
Qed.

(** Every handle of the next world is an old handle that evolved, or the
    transaction just begun. *)
Lemma step_txs_inv w a (h : nat) tx' :
  w_txs (step w a) !! h = Some tx' →
  (∃ tx, w_txs w !! h = Some tx ∧ evolves tx tx'
         ∧ (actsOn a ≠ Some h → tx' = tx))
  ∨ (∃ pctx, a = ABegin pctx ∧ h = length (w_txs w)
             ∧ tx' = (BeginTx pctx (w_db w)).1).
Proof.
  intros Hh. destruct (decide (h < length (w_txs w))%nat) as [Hlt|Hge].
  - left. rewrite step_txs_lookup in Hh by done.
    destruct (decide (actsOn a = Some h)) as [Ha|Hna].
    + destruct (w_txs w !! h) as [tx|]; [|done]. injection Hh as <-.
      exists tx. split; [done|]. split; [apply evolves_txAfter|done].
    + exists tx'. split; [done|]. split; [apply evolves_refl|done].
  - right. apply lookup_lt_Some in Hh as Hlt'. rewrite step_txs_length in Hlt'.
    destruct a as [pctx|h' key|h' key v|h'|h'|h' cause| |order]; simpl in Hlt';
      try lia.
    exists pctx. assert (h = length (w_txs w)) as -> by lia.
    rewrite step_txs_begin in Hh. by injection Hh as <-.
Qed.

Lemma step_Alloc w a : Alloc w → Alloc (step w a).
Proof.
  intros [Hc Htx]. split; [by apply step_current_alloc|].
  intros h tx' Hh. apply step_txs_inv in Hh
    as [(tx & Hold & Hev & _) | (pctx & -> & -> & ->)].
  - destruct (Htx h tx Hold) as [Hs Hst]. split.
    + destruct Hev as (_ & -> & _). by apply step_alloc_old.
    + by eapply evolves_stamped.
  - split; [|intros k vv Hk; simpl in Hk; by rewrite lookup_empty in Hk].
    by apply (step_alloc_old w (ABegin pctx)).
Qed.

Lemma run_snoc w (acts : list (action K V)) a :
  run w (acts ++ [a]) = step (run w acts) a.
Proof. unfold run. by rewrite foldl_app. Qed.

Lemma initWorld_Alloc : Alloc (initWorld : World K V).
Proof.
  split; [by eexists|]. intros h tx Hh. simpl in Hh. by rewrite lookup_nil in Hh.
Qed.

Lemma run_Alloc w (acts : list (action K V)) : Alloc w → Alloc (run w acts).
Proof.
  intros Hw. induction acts as [|a acts IH] using rev_ind; [done|].
  rewrite run_snoc. by apply step_Alloc.
Qed.

Lemma step_txs_old w a (h : nat) tx :
  w_txs w !! h = Some tx →
  ∃ tx', w_txs (step w a) !! h = Some tx' ∧ evolves tx tx'
         ∧ (actsOn a ≠ Some h → tx' = tx).
Proof.
  intros Hh. apply lookup_lt_Some in Hh as Hlt.
  rewrite step_txs_lookup by done. rewrite Hh.
  destruct (decide (actsOn a = Some h)).
  - eexists. split; [done|]. split; [apply evolves_txAfter|done].
  - exists tx. split; [done|]. split; [apply evolves_refl|done].
Qed.

(** ** A snapshot is pinned: pointer, id and data never change *)

Lemma step_pinned w a (h : nat) tx s :
  w_txs w !! h = Some tx → shape (w_db w) (tx_snapshot tx) = Some s →
  ∃ tx', w_txs (step w a) !! h = Some tx'
         ∧ evolves tx tx'
         ∧ shape (w_db (step w a)) (tx_snapshot tx') = Some s.
Proof.
  intros Hh Hs. destruct (step_txs_old w a h tx Hh) as (tx' & Hh' & Hev & _).
  exists tx'. split; [done|]. split; [done|].
  destruct Hev as (_ & -> & _). by apply step_shape_old.
Qed.

Lemma run_pinned w (acts : list (action K V)) (h : nat) tx s :
  w_txs w !! h = Some tx → shape (w_db w) (tx_snapshot tx) = Some s →
  ∃ tx', w_txs (run w acts) !! h = Some tx'
         ∧ tx_id tx' = tx_id tx
         ∧ tx_snapshot tx' = tx_snapshot tx
         ∧ shape (w_db (run w acts)) (tx_snapshot tx') = Some s.
Proof.
  intros Hh Hs. induction acts as [|a acts IH] using rev_ind.
  - by exists tx.
  - destruct IH as (tx1 & Hh1 & Hid & Hsn & Hs1). rewrite run_snoc.
    destruct (step_pinned _ a h tx1 s Hh1 Hs1) as (tx2 & Hh2 & Hev & Hs2).
    exists tx2. destruct Hev as (Hid2 & Hsn2 & _).
    repeat split; [done|congruence..|done].
Qed.

(** Actions of other clients and of the background tasks leave a handle
    alone. *)
Lemma run_others w (acts : list (action K V)) (h : nat) tx :
  w_txs w !! h = Some tx →
  Forall (λ a, actsOn a ≠ Some h) acts →
  w_txs (run w acts) !! h = Some tx.
Proof.
  intros Hh Hacts. induction acts as [|a acts IH] using rev_ind; [done|].
  apply Forall_app in Hacts as [Hacts Ha]. apply Forall_inv in Ha.
  rewrite run_snoc.
  destruct (step_txs_old _ a h tx (IH Hacts)) as (tx' & Hh' & _ & Heq).
  by rewrite Hh', (Heq Ha).
Qed.

(** ** Where new version objects come from *)

Lemma step_shape_cases w a l s :
  shape (w_db (step w a)) l = Some s →
  shape (w_db w) l = Some s
  ∨ ∃ (h : nat) tx,
      a = ACommit h ∧ w_txs w !! h = Some tx
      ∧ published tx (w_db w) = true
      ∧ s = (wrap64 (nextVersionID (w_db w) + 1),
             tx_writes tx ∪ ver_data (deref (w_db w) (current (w_db w)))).
Proof.
  rewrite step_db.
  destruct a as [pctx|h' key|h' key v|h'|h'|h' cause| |order]; auto.
  - rewrite shape_BeginTx. auto.
  - destruct (w_txs w !! h'); [|auto]. rewrite shape_Put. auto.
  - destruct (w_txs w !! h') as [tx|] eqn:Hh; [|auto]. rewrite shape_Commit.
    destruct (published tx (w_db w)) eqn:Hp; [|auto].
    destruct (decide _); [|auto]. intros [= <-]. right. by exists h', tx.
  - destruct (w_txs w !! h'); [|auto]. rewrite shape_Rollback. auto.
  - rewrite shape_collectVersions. auto.
  - rewrite shape_detectDeadlocks. auto.
Qed.

Lemma objs_shape m l ver :
  objs m !! l = Some ver → shape m l = Some (ver_id ver, ver_data ver).
Proof. unfold shape. by intros ->. Qed.

Lemma shape_objs m l id d :
  shape m l = Some (id, d) →
  ∃ ver, objs m !! l = Some ver ∧ ver_id ver = id ∧ ver_data ver = d.
Proof.
  unfold shape. destruct (objs m !! l) as [ver|]; [|done].
  intros [= <- <-]. by exists ver.
Qed.

(** ** Transaction ids and writer ids, while the counter has not wrapped *)

Lemma step_nextTxID w a :
  nextTxID (w_db (step w a)) =
  if isBegin a then wrap64 (nextTxID (w_db w) + 1) else nextTxID (w_db w).
Proof.
  rewrite step_db.
  destruct a as [pctx|h' key|h' key v|h'|h'|h' cause| |order]; simpl; try done.
  - destruct (w_txs w !! h') as [tx|]; [|done].
    unfold Put. destruct (checkActive tx); [done|].
    destruct (tx_ctx tx); [|done]. unfold Rollback. by destruct (tx_state tx).
  - destruct (w_txs w !! h') as [tx|]; [|done].
    unfold Commit. destruct (tx_state tx); try done.
    destruct (tx_ctx (set_state txCommitted tx)); [done|].
    unfold commit. by destruct (existsb _ _).
  - destruct (w_txs w !! h') as [tx|]; [|done].
    unfold Rollback. by destruct (tx_state tx).
  - unfold collectVersions. by rewrite collectVersionsFrom_filter.
  - apply objs_detectDeadlocks.
Qed.

Lemma wrap64_small x : 0 ≤ x < 2 ^ 64 → wrap64 x = x.
Proof. intros Hx. unfold wrap64. by apply Z.mod_small. Qed.

Lemma step_Ids n w a :
  Alloc w → Ids n w →
  n + (if isBegin a then 1 else 0) < 2 ^ 64 →
  Ids (n + (if isBegin a then 1 else 0)) (step w a).
Proof.
  intros [Hcur Htxs] (Hn & Hnext & Hids & Hent) Hbound.
  split; [destruct (isBegin a); lia|]. split; [|split].
  - rewrite step_nextTxID, Hnext. destruct (isBegin a); [|lia].
    apply wrap64_small. lia.
  - intros h tx' Hh. apply step_txs_inv in Hh
      as [(tx & Hold & (-> & _) & _) | (pctx & -> & -> & ->)].
    + by apply (Hids h).
    + simpl. rewrite Hnext, wrap64_small by (simpl in Hbound; lia). lia.
  - intros l ver k vv Hl Hk. apply objs_shape, step_shape_cases in Hl
      as [Hold | (h & tx & -> & Hh & _ & [= _ Hd])].
    + apply shape_objs in Hold as (ver0 & Hl0 & _ & Hd).
      apply (Hent l ver0 k vv Hl0). by rewrite Hd.
    + rewrite Hd in Hk. apply lookup_union_Some_raw in Hk as [Hw | [_ Hc]].
      * destruct (Htxs h tx Hh) as [_ Hst]. rewrite (Hst k vv Hw).
        by apply (Hids h).
      * unfold deref in Hc.
        destruct (objs (w_db w) !! current (w_db w)) as [cur|] eqn:Hc0;
          simpl in Hc; [|by rewrite lookup_empty in Hc].
        by apply (Hent _ cur k vv Hc0).
Qed.

Lemma begins_snoc (acts : list (action K V)) a :
  begins (acts ++ [a]) = begins acts + (if isBegin a then 1 else 0).
Proof.
  unfold begins. rewrite List.filter_app, length_app. simpl.
  destruct (isBegin a); simpl; lia.
Qed.

Lemma begins_nonneg (acts : list (action K V)) : 0 ≤ begins acts.
Proof. unfold begins. lia. Qed.

Lemma initWorld_Ids : Ids 0 (initWorld : World K V).
Proof.
  split; [done|]. split; [done|]. split.
  - intros h tx Hh. simpl in Hh. by rewrite lookup_nil in Hh.
  - intros l ver k vv Hl Hk. simpl in Hl.
    apply lookup_singleton_Some in Hl as [_ <-]. simpl in Hk.
    by rewrite lookup_empty in Hk.
Qed.

Lemma run_Ids (acts : list (action K V)) :
  begins acts < 2 ^ 64 → Ids (begins acts) (run initWorld acts).
Proof.
  induction acts as [|a acts IH] using rev_ind; intros Hb.
  - apply initWorld_Ids.
  - rewrite begins_snoc in *. rewrite run_snoc.
    apply step_Ids; [apply run_Alloc, initWorld_Alloc| |done].
    apply IH. destruct (isBegin a); lia.
Qed.

(** ** Before the first commit every version object is empty *)

Lemma run_no_commit_empty (acts : list (action K V)) l ver :
  Forall (λ a, isCommit a = false) acts →
  objs (w_db (run initWorld acts)) !! l = Some ver → ver_data ver = ∅.
Proof.
  revert l ver. induction acts as [|a acts IH] using rev_ind; intros l ver Hnc Hl.
  - simpl in Hl. by apply lookup_singleton_Some in Hl as [_ <-].
  - apply Forall_app in Hnc as [Hnc Ha]. apply Forall_inv in Ha.
    rewrite run_snoc in Hl.
    apply objs_shape, step_shape_cases in Hl
      as [Hold | (h & tx & -> & _)]; [|done].
    apply shape_objs in Hold as (ver0 & Hl0 & _ & <-). by apply (IH l).
Qed.

End WorldSteps.

Section ClaimsOnWorlds.
Context {K : Type} `{Countable K} {V : Type}.
Implicit Types (m : MVCCMap K V) (tx : Tx K V) (k : K) (v : V).
Implicit Types (w : World K V) (a : action K V) (l : loc).

(** C5.  Let a transaction begin in any reachable world [w0], and let any
    actions follow: its own, those of other transactions (their commits
    included), reclaimer and detector ticks.  Then [Get] on its handle, if
    the transaction is still active, returns the buffered write for the key
    when there is one, otherwise the entry of its snapshot, otherwise
    absent; the snapshot's data is still the data of the version that was
    current when the transaction began, and every buffered write carries the
    transaction's own id, so nothing committed by others since is ever
    returned.  A transaction that is no longer active gets absent, and [Get]
    has no error result. *)
Theorem C5_Get_snapshot_isolation
    (acts0 : list (action K V)) pctx (acts : list (action K V)) k :
  let w0 := run initWorld acts0 in
  let h := length (w_txs w0) in
  let w := run (step w0 (ABegin pctx)) acts in
  ∃ tx,
    w_txs w !! h = Some tx
    ∧ ver_data (deref (w_db w) (tx_snapshot tx))
      = ver_data (deref (w_db w0) (current (w_db w0)))
    ∧ stamped tx
    ∧ (tx_state tx ≠ txActive → Get k tx (w_db w) = (None, tx))
    ∧ (tx_state tx = txActive →
       (Get k tx (w_db w)).1 =
       match tx_writes tx !! k with
       | Some vv => Some (value vv)
       | None =>
           match ver_data (deref (w_db w0) (current (w_db w0))) !! k with
           | Some vv => Some (value vv)
           | None => None
           end
       end).
Proof.
  intros w0 h w.
  assert (Alloc w0) as [Hcur0 _] by apply run_Alloc, initWorld_Alloc.
  destruct Hcur0 as [cur Hcur].
  pose proof (step_txs_begin w0 pctx) as Hb. fold h in Hb.
  pose proof (objs_shape _ _ _ Hcur) as Hs0.
  pose proof (step_shape_old w0 (ABegin pctx) _ _ Hs0) as Hs1.
  destruct (run_pinned (step w0 (ABegin pctx)) acts h _ _ Hb Hs1)
    as (tx & Hh & _ & Hsn & Hs).
  fold w in Hh, Hs. exists tx.
  assert (ver_data (deref (w_db w) (tx_snapshot tx))
          = ver_data (deref (w_db w0) (current (w_db w0)))) as Hdata.
  { apply shape_deref in Hs as [_ ->]. unfold deref. by rewrite Hcur. }
  assert (Alloc w) as [_ Htxs]
    by (apply run_Alloc, step_Alloc, run_Alloc, initWorld_Alloc).
  split; [done|]. split; [done|].
  split; [by apply (Htxs h)|].
  split; [apply Get_inactive|].
  intros Ha. by rewrite Get_active_value, Hdata.
Qed.

(** Between two of its own operations a transaction reads the same values,
    whatever the others do meanwhile (repeatable read). *)
Lemma Get_stable_under_others
    (acts0 acts : list (action K V)) (h : nat) tx k :
  w_txs (run initWorld acts0) !! h = Some tx →
  Forall (λ a, actsOn a ≠ Some h) acts →
  w_txs (run (run initWorld acts0) acts) !! h = Some tx
  ∧ (Get k tx (w_db (run (run initWorld acts0) acts))).1
    = (Get k tx (w_db (run initWorld acts0))).1.
Proof.
  intros Hh Hothers. set (w := run initWorld acts0) in *.
  assert (Alloc w) as [_ Htxs] by apply run_Alloc, initWorld_Alloc.
  destruct (Htxs h tx Hh) as [[ver Hver] _].
  pose proof (run_others w acts h tx Hh Hothers) as Hh'.
  split; [done|].
  destruct (run_pinned w acts h tx _ Hh (objs_shape _ _ _ Hver))
    as (tx' & Hh2 & _ & _ & Hs).
  rewrite Hh' in Hh2. injection Hh2 as <-.
  destruct (decide (tx_state tx = txActive)) as [Ha|Hn].
  - rewrite !Get_active_value by done.
    apply shape_deref in Hs as [_ ->]. unfold deref. by rewrite Hver.
  - by rewrite !Get_inactive.
Qed.

(** C9.  In any reachable world, a [Commit] that succeeds publishes a
    fresh version object as current and appends it to the versions list; its
    id is the next version id, its reference count 0, and its map is the
    previous current map overlaid with the write set: every key of the write
    set maps to the buffered entry, which carries the committing
    transaction's id as writer, and every other key maps to what the
    previous current version has for it.  The previous version keeps its id
    and its data. *)
Theorem C9_commit_publishes (acts : list (action K V)) (h : nat) tx :
  let m := w_db (run initWorld acts) in
  let m' := (Commit tx m).2 in
  let old := deref m (current m) in
  let new := deref m' (current m') in
  w_txs (run initWorld acts) !! h = Some tx →
  (Commit tx m).1.1 = None →
  objs m !! current m' = None
  ∧ versions m' = versions m ++ [current m']
  ∧ ver_id new = wrap64 (nextVersionID m + 1)
  ∧ ver_refCount new = 0
  ∧ ver_data new = tx_writes tx ∪ clone old
  ∧ (∀ k vv, tx_writes tx !! k = Some vv →
             ver_data new !! k = Some vv ∧ writerTxID vv = tx_id tx)
  ∧ (∀ k, tx_writes tx !! k = None → ver_data new !! k = ver_data old !! k)
  ∧ ver_id (deref m' (current m)) = ver_id old
  ∧ ver_data (deref m' (current m)) = ver_data old.
Proof.
  intros m m' old new Hh Hok.
  assert (Alloc (run initWorld acts)) as [Hcur Htxs]
    by apply run_Alloc, initWorld_Alloc.
  destruct (Htxs h tx Hh) as [[snap Hsnap] Hst]. fold m in Hcur, Hsnap.
  pose proof (proj1 (Commit_ok_published tx m) Hok) as Hpub.
  pose proof Hpub as Hp. unfold published in Hp.
  apply bool_decide_eq_true in Hp as (Ha & Hc & Hcm).
  destruct (commit_ok_store _ _ Hcm) as [Hfresh Hstore]. simpl in Hfresh, Hstore.
  set (lnew := fresh (dom (objs m))) in *.
  assert (tx_snapshot tx ≠ lnew) as Hne by (intros Heq; congruence).
  assert (m' = refCount_Add (tx_snapshot tx) (-1)
                 (unregisterTx (tx_id tx) (commit (set_state txCommitted tx) m).2))
    as Hm'.
  { unfold m'. by rewrite Commit_active_live. }
  assert (current m' = lnew) as Hcur'.
  { rewrite Hm'. simpl. by rewrite Hstore. }
  assert (objs m' !! lnew
          = Some (newVersion (wrap64 (nextVersionID m + 1))
                             (tx_writes tx ∪ ver_data old))) as Hnew.
  { rewrite Hm', refCount_Add_lookup, decide_False by done.
    simpl. rewrite Hstore. simpl. by rewrite lookup_insert_eq. }
  assert (ver_data new = tx_writes tx ∪ ver_data old) as Hdata.
  { unfold new, deref. by rewrite Hcur', Hnew. }
  rewrite Hcur'. split; [done|]. split.
  { rewrite Hm'. simpl. by rewrite Hstore. }
  split; [unfold new, deref; by rewrite Hcur', Hnew|].
  split; [unfold new, deref; by rewrite Hcur', Hnew|].
  split; [done|]. split; [|split].
  - intros k vv Hk. split; [|by apply (Hst k)].
    rewrite Hdata. by apply lookup_union_Some_l.
  - intros k Hk. rewrite Hdata. by apply lookup_union_r.
  - destruct Hcur as [cur Hc0].
    assert (shape m' (current m) = Some (ver_id cur, ver_data cur)) as Hs.
    { unfold m'. rewrite shape_Commit, Hpub.
      rewrite decide_False by (fold lnew; intros Heq; congruence).
      by apply objs_shape. }
    apply shape_deref in Hs as [-> ->]. unfold old, deref. by rewrite Hc0.
Qed.

(** C10 (as amended).  A freshly created store holds exactly one version,
    with id 0 and an empty map, so its version count is 1.  Before the first
    commit a [Get] returns absent for every key the transaction has not
    itself put (and the buffered value for a key it has).  The first
    transaction gets id 1, and as long as fewer than 2^64 transactions have
    been begun every entry of every version object carries a writer id of at
    least 1. *)
Theorem C10_fresh_store :
  (versions (NewMVCCMap : MVCCMap K V) = [0%nat]
   ∧ objs (NewMVCCMap : MVCCMap K V) = {[ 0%nat := newVersion 0 ∅ ]}
   ∧ current (NewMVCCMap : MVCCMap K V) = 0%nat
   ∧ VersionCount (NewMVCCMap : MVCCMap K V) = 1%nat)
  ∧ (∀ (acts : list (action K V)) (h : nat) tx k,
       Forall (λ a, isCommit a = false) acts →
       w_txs (run initWorld acts) !! h = Some tx →
       (Get k tx (w_db (run initWorld acts))).1 =
       if decide (tx_state tx = txActive)
       then value <$> tx_writes tx !! k else None)
  ∧ (∀ pctx, tx_id (BeginTx pctx (NewMVCCMap : MVCCMap K V)).1 = 1)
  ∧ (∀ (acts : list (action K V)) l ver k vv,
       begins acts < 2 ^ 64 →
       objs (w_db (run initWorld acts)) !! l = Some ver →
       ver_data ver !! k = Some vv →
       1 ≤ writerTxID vv).
Proof.
  split; [done|]. split; [|split; [done|]].
  - intros acts h tx k Hnc Hh. destruct (decide _) as [Ha|Hn].
    + rewrite Get_active_value by done.
      destruct (tx_writes tx !! k); [done|]. unfold deref.
      destruct (objs _ !! tx_snapshot tx) as [ver|] eqn:Hs; simpl.
      * rewrite (run_no_commit_empty acts _ ver Hnc Hs). by rewrite lookup_empty.
      * by rewrite lookup_empty.
    + by rewrite Get_inactive.
  - intros acts l ver k vv Hb Hl Hk.
    destruct (run_Ids acts Hb) as (_ & _ & _ & Hent). by apply (Hent l ver k vv).
Qed.

End ClaimsOnWorlds.

Section GuardsOnReachableWorlds.
Context {K : Type} `{Countable K} {V : Type}.
Implicit Types (m : MVCCMap K V) (tx : Tx K V) (k : K) (v : V).
Implicit Types (w : World K V) (a : action K V) (l : loc).

Lemma publishes_isCommit w a : publishes w a = true → isCommit a = true.
Proof. by destruct a. Qed.

Lemma step_shape_pub w a :
  ∃ d, ∀ l,
    shape (w_db (step w a)) l =
    if publishes w a && bool_decide (l = fresh (dom (objs (w_db w))))
    then Some (wrap64 (nextVersionID (w_db w) + 1), d)
    else shape (w_db w) l.
Proof.
  destruct a as [pctx|h' key|h' key v|h'|h'|h' cause| |order].
  - exists ∅. intros l. rewrite step_db. apply shape_BeginTx.
  - exists ∅. intros l. by rewrite step_db.
  - exists ∅. intros l. rewrite step_db. cbn [publishes andb].
    destruct (w_txs w !! h'); [apply shape_Put|done].
  - destruct (w_txs w !! h') as [tx|] eqn:Hh.
    + exists (tx_writes tx ∪ ver_data (deref (w_db w) (current (w_db w)))).
      intros l. rewrite step_db. cbn [publishes]. rewrite Hh, shape_Commit.
      destruct (published tx (w_db w)); [|done]. cbn [andb].
      destruct (decide _) as [->|Hne].
      * by rewrite bool_decide_eq_true_2.
      * by rewrite bool_decide_eq_false_2.
    + exists ∅. intros l. rewrite step_db. cbn [publishes]. by rewrite Hh.
  - exists ∅. intros l. rewrite step_db. cbn [publishes andb].
    destruct (w_txs w !! h'); [apply shape_Rollback|done].
  - exists ∅. intros l. by rewrite step_db.
  - exists ∅. intros l. rewrite step_db. apply shape_collectVersions.
  - exists ∅. intros l. rewrite step_db. apply shape_detectDeadlocks.
Qed.

Lemma step_current w a :
  current (w_db (step w a)) =
  if publishes w a then fresh (dom (objs (w_db w))) else current (w_db w).
Proof.
  rewrite step_db.
  destruct a as [pctx|h' key|h' key v|h'|h'|h' cause| |order]; simpl; try done.
  - destruct (w_txs w !! h') as [tx|]; [|done].
    unfold Put. destruct (checkActive tx); [done|].
    destruct (tx_ctx tx); [|done]. unfold Rollback. by destruct (tx_state tx).
  - destruct (w_txs w !! h') as [tx|]; [|done]. apply current_Commit.
  - destruct (w_txs w !! h') as [tx|]; [|done].
    unfold Rollback. by destruct (tx_state tx).
  - unfold collectVersions. by rewrite collectVersionsFrom_filter.
  - apply objs_detectDeadlocks.
Qed.

Lemma nextVersionID_Commit tx m :
  nextVersionID (Commit tx m).2 =
  if published tx m then wrap64 (nextVersionID m + 1) else nextVersionID m.
Proof.
  unfold published.
  destruct (decide (tx_state tx = txActive)) as [Ha|Hn].
  - destruct (tx_ctx tx) as [cause|] eqn:Hc.
    + rewrite (Commit_active_canceled _ _ cause) by done.
      by rewrite bool_decide_eq_false_2 by (by intros (_ & ? & _)).
    + rewrite Commit_active_live by done. simpl.
      destruct (commit (set_state txCommitted tx) m).1 eqn:He.
      * rewrite bool_decide_eq_false_2 by (by intros (_ & _ & ?)).
        destruct (commit_err_cases (set_state txCommitted tx) m) as [?|Hcf];
          [congruence|].
        by rewrite (commit_conflict_unchanged _ _ Hcf).
      * rewrite bool_decide_eq_true_2 by done.
        by destruct (commit_ok_store _ _ He) as [_ ->].
  - rewrite Commit_inactive by done.
    by rewrite bool_decide_eq_false_2 by (by intros (? & _)).
Qed.

Lemma step_nextVersionID w a :
  nextVersionID (w_db (step w a)) =
  if publishes w a then wrap64 (nextVersionID (w_db w) + 1)
  else nextVersionID (w_db w).
Proof.
  rewrite step_db.
  destruct a as [pctx|h' key|h' key v|h'|h'|h' cause| |order]; simpl; try done.
  - destruct (w_txs w !! h') as [tx|]; [|done].
    unfold Put. destruct (checkActive tx); [done|].
    destruct (tx_ctx tx); [|done]. unfold Rollback. by destruct (tx_state tx).
  - destruct (w_txs w !! h') as [tx|]; [|done]. apply nextVersionID_Commit.
  - destruct (w_txs w !! h') as [tx|]; [|done].
    unfold Rollback. by destruct (tx_state tx).
  - unfold collectVersions. by rewrite collectVersionsFrom_filter.
  - apply objs_detectDeadlocks.
Qed.

Lemma shape_fresh m : shape m (fresh (dom (objs m))) = None.
Proof.
  unfold shape. rewrite (proj1 (not_elem_of_dom _ _)); [done|apply is_fresh].
Qed.

Lemma step_VersionIds c w a :
  VersionIds c w →
  c + (if isCommit a then 1 else 0) < 2 ^ 64 →
  VersionIds (c + (if isCommit a then 1 else 0)) (step w a).
Proof.
  intros (n & Hn & Hnext & Hbound & Hinj & (dc & Hcur)) Hc.
  destruct (step_shape_pub w a) as (d & Hshape).
  pose proof (shape_fresh (w_db w)) as Hfresh.
  destruct (publishes w a) eqn:Hp.
  - rewrite (publishes_isCommit _ _ Hp) in *.
    assert (wrap64 (n + 1) = n + 1) as Hwrap by (apply wrap64_small; lia).
    exists (n + 1). split; [lia|]. split; [|split; [|split]].
    + by rewrite step_nextVersionID, Hp, Hnext.
    + intros l id d' Hl. rewrite Hshape in Hl. simpl in Hl.
      destruct (bool_decide _).
      * injection Hl as <- _. rewrite Hnext, Hwrap. lia.
      * apply Hbound in Hl. lia.
    + intros l l' id d1 d2 Hl Hl'. rewrite Hshape in Hl, Hl'. simpl in Hl, Hl'.
      destruct (bool_decide (l = _)) eqn:E1, (bool_decide (l' = _)) eqn:E2.
      * apply bool_decide_eq_true in E1, E2. congruence.
      * injection Hl as <- _. apply Hbound in Hl'. rewrite Hnext, Hwrap in Hl'. lia.
      * injection Hl' as <- _. apply Hbound in Hl. rewrite Hnext, Hwrap in Hl. lia.
      * by eapply Hinj.
    + exists d. rewrite step_current, Hp, Hshape. simpl.
      rewrite bool_decide_eq_true_2 by done. by rewrite Hnext, Hwrap.
  - simpl in Hshape.
    exists n. split; [destruct (isCommit a); lia|]. split; [|split; [|split]].
    + by rewrite step_nextVersionID, Hp.
    + intros l id d' Hl. rewrite Hshape in Hl. by eapply Hbound.
    + intros l l' id d1 d2 Hl Hl'. rewrite Hshape in Hl, Hl'. by eapply Hinj.
    + exists dc. by rewrite step_current, Hp, Hshape.
Qed.

Lemma commits_snoc (acts : list (action K V)) a :
  commits (acts ++ [a]) = commits acts + (if isCommit a then 1 else 0).
Proof.
  unfold commits. rewrite List.filter_app, length_app. simpl.
  destruct (isCommit a); simpl; lia.
Qed.

Lemma run_VersionIds (acts : list (action K V)) :
  commits acts < 2 ^ 64 → VersionIds (commits acts) (run initWorld acts).
Proof.
  induction acts as [|a acts IH] using rev_ind; intros Hb.
  - exists 0. split; [done|]. split; [done|]. split; [|split].
    + intros l id d Hl. apply shape_objs in Hl as (ver & Hv & <- & _).
      simpl in Hv. by apply lookup_singleton_Some in Hv as [_ <-].
    + intros l l' id d d' Hl Hl'.
      apply shape_objs in Hl as (ver & Hv & _).
      apply shape_objs in Hl' as (ver' & Hv' & _). simpl in Hv, Hv'.
      apply lookup_singleton_Some in Hv as [<- _].
      by apply lookup_singleton_Some in Hv' as [<- _].
    + by exists ∅.
  - rewrite commits_snoc in *. rewrite run_snoc.
    apply step_VersionIds; [|done]. apply IH. destruct (isCommit a); lia.
Qed.

(** In every world reached before either 64-bit counter wraps, the two
    guards of the conflict check are redundant: for every transaction handle
    and every key the code's predicate is the specification's. *)
Lemma reachable_conflict_agrees (acts : list (action K V)) (h : nat) tx k :
  begins acts < 2 ^ 64 → commits acts < 2 ^ 64 →
  w_txs (run initWorld acts) !! h = Some tx →
  let m := w_db (run initWorld acts) in
  conflictOn (deref m (current m)) (deref m (tx_snapshot tx)) k
  = spec_conflictOn (deref m (current m)) (deref m (tx_snapshot tx)) k.
Proof.
  intros Hb Hc Hh m.
  destruct (run_VersionIds acts Hc) as (n & _ & _ & Hbound & Hinj & (dc & Hcur)).
  destruct (run_Ids acts Hb) as (_ & _ & _ & Hent).
  assert (Alloc (run initWorld acts)) as [_ Htxs]
    by apply run_Alloc, initWorld_Alloc.
  destruct (Htxs h tx Hh) as [[snap Hsnap] _]. fold m in Hcur, Hsnap, Hbound, Hinj, Hent.
  destruct (decide (tx_snapshot tx = current m)) as [Heq|Hne].
  - rewrite Heq. unfold conflictOn, spec_conflictOn.
    destruct (ver_data (deref m (current m)) !! k) as [cv|]; [|done].
    rewrite Z.eqb_refl. simpl.
    destruct (Z.gtb_spec (ver_id (deref m (current m)))
                         (ver_id (deref m (current m)))); [lia|].
    by rewrite andb_false_r.
  - pose proof (objs_shape _ _ _ Hsnap) as Hs.
    apply conflictOn_spec_agree.
    + apply shape_deref in Hcur as Hc'. destruct Hc' as [-> _].
      apply shape_deref in Hs as Hs'. destruct Hs' as [-> _].
      pose proof (Hbound _ _ _ Hs) as Hle.
      destruct (decide (ver_id snap = n)) as [Hid|Hid]; [|lia].
      exfalso. apply Hne. rewrite Hid in Hs. by eapply Hinj.
    + intros cv Hk. apply shape_objs in Hcur as (cur & Hcur' & _ & Hd).
      unfold deref in Hk. rewrite Hcur' in Hk. simpl in Hk.
      pose proof (Hent _ cur k cv Hcur' Hk). lia.
Qed.

End GuardsOnReachableWorlds.

Section Detector.

(** ** The closure [dfs] always returns *)

Lemma dfs_total fuel (graph : gmap Z Z) :
  ∀ id st,
    (size (dom graph ∖ visited st) < fuel)%nat →
    ∃ r st', dfs fuel graph id st = Some (r, st')
             ∧ visited st ⊆ visited st'.
Proof.
  induction fuel as [|fuel IH]; intros id st Hsz; [lia|]. simpl.
  destruct (decide (id ∈ inStack st)); [by eexists _, _|].
  destruct (decide (id ∈ visited st)) as [|Hnv]; [by eexists _, _|].
  destruct (graph !! id) as [next|] eqn:Hg.
  - destruct (IH next (mkDfs ({[id]} ∪ visited st) ({[id]} ∪ inStack st)))
      as (r & st' & -> & Hsub).
    { simpl. assert (dom graph ∖ ({[id]} ∪ visited st) ⊂ dom graph ∖ visited st)
        as Hlt; [|apply subset_size in Hlt; lia].
      assert (id ∈ dom graph) as Hdom by (apply elem_of_dom; by eexists).
      set_solver. }
    simpl in Hsub. destruct r as [cycle|]; eexists _, _; split; try done;
      simpl; set_solver.
  - eexists _, _. split; [done|]. simpl. set_solver.
Qed.

Lemma detectLoop_total fuel (graph : gmap Z Z) order :
  ∀ st, (size (dom graph ∖ visited st) < fuel)%nat →
        is_Some (detectLoop fuel graph order st).
Proof.
  induction order as [|id order IH]; intros st Hsz; simpl; [by eexists|].
  destruct (decide (id ∈ visited st)); [by apply IH|].
  destruct (dfs_total fuel graph id st Hsz) as (r & st' & -> & Hsub).
  destruct r as [cycle|]; [by eexists|]. apply IH.
  assert (size (dom graph ∖ visited st') ≤ size (dom graph ∖ visited st))%nat
    as Hle by (apply subseteq_size; set_solver).
  lia.
Qed.

(** The fuel given by [findCycle] is enough: the detector's loop always
    runs to completion. *)
Lemma findCycle_total {K : Type} `{Countable K} {V : Type}
    order (m : MVCCMap K V) :
  detectLoop (S (size (waitForGraph m))) (waitForGraph m) order (mkDfs ∅ ∅)
  = Some (findCycle order m).
Proof.
  unfold findCycle.
  destruct (detectLoop_total (S (size (waitForGraph m))) (waitForGraph m)
              order (mkDfs ∅ ∅)) as [r ->]; [|done].
  simpl. rewrite difference_empty_L, size_dom. lia.
Qed.

(** ** The victim is the largest id of the list handed over *)

Lemma pickVictim_foldl (cycle : list Z) (z0 : Z) :
  foldl (λ victim id, if id >? victim then id else victim) z0 cycle
  = foldr Z.max z0 cycle.
Proof.
  revert z0. induction cycle as [|id cycle IH]; intros z0; simpl; [done|].
  rewrite IH. clear IH. revert z0.
  induction cycle as [|x cycle IH]; intros z0; simpl.
  - destruct (Z.gtb_spec id z0); lia.
  - rewrite IH. lia.
Qed.

Lemma pickVictim_upper (cycle : list Z) id :
  id ∈ cycle → id ≤ pickVictim cycle.
Proof.
  unfold pickVictim. rewrite pickVictim_foldl.
  induction cycle as [|x cycle IH]; simpl; [by intros ?%elem_of_nil|].
  intros [->|Hin]%elem_of_cons; [lia|]. specialize (IH Hin). lia.
Qed.

Lemma pickVictim_member (cycle : list Z) :
  pickVictim cycle ∈ cycle ∨ pickVictim cycle = 0.
Proof.
  unfold pickVictim. rewrite pickVictim_foldl.
  induction cycle as [|x cycle IH]; simpl; [by right|].
  destruct (Z.max_spec x (foldr Z.max 0 cycle)) as [[_ ->]|[_ ->]].
  - destruct IH as [IH| ->]; [left; by apply elem_of_cons; right|by right].
  - left. by apply elem_of_cons; left.
Qed.

End Detector.

(** * Concrete runs *)

Section CounterWraps.
Context {K : Type} `{Countable K} {V : Type}.

Lemma wrap64_succ_idemp x : wrap64 (wrap64 x + 1) = wrap64 (x + 1).
Proof. unfold wrap64. by rewrite Zplus_mod_idemp_l. Qed.

(** Beginning and rolling back a transaction on an idle store only advances
    the transaction counter. *)
Lemma churn_idleStore (t : Z) :
  churn (idleStore t : MVCCMap K V) = idleStore (wrap64 (t + 1)).
Proof.
  unfold churn, idleStore, BeginTx, Rollback, refCount_Add, unregisterTx.
  simpl. f_equal.
  by rewrite delete_insert_eq, delete_empty.
Qed.

Lemma churn_iter (n : N) :
  N.iter n churn (NewMVCCMap : MVCCMap K V) = idleStore (wrap64 (Z.of_N n)).
Proof.
  induction n as [|n IH] using N.peano_ind; [done|].
  rewrite N.iter_succ, IH, churn_idleStore, wrap64_succ_idemp.
  by rewrite N2Z.inj_succ.
Qed.

End CounterWraps.

(** ** The commit critical section on concrete stores *)

(** C1, the claim as stated fails.  First store: the current version (id
    1) holds an entry for ["k"] whose writer id is 0, the snapshot (id 0) has
    no entry for ["k"], and the transaction writes ["k"]; the
    specification's predicate signals a conflict, the critical section does
    not, because the entry's writer id is 0.  Second store: the entry's
    writer id is 1 and the snapshot still has no entry, but the current
    version's id is not greater than the snapshot's; again the
    specification's predicate signals a conflict and the critical section
    does not. *)
Lemma C1_spec_predicate_counterexample :
  (let m := Examples.zeroWriterStore in
   let tx := Examples.writerOfK 1 in
   tx_writes tx !! "k" = Some (mkVV 9 1)
   ∧ ver_data (deref m (current m)) !! "k" = Some (mkVV 7 0)
   ∧ ver_data (deref m (tx_snapshot tx)) !! "k" = None
   ∧ spec_conflictOn (deref m (current m)) (deref m (tx_snapshot tx)) "k" = true
   ∧ conflictOn (deref m (current m)) (deref m (tx_snapshot tx)) "k" = false
   ∧ (commit tx m).1 = None)
  ∧ (let m := Examples.sameIdStore in
     let tx := Examples.writerOfK 2 in
     tx_writes tx !! "k" = Some (mkVV 9 2)
     ∧ ver_data (deref m (current m)) !! "k" = Some (mkVV 7 1)
     ∧ ver_data (deref m (tx_snapshot tx)) !! "k" = None
     ∧ ver_id (deref m (current m)) = ver_id (deref m (tx_snapshot tx))
     ∧ spec_conflictOn (deref m (current m)) (deref m (tx_snapshot tx)) "k" = true
     ∧ conflictOn (deref m (current m)) (deref m (tx_snapshot tx)) "k" = false
     ∧ (commit tx m).1 = None).
Proof. repeat split; vm_compute; reflexivity. Qed.

(** A store with a zero writer id is what the public operations produce
    once the 64-bit transaction counter has wrapped: after 2^64 - 1
    transactions, the next one gets id 0; it commits ["k"]; a transaction
    that began on the same snapshot then commits ["k"] too, without
    conflict. *)
Lemma wrapped_counter_lost_update :
  let w := Examples.wrappedWorld in
  let m := w_db w in
  w_txs w = [Examples.wrapTx0; Examples.wrapTx1]
  ∧ ver_data (deref m (current m)) !! "k" = Some (mkVV 7 0)
  ∧ ver_data (deref m (tx_snapshot Examples.wrapTx1)) !! "k" = None
  ∧ (Commit Examples.wrapTx1 m).1.1 = None.
Proof.
  intros w m. subst m w. unfold Examples.wrappedWorld, Examples.wrappedStore.
  rewrite churn_iter. repeat split; vm_compute; reflexivity.
Qed.

(** C1, both directions of the amended predicate are met by runs of the
    store: in the scenario of [TestWriteWriteConflict] the second commit
    conflicts, and the first did not. *)
Lemma C1_conflict_predicate_witness :
  let w := run initWorld Examples.conflictActs in
  let tx2 := Examples.conflictTx2 in
  w_txs w !! 1%nat = Some tx2
  ∧ (commit tx2 (w_db w)).1 = Some ErrConflict
  ∧ ∃ k cv, is_Some (tx_writes tx2 !! k)
            ∧ ver_data (deref (w_db w) (current (w_db w))) !! k = Some cv
            ∧ writerTxID cv ≠ 0.
Proof.
  intros w tx2.
  assert ((commit tx2 (w_db w)).1 = Some ErrConflict) as Hc
    by (vm_compute; reflexivity).
  split; [vm_compute; reflexivity|]. split; [exact Hc|].
  destruct (proj1 (proj1 (C1_conflict_predicate tx2 (w_db w))) Hc)
    as (k & cv & Hw & Hcur & Hnz & _).
  exists k, cv. split; [exact Hw|]. split; [exact Hcur|exact Hnz].
Defined.

(** ** The reclaimer on a concrete run *)

(** C2, the claim as stated fails.  After three commits with one reader
    still active on version 1, the smallest active snapshot id is 1, but the
    threshold the reclaimer uses is the current id 3: version 2 (reference
    count 0), which the specification's rule retains, is reclaimed. *)
Lemma C2_min_active_snapshot_counterexample :
  let w := run initWorld Examples.gcActs in
  let m := w_db w in
  activeSnapshotIDs w = [1]
  ∧ spec_minActiveSnapshotID w = 1
  ∧ minSnapshotID_of m = 3
  ∧ versions m = [0; 1; 2; 3]%nat
  ∧ ver_id (deref m 2%nat) = 2 ∧ ver_refCount (deref m 2%nat) = 0
  ∧ List.filter (spec_retain w) (versions m) = [1; 2; 3]%nat
  ∧ versions (collectVersions m) = [1; 3]%nat.
Proof. repeat split; vm_compute; reflexivity. Qed.

(** ** Cancellation on a concrete transaction *)

(** C3, the claim as stated fails.  A transaction puts ["x"]; its
    cancellation fires; its next [Get] returns the buffered value and no
    error, and the transaction stays active. *)
Lemma C3_get_after_cancel_counterexample :
  let tx := cancel Examples.txX in
  let m := Examples.storeX in
  tx_state tx = txActive
  ∧ tx_ctx tx = Some Canceled
  ∧ (exec (OpGet "x") tx m).1.1 = mkRes (Some 42) None
  ∧ tx_state (exec (OpGet "x") tx m).1.2 = txActive.
Proof. repeat split; vm_compute; reflexivity. Qed.

Lemma C3_cancellation_observed_witness :
  let tx := cancel Examples.txX in
  let m := Examples.storeX in
  tx_state tx = txActive
  ∧ tx_ctx tx = Some Canceled
  ∧ res_err (exec (OpPut "y" 1) tx m).1.1 = Some (ErrTxCanceled Canceled)
  ∧ res_err (exec OpCommit tx m).1.1 = Some (ErrTxCanceled Canceled)
  ∧ res_err (exec (OpGet "x") tx m).1.1 = None.
Proof.
  intros tx m.
  assert (tx_state tx = txActive) as Ha by reflexivity.
  assert (tx_ctx tx = Some Canceled) as Hc by reflexivity.
  destruct (C3_cancellation_observed tx m Canceled Ha Hc) as (Hput & Hcom & Hget).
  split; [exact Ha|]. split; [exact Hc|].
  split; [exact (proj1 (Hput "y" 1))|].
  split; [exact (proj1 Hcom)|].
  exact (proj1 (Hget "x")).
Defined.

(** The detector itself changes nothing but the log: no handle, no context
    and no field of the store other than [logger] is touched by a tick. *)
Lemma detector_tick_only_logs (w : World string Z) order :
  w_txs (step w (ADetect order)) = w_txs w
  ∧ objs (w_db (step w (ADetect order))) = objs (w_db w)
  ∧ activeTxs (w_db (step w (ADetect order))) = activeTxs (w_db w).
Proof.
  simpl. split; [done|].
  pose proof (objs_detectDeadlocks order (w_db w)) as (? & _ & _ & ? & _).
  done.
Qed.

(** ** The detector on a concrete wait-for graph *)

Lemma waitingStore_graph :
  waitForGraph Examples.waitingStore = {[ 1 := 2; 2 := 1; 5 := 1 ]}.
Proof. vm_compute. reflexivity. Qed.

Lemma walk_stays_on_cycle (n : nat) :
  let g : gmap Z Z := {[ 1 := 2; 2 := 1; 5 := 1 ]} in
  (walk g n 1 = Some 1 ∨ walk g n 1 = Some 2)
  ∧ (walk g n 2 = Some 1 ∨ walk g n 2 = Some 2).
Proof.
  induction n as [|n [IH1 IH2]]; [split; [left|right]; reflexivity|].
  cbn [walk].
  change (({[ 1 := 2; 2 := 1; 5 := 1 ]} : gmap Z Z) !! 1) with (Some 2).
  change (({[ 1 := 2; 2 := 1; 5 := 1 ]} : gmap Z Z) !! 2) with (Some 1).
  cbn [mbind option_bind]. split.
  - destruct IH2 as [-> | ->]; [left|right]; reflexivity.
  - destruct IH1 as [-> | ->]; [left|right]; reflexivity.
Qed.

(** C4, evaluated where it fails.  Transactions 1 and 2 wait for each other
    and transaction 5 waits for 1.  When the range loop reaches 5 first, the
    list handed to [resolveDeadlock] is [1; 2; 1; 5]: every frame of the
    recursion appends its node, so the list is the whole stack (with the
    re-entered node twice), not the suffix from the re-entered node.  The
    victim, the largest id of that list, is 5, which is on no cycle; the
    members of the cycle are 1 and 2.  When the loop reaches 1 first the
    list is [1; 2; 1] and the victim is 2. *)
Theorem C4_victim_outside_cycle :
  let m := Examples.waitingStore in
  let g := waitForGraph m in
  findCycle [5; 1; 2] m = Some [1; 2; 1; 5]
  ∧ pickVictim [1; 2; 1; 5] = 5
  ∧ logger (detectDeadlocks [5; 1; 2] m) = [LogDeadlock [1; 2; 1; 5] 5]
  ∧ ¬ onCycle g 5
  ∧ onCycle g 1 ∧ onCycle g 2
  ∧ findCycle [1; 2; 5] m = Some [1; 2; 1]
  ∧ pickVictim [1; 2; 1] = 2.
Proof.
  intros m g. subst g m. rewrite waitingStore_graph.
  split; [vm_compute; reflexivity|]. split; [vm_compute; reflexivity|].
  split; [vm_compute; reflexivity|].
  split; [|split; [exists 1%nat; vm_compute; reflexivity
                  |split; [exists 1%nat; vm_compute; reflexivity
                          |split; vm_compute; reflexivity]]].
  intros [n Hn]. cbn [walk] in Hn.
  change (({[ 1 := 2; 2 := 1; 5 := 1 ]} : gmap Z Z) !! 5) with (Some 1) in Hn.
  cbn [mbind option_bind] in Hn.
  destruct (walk_stays_on_cycle n) as [[H1|H1] _];
    rewrite H1 in Hn; discriminate Hn.
Qed.

(** ** Termination and commit on concrete transactions *)

Lemma C6_Commit_protocol_witness :
  let tx := cancel Examples.txX in
  let m := Examples.storeX in
  tx_state tx = txActive
  ∧ tx_ctx tx = Some Canceled
  ∧ (Commit tx m).1.1 = Some (ErrTxCanceled Canceled)
  ∧ tx_state (Commit tx m).1.2 = txRolledBack
  ∧ activeTxs (Commit tx m).2 = ∅
  ∧ ver_refCount (deref (Commit tx m).2 (tx_snapshot tx)) = 0
  ∧ Commit (set_state txRolledBack tx) m
    = (Some ErrTxDone, set_state txRolledBack tx, m).
Proof.
  intros tx m.
  assert (tx_state tx = txActive) as Ha by reflexivity.
  assert (tx_ctx tx = Some Canceled) as Hc by reflexivity.
  pose proof (proj2 (C6_Commit_protocol tx m) Ha) as Hact.
  pose proof (proj1 (C6_Commit_protocol (set_state txRolledBack tx) m)) as Hdone.
  destruct (Commit tx m) as [[err tx'] m'] eqn:HC.
  destruct Hact as (_ & Hreg & Hrc & Hcan & _).
  destruct (Hcan Canceled Hc) as (-> & Hst & ->).
  split; [exact Ha|]. split; [exact Hc|]. split; [reflexivity|].
  split; [exact Hst|]. split; [vm_compute; reflexivity|].
  split; [vm_compute; reflexivity|]. apply Hdone. discriminate.
Defined.

Lemma C7_conflict_without_publishing_witness :
  let w := run initWorld Examples.conflictActs in
  let tx2 := Examples.conflictTx2 in
  w_txs w !! 1%nat = Some tx2
  ∧ (Commit tx2 (w_db w)).1.1 = Some ErrConflict
  ∧ current (Commit tx2 (w_db w)).2 = current (w_db w)
  ∧ versions (Commit tx2 (w_db w)).2 = versions (w_db w).
Proof.
  intros w tx2.
  assert ((Commit tx2 (w_db w)).1.1 = Some ErrConflict) as Hc
    by (vm_compute; reflexivity).
  split; [vm_compute; reflexivity|]. split; [exact Hc|].
  destruct (C7_conflict_without_publishing tx2 (w_db w)) as (_ & Hpub & _).
  destruct (Hpub Hc) as (Hcur & Hvs & _). split; [exact Hcur|exact Hvs].
Defined.

(** Scenario S6: a transaction rolls back, rolls back again, then commits. *)
Lemma C8_idempotent_termination_witness :
  let tx := (BeginTx None (NewMVCCMap : MVCCMap string Z)).1 in
  let m := (BeginTx None (NewMVCCMap : MVCCMap string Z)).2 in
  tx_state tx = txActive
  ∧ objs m !! tx_snapshot tx = Some (mkVersion 0 ∅ 1)
  ∧ let '(r1, tx1, m1) := exec OpRollback tx m in
    let '(rs, tx2, m2) := execAll [OpRollback; OpCommit] tx1 m1 in
    terminal (tx_state tx1)
    ∧ tx2 = tx1 ∧ m2 = m1
    ∧ rs = [mkRes None None; mkRes None (Some ErrTxDone)]
    ∧ objs m2 !! tx_snapshot tx
      = Some (mkVersion 0 ∅ (swrap64 (1 - 1))).
Proof.
  intros tx m.
  assert (tx_state tx = txActive) as Ha by reflexivity.
  assert (objs m !! tx_snapshot tx = Some (mkVersion 0 ∅ 1)) as Hv by reflexivity.
  assert (Forall (λ o : txOp string Z, isTermination o = true)
                 [OpRollback; OpCommit]) as Hops by (repeat constructor).
  split; [exact Ha|]. split; [exact Hv|].
  exact (C8_idempotent_termination OpRollback [OpRollback; OpCommit] tx m _
           Ha eq_refl Hops Hv).
Defined.

Lemma C9_commit_publishes_witness :
  let acts := Examples.overlayActs in
  let tx := Examples.overlayTx in
  let m := w_db (run initWorld acts) in
  w_txs (run initWorld acts) !! 1%nat = Some tx
  ∧ (Commit tx m).1.1 = None
  ∧ ver_data (deref (Commit tx m).2 (current (Commit tx m).2))
    = {[ "j" := mkVV 5 2; "k" := mkVV 1 1 ]}
  ∧ ver_id (deref (Commit tx m).2 (current (Commit tx m).2)) = 2.
Proof.
  intros acts tx m.
  assert (w_txs (run initWorld acts) !! 1%nat = Some tx) as Hh
    by (vm_compute; reflexivity).
  assert ((Commit tx m).1.1 = None) as Hok by (vm_compute; reflexivity).
  split; [exact Hh|]. split; [exact Hok|].
  destruct (C9_commit_publishes acts 1%nat tx Hh Hok)
    as (_ & _ & Hid & _ & Hdata & _).
  split.
  - etransitivity; [exact Hdata|]. vm_compute. reflexivity.
  - etransitivity; [exact Hid|]. vm_compute. reflexivity.
Defined.

(** ** A fresh store *)

(** C10, the claim as stated fails, twice.  Before any commit a
    transaction that put ["x"] gets its own value back, not absent
    ([TestReadYourOwnWrites]).  And once the 64-bit transaction counter has
    wrapped, a transaction gets id 0 and the version it publishes holds an
    entry whose writer id is 0. *)
Lemma C10_fresh_store_counterexample :
  (let acts : list (action string Z) := [ABegin None; APut 0%nat "x" 42] in
   let w := run initWorld acts in
   Forall (λ a, isCommit a = false) acts
   ∧ w_txs w !! 0%nat = Some Examples.txX
   ∧ VersionCount (w_db w) = 1%nat
   ∧ (Get "x" Examples.txX (w_db w)).1 = Some 42)
  ∧ (let w := run (mkWorld Examples.wrappedStore [])
                  [ABegin None; APut 0%nat "k" 7; ACommit 0%nat] in
     (tx_id <$> w_txs w) = [0]
     ∧ ver_data (deref (w_db w) (current (w_db w))) !! "k" = Some (mkVV 7 0)).
Proof.
  split.
  - split; [repeat constructor|]. repeat split; vm_compute; reflexivity.
  - unfold Examples.wrappedStore. rewrite churn_iter.
    split; vm_compute; reflexivity.
Qed.

Lemma C10_fresh_store_witness :
  let acts := Examples.readActs in
  let w := run initWorld acts in
  Forall (λ a, isCommit a = false) acts
  ∧ begins acts < 2 ^ 64
  ∧ w_txs w = [Examples.readTx1; Examples.readTx2]
  ∧ (Get "x" Examples.readTx1 (w_db w)).1 = Some 42
  ∧ (Get "y" Examples.readTx1 (w_db w)).1 = None
  ∧ (Get "x" Examples.readTx2 (w_db w)).1 = None.
Proof.
  intros acts w.
  assert (Forall (λ a, isCommit a = false) acts) as Hnc by repeat constructor.
  assert (w_txs w = [Examples.readTx1; Examples.readTx2]) as Hw
    by (vm_compute; reflexivity).
  split; [exact Hnc|]. split; [vm_compute; reflexivity|]. split; [exact Hw|].
  destruct (@C10_fresh_store string _ _ Z) as (_ & Hget & _).
  assert (w_txs w !! 0%nat = Some Examples.readTx1) as H1 by (rewrite Hw; reflexivity).
  assert (w_txs w !! 1%nat = Some Examples.readTx2) as H2 by (rewrite Hw; reflexivity).
  split; [|split].
  - etransitivity; [exact (Hget acts 0%nat _ "x" Hnc H1)|]. vm_compute. reflexivity.
  - etransitivity; [exact (Hget acts 0%nat _ "y" Hnc H1)|]. vm_compute. reflexivity.
  - etransitivity; [exact (Hget acts 1%nat _ "x" Hnc H2)|]. vm_compute. reflexivity.
Defined.

(** * Further properties of the transaction operations *)

Section MoreOnTransactions.
Context {K : Type} `{Countable K} {V : Type}.
Implicit Types (m : MVCCMap K V) (tx : Tx K V) (k : K) (v : V).

(** X1.  Read your own writes: on an active transaction whose context has
    not fired, [Put] succeeds without touching the store, the next [Get] of
    that key returns the value just put (whatever the snapshot or an earlier
    [Put] held for it), and the [Get] of any other key is as before. *)
Theorem X1_read_your_own_writes k v tx m :
  tx_state tx = txActive →
  tx_ctx tx = None →
  (Put k v tx m).1.1 = None
  ∧ (Put k v tx m).2 = m
  ∧ (Get k (Put k v tx m).1.2 (Put k v tx m).2).1 = Some v
  ∧ ∀ k', k' ≠ k →
          (Get k' (Put k v tx m).1.2 (Put k v tx m).2).1 = (Get k' tx m).1.
Proof.
  intros Ha Hc. unfold Put, checkActive. rewrite decide_True by done.
  rewrite Hc. simpl. split; [done|]. split; [done|]. split.
  - rewrite Get_active_value by done. simpl. by rewrite lookup_insert_eq.
  - intros k' Hne. rewrite !Get_active_value by done. simpl.
    by rewrite lookup_insert_ne.
Qed.

(** X2.  The failure modes of [Put].  It fails exactly when the transaction
    is not active ([ErrTxDone], nothing changes) or is active with a fired
    context ([ErrTxCanceled] wrapping the context's error, and the
    transaction and the store end up exactly as after [Rollback]); it never
    returns any other error, and a failed [Put] buffers nothing. *)
Theorem X2_Put_failure_modes k v tx m :
  (tx_state tx ≠ txActive → Put k v tx m = (Some ErrTxDone, tx, m))
  ∧ (∀ cause, tx_state tx = txActive → tx_ctx tx = Some cause →
       Put k v tx m
       = (Some (ErrTxCanceled cause), (Rollback tx m).1, (Rollback tx m).2)
       ∧ tx_state (Rollback tx m).1 = txRolledBack)
  ∧ (∀ e, (Put k v tx m).1.1 = Some e →
          (e = ErrTxDone ∧ tx_state tx ≠ txActive
           ∨ ∃ cause, e = ErrTxCanceled cause ∧ tx_state tx = txActive
                      ∧ tx_ctx tx = Some cause)
          ∧ tx_writes (Put k v tx m).1.2 = tx_writes tx).
Proof.
  split; [|split].
  - intros Hn. unfold Put, checkActive. by rewrite decide_False.
  - intros cause Ha Hc. unfold Put, checkActive. rewrite decide_True by done.
    rewrite Hc. rewrite Rollback_active by done. done.
  - intros e. unfold Put, checkActive.
    destruct (decide (tx_state tx = txActive)) as [Ha|Hn].
    + destruct (tx_ctx tx) as [cause|] eqn:Hc; [|done].
      rewrite Rollback_active by done. simpl. intros [= <-].
      split; [right; by exists cause|done].
    + simpl. intros [= <-]. split; [by left|done].
Qed.

(** X3.  A transaction that is no longer active is frozen: [Get] returns
    absent, [Put] and [Commit] return [ErrTxDone], [Rollback] returns
    nothing, and none of them changes the transaction or the store. *)
Theorem X3_terminated_is_frozen (op : txOp K V) tx m :
  tx_state tx ≠ txActive →
  exec op tx m =
  (match op with
   | OpPut _ _ | OpCommit => mkRes None (Some ErrTxDone)
   | OpGet _ | OpRollback => mkRes None None
   end, tx, m).
Proof.
  intros Hn. destruct op as [key|key val| |]; simpl.
  - by rewrite Get_inactive.
  - unfold Put, checkActive. by rewrite decide_False.
  - by rewrite Commit_inactive.
  - by rewrite Rollback_inactive.
Qed.

(** X4.  A read-only transaction always commits: with an empty write
    buffer, on an active transaction whose context has not fired, [Commit]
    succeeds whatever has been committed since its snapshot, and it still
    publishes a new version, whose map is the previous current map. *)
Theorem X4_read_only_commit tx m :
  tx_state tx = txActive →
  tx_ctx tx = None →
  tx_writes tx = ∅ →
  let m' := (Commit tx m).2 in
  (Commit tx m).1.1 = None
  ∧ objs m !! current m' = None
  ∧ versions m' = versions m ++ [current m']
  ∧ ver_data (deref m' (current m')) = ver_data (deref m (current m))
  ∧ ver_id (deref m' (current m')) = wrap64 (nextVersionID m + 1).
Proof.
  intros Ha Hc Hw m'. subst m'.
  assert ((commit (set_state txCommitted tx) m).1 = None) as Hok.
  { unfold commit. simpl. by rewrite Hw, map_to_list_empty. }
  destruct (commit_ok_store _ _ Hok) as [Hfresh Hstore].
  simpl in Hfresh, Hstore.
  rewrite Commit_active_live by done. simpl. rewrite Hok, Hstore. simpl.
  split; [done|]. split; [done|]. split; [done|].
  unfold deref. simpl. rewrite lookup_alter.
  destruct (decide _) as [->|_];
    rewrite lookup_insert_eq; simpl; rewrite Hw, (left_id_L ∅ (∪)); done.
Qed.

End MoreOnTransactions.

(** * Bookkeeping along runs *)

Section HandleSteps.
Context {K : Type} `{Countable K} {V : Type}.
Implicit Types (m : MVCCMap K V) (tx : Tx K V) (k : K) (v : V).
Implicit Types (w : World K V) (a : action K V) (l : loc).

Lemma commit_published tx m :
  (commit tx m).1 = None → (commit tx m).2 = pubStore tx m.
Proof.
  intros Hok. destruct (commit_ok_store tx m Hok) as [_ ->]. done.
Qed.

(** What a terminating call does, whichever it is. *)
Lemma Rollback_release tx m :
  tx_state tx = txActive → (Rollback tx m).2 = release tx m.
Proof. intros Ha. by rewrite Rollback_active. Qed.

Lemma Commit_release tx m :
  tx_state tx = txActive →
  (Commit tx m).2 = release tx (if published tx m then pubStore tx m else m).
Proof.
  intros Ha. unfold published.
  destruct (tx_ctx tx) as [cause|] eqn:Hc.
  - rewrite (Commit_active_canceled _ _ cause) by done.
    by rewrite bool_decide_eq_false_2 by (by intros (_ & ? & _)).
  - rewrite Commit_active_live by done. simpl.
    destruct (commit (set_state txCommitted tx) m).1 eqn:He.
    + rewrite bool_decide_eq_false_2 by (by intros (_ & _ & ?)).
      destruct (commit_err_cases (set_state txCommitted tx) m) as [?|Hcf];
        [congruence|].
      by rewrite (commit_conflict_unchanged _ _ Hcf).
    + rewrite bool_decide_eq_true_2 by done.
      by rewrite (commit_published _ _ He).
Qed.

(** An action on a handle either leaves the state of the transaction and
    the store as they are, or terminates an active transaction and
    releases. *)
Lemma step_handle_cases w a (h : nat) tx :
  actsOn a = Some h → w_txs w !! h = Some tx →
  let tx' := txAfter a (w_db w) tx in
  (tx_state tx' = tx_state tx ∧ w_db (step w a) = w_db w)
  ∨ (tx_state tx = txActive ∧ tx_state tx' ≠ txActive
     ∧ w_db (step w a)
       = release tx (if publishes w a then pubStore tx (w_db w) else w_db w)).
Proof.
  intros Ha Hh tx'. subst tx'. rewrite step_db.
  destruct a as [pctx|h' key|h' key v|h'|h'|h' cause| |order];
    simpl in Ha; try done; injection Ha as ->; rewrite ?Hh; simpl.
  - left. split; [|done]. apply Get_tx_fields.
  - unfold Put, checkActive.
    destruct (decide (tx_state tx = txActive)) as [Hact|Hn]; [|by left].
    destruct (tx_ctx tx); [|by left]. right.
    rewrite Rollback_active by done. by simpl.
  - rewrite Hh. destruct (decide (tx_state tx = txActive)) as [Hact|Hn].
    + right. split; [done|]. split; [|by apply Commit_release].
      unfold Commit. rewrite Hact. simpl.
      destruct (tx_ctx tx); [done|]. by destruct (commit _ _).
    + left. by rewrite Commit_inactive.
  - destruct (decide (tx_state tx = txActive)) as [Hact|Hn].
    + right. rewrite Rollback_active by done. by simpl.
    + left. by rewrite Rollback_inactive.
  - by left.
Qed.

(** A transaction that is no longer active never becomes active again. *)
Lemma txAfter_terminal a m tx :
  tx_state tx ≠ txActive → tx_state (txAfter a m tx) = tx_state tx.
Proof.
  intros Hn. destruct a; simpl; try done.
  - by rewrite Get_inactive.
  - unfold Put, checkActive. by rewrite decide_False.
  - by rewrite Commit_inactive.
  - by rewrite Rollback_inactive.
Qed.

Lemma step_txs_handle w a (h : nat) tx :
  actsOn a = Some h → w_txs w !! h = Some tx →
  w_txs (step w a) = <[h := txAfter a (w_db w) tx]> (w_txs w).
Proof.
  intros Ha Hh.
  destruct a as [pctx|h' key|h' key v|h'|h'|h' cause| |order];
    simpl in Ha; try done; injection Ha as ->; simpl;
    rewrite (step_onTx _ _ _ tx) by done; simpl; try done.
  - by destruct (Put key v tx (w_db w)) as [[? ?] ?].
  - by destruct (Commit tx (w_db w)) as [[? ?] ?].
Qed.

Lemma step_handle_missing w a (h : nat) :
  actsOn a = Some h → w_txs w !! h = None → step w a = w.
Proof.
  intros Ha Hh.
  destruct a as [pctx|h' key|h' key v|h'|h'|h' cause| |order];
    simpl in Ha; try done; injection Ha as ->; simpl;
    by rewrite step_onTx_None.
Qed.

Lemma step_background w a :
  actsOn a = None → isBegin a = false →
  w_txs (step w a) = w_txs w
  ∧ objs (w_db (step w a)) = objs (w_db w)
  ∧ activeTxs (w_db (step w a)) = activeTxs (w_db w)
  ∧ current (w_db (step w a)) = current (w_db w).
Proof.
  intros Ha Hb. destruct a; try done; simpl.
  - unfold collectVersions. by rewrite collectVersionsFrom_filter.
  - pose proof (objs_detectDeadlocks order (w_db w)) as (? & ? & _ & ? & _).
    done.
Qed.

(** ** Counting pinned transactions *)

Lemma count_snoc {A} (f : A → bool) (xs : list A) x :
  length (List.filter f (xs ++ [x]))
  = (length (List.filter f xs) + (if f x then 1 else 0))%nat.
Proof.
  rewrite List.filter_app, length_app. simpl. by destruct (f x).
Qed.

Lemma count_insert {A} (f : A → bool) (xs : list A) (i : nat) x y :
  xs !! i = Some x →
  (length (List.filter f (<[i := y]> xs)) + (if f x then 1 else 0)
   = length (List.filter f xs) + (if f y then 1 else 0))%nat.
Proof.
  revert i. induction xs as [|z xs IH]; intros [|i] Hi; simpl in *; try done.
  - injection Hi as ->. destruct (f x), (f y); simpl; lia.
  - specialize (IH i Hi). destruct (f z); simpl; lia.
Qed.

Lemma count_le_length {A} (f : A → bool) (xs : list A) :
  (length (List.filter f xs) ≤ length xs)%nat.
Proof. induction xs as [|z xs IH]; simpl; [lia|]. destruct (f z); simpl; lia. Qed.

Lemma count_zero {A} (f : A → bool) (xs : list A) :
  (∀ x, x ∈ xs → f x = false) → length (List.filter f xs) = 0%nat.
Proof.
  induction xs as [|z xs IH]; intros Hf; simpl; [done|].
  rewrite (Hf z) by (by left). apply IH. intros x Hx. apply Hf. by right.
Qed.


Lemma activeOn_true l tx :
  activeOn l tx = true ↔ tx_state tx = txActive ∧ tx_snapshot tx = l.
Proof. unfold activeOn. by rewrite bool_decide_eq_true. Qed.

Lemma activeOn_false_terminal l tx :
  tx_state tx ≠ txActive → activeOn l tx = false.
Proof. intros Hn. apply bool_decide_eq_false. by intros [? _]. Qed.

Lemma activeOn_false_other l tx :
  tx_snapshot tx ≠ l → activeOn l tx = false.
Proof. intros Hn. apply bool_decide_eq_false. by intros [_ ?]. Qed.

(** ** The bookkeeping invariant *)

Lemma step_begin w pctx :
  step w (ABegin pctx)
  = mkWorld (BeginTx pctx (w_db w)).2 (w_txs w ++ [(BeginTx pctx (w_db w)).1]).
Proof. done. Qed.

Lemma release_activeTxs tx m :
  activeTxs (release tx m) = delete (tx_id tx) (activeTxs m).
Proof. done. Qed.

Lemma release_objs tx m l :
  objs (release tx m) !! l =
  if decide (tx_snapshot tx = l) then
    (λ ver, mkVersion (ver_id ver) (ver_data ver)
                      (swrap64 (ver_refCount ver + -1))) <$> objs m !! l
  else objs m !! l.
Proof. unfold release. by rewrite refCount_Add_lookup. Qed.

Lemma txAfter_fields a m tx :
  tx_id (txAfter a m tx) = tx_id tx
  ∧ tx_snapshot (txAfter a m tx) = tx_snapshot tx.
Proof. by destruct (evolves_txAfter a m tx) as (? & ? & _). Qed.

Lemma pins_le_length (txs : list (Tx K V)) l : (pins txs l ≤ length txs)%nat.
Proof. apply count_le_length. Qed.

Lemma Accounting_begin w pctx :
  Accounting w →
  Z.of_nat (length (w_txs w)) + 1 < 2 ^ 63 →
  Accounting (step w (ABegin pctx)).
Proof.
  intros (Hnext & Hids & Hreg & Hrc) Hb. rewrite step_begin.
  set (n := length (w_txs w)) in *.
  assert (wrap64 (nextTxID (w_db w) + 1) = Z.of_nat n + 1) as Hid.
  { rewrite Hnext. apply wrap64_small. lia. }
  split; [|split; [|split]]; simpl.
  - rewrite Hid, length_app. simpl. lia.
  - intros h tx Hh. apply lookup_snoc_Some in Hh as [[Hlt Hh]|[-> <-]].
    + by apply Hids.
    + simpl. by rewrite Hid.
  - intros id. rewrite Hid. split.
    + intros [meta Hm]. apply lookup_insert_Some in Hm as [[<- _]|[Hne Hm]].
      * eexists n, _. split; [by apply list_lookup_middle|]. done.
      * destruct (proj1 (Hreg id)) as (h & tx & Hh & Hi & Ha); [by eexists|].
        exists h, tx. split; [|done]. by apply lookup_app_l_Some.
    + intros (h & tx & Hh & Hi & Ha).
      apply lookup_snoc_Some in Hh as [[Hlt Hh]|[-> <-]].
      * destruct (decide (Z.of_nat n + 1 = id)) as [<-|Hne].
        -- rewrite lookup_insert_eq. by eexists.
        -- rewrite lookup_insert_ne by done. apply Hreg. by exists h, tx.
      * simpl in Hi. subst id. rewrite lookup_insert_eq. by eexists.
  - intros l ver Hl. unfold pins. rewrite count_snoc. fold (pins (w_txs w) l).
    rewrite lookup_alter in Hl. cbn [tx_state tx_snapshot activeOn].
    destruct (decide (current (w_db w) = l)) as [<-|Hne].
    + destruct (objs (w_db w) !! current (w_db w)) as [ver0|] eqn:Hc; [|done].
      injection Hl as <-. simpl. rewrite (Hrc _ _ Hc).
      unfold activeOn. simpl. rewrite bool_decide_eq_true_2 by done.
      pose proof (pins_le_length (w_txs w) (current (w_db w))) as Hle.
      fold n in Hle. rewrite swrap64_id by lia. lia.
    + rewrite (Hrc _ _ Hl). unfold activeOn. simpl.
      rewrite bool_decide_eq_false_2 by (by intros [_ ?]). lia.
Qed.

Lemma Accounting_stay w (h : nat) tx tx' :
  Accounting w → w_txs w !! h = Some tx →
  tx_id tx' = tx_id tx → tx_snapshot tx' = tx_snapshot tx →
  tx_state tx' = tx_state tx →
  Accounting (mkWorld (w_db w) (<[h := tx']> (w_txs w))).
Proof.
  intros (Hnext & Hids & Hreg & Hrc) Hh Hid Hsn Hst.
  split; [|split; [|split]]; simpl.
  - by rewrite length_insert.
  - intros h0 tx0 H0. apply list_lookup_insert_Some in H0
      as [(<- & <- & _)|[Hne H0]]; [|by apply Hids].
    rewrite Hid. by apply Hids.
  - intros id. rewrite Hreg. split.
    + intros (h0 & tx0 & H0 & Hi & Ha). destruct (decide (h = h0)) as [<-|Hne].
      * exists h, tx'. rewrite Hh in H0. injection H0 as <-.
        split; [|by rewrite Hid, Hst].
        apply list_lookup_insert_eq. by eapply lookup_lt_Some.
      * exists h0, tx0. split; [|done]. by rewrite list_lookup_insert_ne.
    + intros (h0 & tx0 & H0 & Hi & Ha).
      apply list_lookup_insert_Some in H0 as [(<- & <- & _)|[Hne H0]].
      * exists h, tx. by rewrite <- Hid, <- Hst.
      * by exists h0, tx0.
  - intros l ver Hl. rewrite (Hrc _ _ Hl). unfold pins.
    pose proof (count_insert (activeOn l) (w_txs w) h tx tx' Hh) as Hc.
    assert (activeOn l tx' = activeOn l tx) as Heq
      by (unfold activeOn; by rewrite Hst, Hsn).
    rewrite Heq in Hc. destruct (activeOn l tx); lia.
Qed.

Lemma Accounting_finish w (h : nat) tx tx' (pub : bool) :
  Alloc w → Accounting w →
  Z.of_nat (length (w_txs w)) < 2 ^ 63 →
  w_txs w !! h = Some tx →
  tx_id tx' = tx_id tx → tx_snapshot tx' = tx_snapshot tx →
  tx_state tx = txActive → tx_state tx' ≠ txActive →
  Accounting
    (mkWorld (release tx (if pub then pubStore tx (w_db w) else w_db w))
             (<[h := tx']> (w_txs w))).
Proof.
  intros [_ Halloc] (Hnext & Hids & Hreg & Hrc) Hb Hh Hid Hsn Ha Hn.
  assert (nextTxID (if pub then pubStore tx (w_db w) else w_db w)
          = nextTxID (w_db w)) as HnextM by (by destruct pub).
  assert (activeTxs (if pub then pubStore tx (w_db w) else w_db w)
          = activeTxs (w_db w)) as HregM by (by destruct pub).
  destruct (Halloc h tx Hh) as [[sv Hsv] _].
  pose proof (is_fresh (dom (objs (w_db w)))) as Hfresh.
  assert (tx_snapshot tx ≠ fresh (dom (objs (w_db w)))) as Hsf.
  { intros Heq. apply Hfresh. rewrite <- Heq. apply elem_of_dom. by eexists. }
  split; [|split; [|split]]; cbn [w_db w_txs].
  - change (nextTxID (release tx ?x)) with (nextTxID x).
    by rewrite HnextM, length_insert.
  - intros h0 tx0 H0. apply list_lookup_insert_Some in H0
      as [(<- & <- & _)|[Hne H0]]; [|by apply Hids].
    rewrite Hid. by apply Hids.
  - intros id. rewrite release_activeTxs, HregM. unfold is_Some.
    setoid_rewrite lookup_delete_Some. split.
    + intros (meta & Hne & Hm).
      destruct (proj1 (Hreg id)) as (h0 & tx0 & H0 & Hi & Ha0); [by eexists|].
      exists h0, tx0. split; [|done]. rewrite list_lookup_insert_ne; [done|].
      intros <-. rewrite Hh in H0. by injection H0 as <-.
    + intros (h0 & tx0 & H0 & Hi & Ha0).
      apply list_lookup_insert_Some in H0 as [(<- & <- & _)|[Hne H0]]; [done|].
      destruct (proj2 (Hreg id)) as [meta Hm]; [by exists h0, tx0|].
      exists meta. split; [|done].
      rewrite (Hids _ _ Hh), <- Hi, (Hids _ _ H0). lia.
  - intros l ver Hl. rewrite release_objs in Hl. unfold pins.
    pose proof (count_insert (activeOn l) (w_txs w) h tx tx' Hh) as Hc.
    rewrite (activeOn_false_terminal l tx') in Hc by done.
    fold (pins (w_txs w) l) in Hc.
    destruct (decide (tx_snapshot tx = l)) as [<-|Hne].
    + assert (objs (if pub then pubStore tx (w_db w) else w_db w)
                !! tx_snapshot tx = Some sv) as Hmid.
      { destruct pub; [|done]. simpl. by rewrite lookup_insert_ne. }
      rewrite Hmid in Hl. injection Hl as <-. simpl.
      rewrite (Hrc _ _ Hsv).
      assert (activeOn (tx_snapshot tx) tx = true) as Hon
        by (by apply activeOn_true).
      rewrite Hon in Hc.
      pose proof (pins_le_length (w_txs w) (tx_snapshot tx)).
      rewrite swrap64_id by lia. lia.
    + rewrite (activeOn_false_other l tx) in Hc by done.
      assert (length (List.filter (activeOn l) (<[h:=tx']> (w_txs w)))
              = pins (w_txs w) l) as -> by lia.
      destruct pub; [|by apply Hrc]. simpl in Hl.
      apply lookup_insert_Some in Hl as [[<- <-]|[_ Hl]]; [|by apply Hrc].
      simpl. unfold pins. rewrite count_zero; [done|].
      intros tx0 [h0 H0]%list_elem_of_lookup. apply activeOn_false_other.
      destruct (Halloc h0 tx0 H0) as [[sv0 Hsv0] _].
      intros Heq. apply Hfresh. rewrite <- Heq. apply elem_of_dom. by eexists.
Qed.

Lemma step_Accounting w a :
  Alloc w → Accounting w →
  Z.of_nat (length (w_txs (step w a))) < 2 ^ 63 →
  Accounting (step w a).
Proof.
  intros Hal Hacc Hb. rewrite step_txs_length in Hb.
  destruct (actsOn a) as [h|] eqn:Ha.
  - assert (isBegin a = false) as Hnb by (by destruct a).
    rewrite Hnb in Hb.
    destruct (w_txs w !! h) as [tx|] eqn:Hh;
      [|by rewrite (step_handle_missing _ _ h)].
    pose proof (step_txs_handle w a h tx Ha Hh) as Htxs.
    destruct (txAfter_fields a (w_db w) tx) as [Hid Hsn].
    assert (step w a = mkWorld (w_db (step w a)) (w_txs (step w a))) as ->
      by (by destruct (step w a)).
    rewrite Htxs.
    destruct (step_handle_cases w a h tx Ha Hh) as [[Hst ->]|(Hact & Hn & ->)].
    + by apply (Accounting_stay w h tx).
    + by apply (Accounting_finish w h tx).
  - destruct (isBegin a) eqn:Hbg.
    + destruct a; try done. apply Accounting_begin; [done|lia].
    + destruct (step_background w a Ha Hbg) as (Ht & Ho & Hr & _).
      destruct Hacc as (Hnext & Hids & Hreg & Hrc).
      split; [|split; [|split]].
      * rewrite step_nextTxID, Hbg, Ht. done.
      * by rewrite Ht.
      * intros id. by rewrite Hr, Ht.
      * intros l ver. rewrite Ho, Ht. apply Hrc.
Qed.

Lemma run_txs_length (acts : list (action K V)) :
  Z.of_nat (length (w_txs (run initWorld acts))) = begins acts.
Proof.
  induction acts as [|a acts IH] using rev_ind; [done|].
  rewrite run_snoc, step_txs_length, begins_snoc.
  destruct (isBegin a); lia.
Qed.

Lemma run_Accounting (acts : list (action K V)) :
  begins acts < 2 ^ 63 → Accounting (run initWorld acts).
Proof.
  induction acts as [|a acts IH] using rev_ind; intros Hb.
  - split; [done|]. split; [|split].
    + intros h tx Hh. simpl in Hh. by rewrite lookup_nil in Hh.
    + intros id. simpl. rewrite lookup_empty. split; [by intros [? ?]|].
      intros (h & tx & Hh & _). simpl in Hh. by rewrite lookup_nil in Hh.
    + intros l ver Hl. simpl in Hl.
      by apply lookup_singleton_Some in Hl as [_ <-].
  - rewrite run_snoc. apply step_Accounting.
    + apply run_Alloc, initWorld_Alloc.
    + apply IH. rewrite begins_snoc in Hb. destruct (isBegin a); lia.
    + rewrite <- run_snoc, run_txs_length. done.
Qed.

(** ** The registry never holds a wait-for edge *)

Lemma step_activeTxs_cases w a :
  activeTxs (w_db (step w a)) = activeTxs (w_db w)
  ∨ (∃ id, activeTxs (w_db (step w a)) = delete id (activeTxs (w_db w)))
  ∨ (∃ id, activeTxs (w_db (step w a))
           = <[id := mkMeta id 0]> (activeTxs (w_db w))).
Proof.
  destruct (actsOn a) as [h|] eqn:Ha.
  - destruct (w_txs w !! h) as [tx|] eqn:Hh;
      [|left; by rewrite (step_handle_missing _ _ h)].
    destruct (step_handle_cases w a h tx Ha Hh) as [[_ ->]|(_ & _ & ->)];
      [by left|].
    right; left. exists (tx_id tx). rewrite release_activeTxs.
    by destruct (publishes w a).
  - destruct (isBegin a) eqn:Hbg.
    + destruct a; try done. right; right. by eexists.
    + left. by destruct (step_background w a Ha Hbg) as (_ & _ & ? & _).
Qed.

Lemma step_NoWaits w a : NoWaits (w_db w) → NoWaits (w_db (step w a)).
Proof.
  intros Hnw id meta.
  destruct (step_activeTxs_cases w a) as [->|[[id0 ->]|[id0 ->]]].
  - apply Hnw.
  - intros [_ Hm]%lookup_delete_Some. by eapply Hnw.
  - intros [[_ <-]|[_ Hm]]%lookup_insert_Some; [done|]. by eapply Hnw.
Qed.

Lemma run_NoWaits (acts : list (action K V)) :
  NoWaits (w_db (run initWorld acts)).
Proof.
  induction acts as [|a acts IH] using rev_ind.
  - intros id meta Hm. simpl in Hm. by rewrite lookup_empty in Hm.
  - rewrite run_snoc. by apply step_NoWaits.
Qed.

Lemma NoWaits_graph m : NoWaits m → waitForGraph m = ∅.
Proof.
  intros Hnw. apply map_eq. intros id. unfold waitForGraph.
  rewrite lookup_omap, lookup_empty.
  destruct (activeTxs m !! id) as [meta|] eqn:Hm; [|done]. simpl.
  by rewrite (Hnw _ _ Hm).
Qed.

Lemma detectLoop_empty fuel order st :
  inStack st = ∅ → detectLoop (S fuel) ∅ order st = Some None.
Proof.
  revert st. induction order as [|id order IH]; intros st Hst; [done|].
  cbn [detectLoop]. destruct (decide (id ∈ visited st)); [by apply IH|].
  cbn [dfs]. rewrite decide_False by (rewrite Hst; set_solver).
  rewrite decide_False by done. rewrite lookup_empty.
  apply IH. simpl. rewrite Hst. set_solver.
Qed.

(** On a store whose registry holds no wait-for edge the detector finds
    nothing and changes nothing, not even the log. *)
Lemma detectDeadlocks_NoWaits order m :
  NoWaits m → findCycle order m = None ∧ detectDeadlocks order m = m.
Proof.
  intros Hnw. unfold detectDeadlocks, findCycle.
  rewrite (NoWaits_graph _ Hnw), detectLoop_empty by done. done.
Qed.

(** ** What a step does to the versions list *)

Lemma publishes_active w (h : nat) tx :
  w_txs w !! h = Some tx → publishes w (ACommit h) = true →
  tx_state tx = txActive ∧ tx_ctx tx = None.
Proof.
  intros Hh. simpl. rewrite Hh. unfold published.
  intros (? & ? & _)%bool_decide_eq_true. done.
Qed.

Lemma publishes_handle w a :
  publishes w a = true →
  ∃ (h : nat) tx, a = ACommit h ∧ w_txs w !! h = Some tx
                  ∧ published tx (w_db w) = true.
Proof.
  destruct a as [pctx|h' key|h' key v|h'|h'|h' cause| |order]; try done.
  simpl. destruct (w_txs w !! h') as [tx|] eqn:Hh; [|done].
  intros Hp. by exists h', tx.
Qed.

Lemma step_versions w a :
  versions (w_db (step w a)) =
  if publishes w a then versions (w_db w) ++ [fresh (dom (objs (w_db w)))]
  else if isGC a then sweep (w_db w)
  else versions (w_db w).
Proof.
  destruct (actsOn a) as [h|] eqn:Ha.
  - assert (isGC a = false) as -> by (by destruct a).
    destruct (w_txs w !! h) as [tx|] eqn:Hh.
    + destruct (step_handle_cases w a h tx Ha Hh) as [[Hst ->]|(_ & _ & ->)].
      * destruct (publishes w a) eqn:Hp; [|done].
        apply publishes_handle in Hp as (h' & tx0 & -> & Hh' & Hp).
        simpl in Ha. injection Ha as ->. rewrite Hh in Hh'. injection Hh' as <-.
        assert (tx_state tx = txActive) as Hact.
        { unfold published in Hp. by apply bool_decide_eq_true in Hp as (? & _). }
        simpl in Hst. exfalso. revert Hst. unfold Commit. rewrite Hact. simpl.
        destruct (tx_ctx tx); [done|]. by destruct (commit _ _).
      * by destruct (publishes w a).
    + rewrite (step_handle_missing _ _ h) by done.
      destruct (publishes w a) eqn:Hp; [|done].
      apply publishes_handle in Hp as (h' & tx0 & -> & Hh' & _).
      simpl in Ha. injection Ha as ->. congruence.
  - assert (publishes w a = false) as -> by (by destruct a).
    destruct a; try done; simpl.
    + unfold collectVersions.
      rewrite collectVersionsFrom_filter, minSnapshotID_of_current. done.
    + apply objs_detectDeadlocks.
Qed.

Lemma vid_step_old w a l :
  is_Some (objs (w_db w) !! l) → vid (w_db (step w a)) l = vid (w_db w) l.
Proof.
  intros [ver Hl]. pose proof (objs_shape _ _ _ Hl) as Hs.
  pose proof (step_shape_old w a _ _ Hs) as Hs'.
  unfold vid. apply shape_deref in Hs as [-> _].
  by apply shape_deref in Hs' as [-> _].
Qed.

Lemma rc_step_gc w l :
  deref (w_db (step w AGC)) l = deref (w_db w) l.
Proof.
  unfold deref. simpl. unfold collectVersions.
  by rewrite collectVersionsFrom_filter.
Qed.

Lemma keepVersion_current m :
  is_Some (objs m !! current m) →
  keepVersion m (currentVersionID m) (currentVersionID m) (current m) = true.
Proof.
  intros [cur Hc]. unfold keepVersion, currentVersionID, deref. rewrite Hc.
  simpl. by rewrite Z.eqb_refl.
Qed.

Lemma filter_last {A} (p : A → bool) (xs : list A) x :
  last xs = Some x → p x = true → last (List.filter p xs) = Some x.
Proof.
  intros [xs' ->]%last_Some Hp. rewrite List.filter_app. simpl. rewrite Hp.
  apply last_snoc.
Qed.

Lemma filter_elem_of {A} (p : A → bool) (xs : list A) x :
  x ∈ List.filter p xs ↔ x ∈ xs ∧ p x = true.
Proof. by rewrite !list_elem_of_In, filter_In. Qed.

Lemma filter_StronglySorted {A B} (R : relation B) (f : A → B) (p : A → bool)
    (xs : list A) :
  StronglySorted R (f <$> xs) → StronglySorted R (f <$> List.filter p xs).
Proof.
  induction xs as [|x xs IH]; [done|]. rewrite fmap_cons.
  intros [Hall Hs]%StronglySorted_cons. simpl.
  destruct (p x); [|by apply IH]. rewrite fmap_cons.
  apply StronglySorted_cons. split; [|by apply IH].
  rewrite Forall_fmap in *. rewrite Forall_forall in *.
  intros y [Hy _]%filter_elem_of. by apply Hall.
Qed.

(** ** The current version and the pinned snapshots stay listed *)






(** ** The versions list is sorted by id *)

Lemma step_VersionsList c w a :
  Alloc w → VersionIds c w →
  c + (if isCommit a then 1 else 0) < 2 ^ 64 →
  VersionsList w → VersionsList (step w a).
Proof.
  intros [Hcur _] (n & Hn & Hnext & Hbound & _ & _) Hc (Hall & Hsort & Hlast).
  assert (vid (w_db (step w a)) <$> versions (w_db w)
          = vid (w_db w) <$> versions (w_db w)) as Hvid.
  { apply Forall_fmap_ext. eapply Forall_impl; [exact Hall|].
    intros l Hl. by apply vid_step_old. }
  assert (Forall (λ l, is_Some (objs (w_db (step w a)) !! l))
                 (versions (w_db w))) as Hall'.
  { eapply Forall_impl; [exact Hall|]. intros l Hl. by apply step_alloc_old. }
  pose proof (step_current_alloc w a Hcur) as Hcur'.
  unfold VersionsList. rewrite step_versions.
  destruct (publishes w a) eqn:Hp.
  - rewrite (publishes_isCommit _ _ Hp) in Hc.
    assert (current (w_db (step w a)) = fresh (dom (objs (w_db w)))) as Hfr
      by (by rewrite step_current, Hp).
    rewrite <- Hfr. split; [|split].
    + apply Forall_app. split; [done|]. by apply Forall_singleton.
    + rewrite fmap_app, Hvid. apply StronglySorted_app. split; [|split].
      * intros x1 x2 Hx1 Hx2. simpl in Hx2.
        apply list_elem_of_singleton in Hx2 as ->.
        apply list_elem_of_fmap in Hx1 as (l & -> & Hl).
        rewrite Forall_forall in Hall. destruct (Hall l Hl) as [ver Hv].
        pose proof (Hbound _ _ _ (objs_shape _ _ _ Hv)) as Hle.
        assert (vid (w_db w) l = ver_id ver) as ->
          by (unfold vid, deref; by rewrite Hv).
        destruct (step_shape_pub w a) as (d & Hshape).
        specialize (Hshape (current (w_db (step w a)))).
        rewrite Hp, Hfr, bool_decide_eq_true_2 in Hshape by done. simpl in Hshape.
        rewrite Hfr. unfold vid. apply shape_deref in Hshape as [-> _].
        rewrite Hnext, wrap64_small by lia. lia.
      * done.
      * simpl. repeat constructor.
    + apply last_snoc.
  - rewrite step_current, Hp. destruct (isGC a) eqn:Hg.
    + assert (a = AGC) as -> by (by destruct a).
      split; [|split].
      * apply Forall_forall. intros l [Hl _]%filter_elem_of.
        rewrite Forall_forall in Hall'. by apply Hall'.
      * assert (vid (w_db (step w AGC)) <$> sweep (w_db w)
                = vid (w_db w) <$> sweep (w_db w)) as ->.
        { apply Forall_fmap_ext, Forall_forall. intros l _. unfold vid.
          by rewrite rc_step_gc. }
        by apply filter_StronglySorted.
      * apply filter_last; [done|]. by apply keepVersion_current.
    + split; [done|]. split; [by rewrite Hvid|done].
Qed.

Lemma run_VersionsList (acts : list (action K V)) :
  commits acts < 2 ^ 64 → VersionsList (run initWorld acts).
Proof.
  induction acts as [|a acts IH] using rev_ind; intros Hc.
  - split; [|split]; simpl.
    + apply Forall_singleton. by eexists.
    + repeat constructor.
    + done.
  - rewrite commits_snoc in Hc.
    assert (commits acts < 2 ^ 64) as Hc' by (destruct (isCommit a); lia).
    rewrite run_snoc. apply (step_VersionsList (commits acts)).
    + apply run_Alloc, initWorld_Alloc.
    + by apply run_VersionIds.
    + done.
    + by apply IH.
Qed.

(** ** Entries are written by transactions that have terminated *)

Lemma step_txs_terminal w a (h : nat) tx :
  w_txs w !! h = Some tx → tx_state tx ≠ txActive →
  ∃ tx', w_txs (step w a) !! h = Some tx'
         ∧ tx_id tx' = tx_id tx ∧ tx_state tx' = tx_state tx.
Proof.
  intros Hh Hn. apply lookup_lt_Some in Hh as Hlt.
  rewrite step_txs_lookup by done. rewrite Hh.
  destruct (decide (actsOn a = Some h)); [|by exists tx].
  eexists. split; [done|]. split; [apply txAfter_fields|].
  by apply txAfter_terminal.
Qed.

Lemma step_WritersDone w a :
  Alloc w → WritersDone w → WritersDone (step w a).
Proof.
  intros [_ Halloc] Hwd l ver k vv Hl Hk.
  apply objs_shape, step_shape_cases in Hl
    as [Hold | (h & tx & -> & Hh & Hp & [= _ Hd])].
  - apply shape_objs in Hold as (ver0 & Hl0 & _ & Hd). rewrite <- Hd in Hk.
    destruct (Hwd l ver0 k vv Hl0 Hk) as (h & tx & Hh & Hid & Hn).
    destruct (step_txs_terminal w a h tx Hh Hn) as (tx' & Hh' & Hid' & Hst').
    exists h, tx'. split; [done|]. split; [congruence|]. by rewrite Hst'.
  - rewrite Hd in Hk. apply lookup_union_Some_raw in Hk as [Hw | [_ Hc]].
    + destruct (Halloc h tx Hh) as [_ Hst]. rewrite (Hst k vv Hw).
      assert (tx_state tx = txActive) as Hact.
      { unfold published in Hp. by apply bool_decide_eq_true in Hp as (? & _). }
      exists h, (txAfter (ACommit h) (w_db w) tx).
      split; [|split; [apply txAfter_fields|]].
      * rewrite (step_txs_handle w (ACommit h) h tx) by done.
        apply list_lookup_insert_eq. by eapply lookup_lt_Some.
      * simpl. unfold Commit. rewrite Hact. simpl.
        destruct (tx_ctx tx); [done|]. by destruct (commit _ _).
    + unfold deref in Hc.
      destruct (objs (w_db w) !! current (w_db w)) as [cur|] eqn:Hc0;
        simpl in Hc; [|by rewrite lookup_empty in Hc].
      destruct (Hwd _ cur k vv Hc0 Hc) as (h0 & tx0 & Hh0 & Hid & Hn).
      destruct (step_txs_terminal w (ACommit h) h0 tx0 Hh0 Hn)
        as (tx' & Hh' & Hid' & Hst').
      exists h0, tx'. split; [done|]. split; [congruence|]. by rewrite Hst'.
Qed.

Lemma run_WritersDone (acts : list (action K V)) :
  WritersDone (run initWorld acts).
Proof.
  induction acts as [|a acts IH] using rev_ind.
  - intros l ver k vv Hl Hk. simpl in Hl.
    apply lookup_singleton_Some in Hl as [_ <-]. simpl in Hk.
    by rewrite lookup_empty in Hk.
  - rewrite run_snoc. apply step_WritersDone; [|done].
    apply run_Alloc, initWorld_Alloc.
Qed.

(** ** How many versions a sweep can retain *)

Lemma StronglySorted_lt_NoDup {A} (f : A → Z) (xs : list A) :
  StronglySorted Z.lt (f <$> xs) → NoDup xs.
Proof.
  induction xs as [|x xs IH]; [constructor|]. rewrite fmap_cons.
  intros [Hall Hs]%StronglySorted_cons. constructor; [|by apply IH].
  intros Hx. rewrite Forall_fmap, Forall_forall in Hall.
  specialize (Hall x Hx). simpl in Hall. lia.
Qed.








End HandleSteps.

(** * Further properties of runs of the store *)

Section MoreOnRuns.
Context {K : Type} `{Countable K} {V : Type}.
Implicit Types (m : MVCCMap K V) (tx : Tx K V) (k : K) (v : V).
Implicit Types (w : World K V) (a : action K V) (l : loc).

(** X5.  Repeatable read: in any reachable world, whatever other
    transactions, the reclaimer and the detector do between two operations
    of a transaction, its handle is unchanged and [Get] returns for every key
    what it returned before. *)
Theorem X5_repeatable_read (acts0 acts : list (action K V)) (h : nat) tx k :
  w_txs (run initWorld acts0) !! h = Some tx →
  Forall (λ a, actsOn a ≠ Some h) acts →
  w_txs (run (run initWorld acts0) acts) !! h = Some tx
  ∧ (Get k tx (w_db (run (run initWorld acts0) acts))).1
    = (Get k tx (w_db (run initWorld acts0))).1.
Proof. apply Get_stable_under_others. Qed.

(** The store after a publishing [Commit], seen through [shape]. *)
Lemma Commit_published_view tx m :
  published tx m = true →
  current (Commit tx m).2 = fresh (dom (objs m))
  ∧ shape (Commit tx m).2 (fresh (dom (objs m)))
    = Some (wrap64 (nextVersionID m + 1),
            tx_writes tx ∪ ver_data (deref m (current m)))
  ∧ ∀ l, is_Some (objs m !! l) → shape (Commit tx m).2 l = shape m l.
Proof.
  intros Hp. rewrite current_Commit, Hp. split; [done|]. split.
  - rewrite shape_Commit, Hp. by rewrite decide_True.
  - intros l Hl. rewrite shape_Commit, Hp. rewrite decide_False; [done|].
    intros ->. apply (is_fresh (dom (objs m))). by apply elem_of_dom.
Qed.

Lemma conflictOn_same_entry (cur snap : version K V) k :
  ver_data cur !! k = ver_data snap !! k → conflictOn cur snap k = false.
Proof.
  intros Heq. unfold conflictOn. rewrite <- Heq.
  destruct (ver_data cur !! k) as [cv|]; [|done].
  rewrite Z.eqb_refl. simpl. by destruct (_ && _).
Qed.

Lemma Commit_no_conflict tx m :
  tx_state tx = txActive → tx_ctx tx = None →
  (∀ k, is_Some (tx_writes tx !! k) →
        conflictOn (deref m (current m)) (deref m (tx_snapshot tx)) k = false) →
  published tx m = true.
Proof.
  intros Ha Hc Hno. apply bool_decide_eq_true. split; [done|]. split; [done|].
  destruct (commit_err_cases (set_state txCommitted tx) m) as [|Hcf]; [done|].
  apply commit_conflict_iff in Hcf as (k & Hw & Hk). simpl in Hw, Hk.
  by rewrite (Hno k Hw) in Hk.
Qed.

(** X6.  Writers of disjoint keys do not conflict.  In any reachable
    world, take two active transactions that both began on the current
    version and buffered writes to disjoint sets of keys: the first commits,
    then the second commits too, and the resulting current version holds the
    writes of both over the previous current map. *)
Theorem X6_disjoint_writers_both_commit
    (acts : list (action K V)) (h1 h2 : nat) tx1 tx2 :
  let m := w_db (run initWorld acts) in
  let m1 := (Commit tx1 m).2 in
  let m2 := (Commit tx2 m1).2 in
  w_txs (run initWorld acts) !! h1 = Some tx1 →
  w_txs (run initWorld acts) !! h2 = Some tx2 →
  tx_state tx1 = txActive → tx_ctx tx1 = None →
  tx_state tx2 = txActive → tx_ctx tx2 = None →
  tx_snapshot tx1 = current m → tx_snapshot tx2 = current m →
  (∀ k, tx_writes tx1 !! k = None ∨ tx_writes tx2 !! k = None) →
  (Commit tx1 m).1.1 = None
  ∧ (Commit tx2 m1).1.1 = None
  ∧ ver_data (deref m2 (current m2))
    = tx_writes tx2 ∪ (tx_writes tx1 ∪ ver_data (deref m (current m))).
Proof.
  intros m m1 m2 Hh1 Hh2 Ha1 Hc1 Ha2 Hc2 Hs1 Hs2 Hdisj.
  assert (Alloc (run initWorld acts)) as [Hcur _]
    by apply run_Alloc, initWorld_Alloc.
  fold m in Hcur.
  assert (published tx1 m = true) as Hp1.
  { apply Commit_no_conflict; [done..|]. intros k _. rewrite Hs1.
    by apply conflictOn_same_entry. }
  destruct (Commit_published_view tx1 m Hp1) as (Hcur1 & Hnew1 & Hold1).
  fold m1 in Hcur1, Hnew1, Hold1.
  assert (ver_data (deref m1 (current m1))
          = tx_writes tx1 ∪ ver_data (deref m (current m))) as Hd1.
  { rewrite Hcur1. by apply shape_deref in Hnew1 as [_ ->]. }
  assert (ver_data (deref m1 (tx_snapshot tx2)) = ver_data (deref m (current m)))
    as Hsnap.
  { rewrite Hs2. destruct Hcur as [cur Hc].
    pose proof (Hold1 _ (ex_intro _ cur Hc)) as Hsh.
    rewrite (objs_shape _ _ _ Hc) in Hsh.
    apply shape_deref in Hsh as [_ ->]. unfold deref. by rewrite Hc. }
  assert (published tx2 m1 = true) as Hp2.
  { apply Commit_no_conflict; [done..|]. intros k Hw.
    apply conflictOn_same_entry. rewrite Hd1, Hsnap.
    destruct (Hdisj k) as [Hn|Hn]; [|rewrite Hn in Hw; by destruct Hw].
    by apply lookup_union_r. }
  destruct (Commit_published_view tx2 m1 Hp2) as (Hcur2 & Hnew2 & _).
  fold m2 in Hcur2, Hnew2.
  split; [by apply Commit_ok_published|].
  split; [by apply Commit_ok_published|].
  rewrite Hcur2. apply shape_deref in Hnew2 as [_ ->]. by rewrite Hd1.
Qed.

(** X7.  First committer wins.  In any world reached before a counter
    wraps, if a transaction's [Commit] publishes a write to key [k], then any
    other transaction that is still active at that moment and has buffered a
    write to [k] gets [ErrConflict] from its own [Commit] afterwards. *)
Theorem X7_first_committer_wins
    (acts : list (action K V)) (h1 h2 : nat) tx1 tx2 k :
  let m := w_db (run initWorld acts) in
  begins acts < 2 ^ 63 → commits acts + 1 < 2 ^ 64 →
  w_txs (run initWorld acts) !! h1 = Some tx1 →
  w_txs (run initWorld acts) !! h2 = Some tx2 →
  h1 ≠ h2 →
  (Commit tx1 m).1.1 = None →
  tx_state tx2 = txActive → tx_ctx tx2 = None →
  is_Some (tx_writes tx1 !! k) → is_Some (tx_writes tx2 !! k) →
  (Commit tx2 (Commit tx1 m).2).1.1 = Some ErrConflict.
Proof.
  intros m Hb Hc Hh1 Hh2 Hne Hok Ha2 Hc2 [vv1 Hw1] Hw2.
  set (w := run initWorld acts) in *.
  assert (Alloc w) as [Hcur Halloc] by apply run_Alloc, initWorld_Alloc.
  destruct (run_Accounting acts Hb) as (_ & Hids & _).
  pose proof (run_WritersDone acts) as Hwd.
  destruct (run_VersionIds acts) as (n & Hn & Hnext & Hbound & _); [lia|].
  fold w in Hids, Hwd, Hnext, Hbound. fold m in Hnext, Hbound, Hcur.
  apply Commit_ok_published in Hok as Hp1.
  assert (tx_state tx1 = txActive) as Ha1.
  { unfold published in Hp1. by apply bool_decide_eq_true in Hp1 as (? & _). }
  destruct (Commit_published_view tx1 m Hp1) as (Hcur1 & Hnew1 & Hold1).
  set (m1 := (Commit tx1 m).2) in *.
  destruct (Halloc h1 tx1 Hh1) as [_ Hst1].
  destruct (Halloc h2 tx2 Hh2) as [[snap Hsnap] _]. fold m in Hsnap.
  pose proof (Hold1 _ (ex_intro _ snap Hsnap)) as Hsh2.
  rewrite (objs_shape _ _ _ Hsnap) in Hsh2.
  apply shape_deref in Hsh2 as [Hid2 Hd2].
  apply shape_deref in Hnew1 as [Hid1 Hd1]. rewrite <- Hcur1 in Hid1, Hd1.
  assert ((commit (set_state txCommitted tx2) m1).1 = Some ErrConflict) as Hcf.
  { apply commit_conflict_iff. exists k. split; [done|]. simpl.
    apply conflictOn_true. exists vv1.
    split; [rewrite Hd1; by apply lookup_union_Some_l|].
    rewrite (Hst1 k vv1 Hw1), (Hids h1 tx1 Hh1).
    split; [lia|]. split.
    { rewrite Hid1, Hid2, Hnext, wrap64_small by lia.
      pose proof (Hbound _ _ _ (objs_shape _ _ _ Hsnap)). lia. }
    rewrite Hd2. destruct (ver_data snap !! k) as [sv|] eqn:Hsv; [|by left].
    right. exists sv. split; [done|].
    destruct (Hwd _ snap k sv Hsnap Hsv) as (h0 & tx0 & Hh0 & Hid0 & Hn0).
    rewrite <- Hid0, (Hids h0 tx0 Hh0). intros Heq.
    assert (h0 = h1) as -> by lia. congruence. }
  rewrite Commit_active_live by done. done.
Qed.

End MoreOnRuns.

(** * The bookkeeping of reachable worlds, and the reclaimer on them *)

Section Bookkeeping.
Context {K : Type} `{Countable K} {V : Type}.
Implicit Types (m : MVCCMap K V) (tx : Tx K V) (k : K) (v : V).
Implicit Types (w : World K V) (a : action K V) (l : loc).

Lemma activeCount_zero (txs : list (Tx K V)) (h : nat) tx :
  activeCount txs = 0%nat → txs !! h = Some tx → tx_state tx ≠ txActive.
Proof.
  unfold activeCount. intros Hz Hh Ha.
  assert (tx ∈ List.filter (λ tx, bool_decide (tx_state tx = txActive)) txs)
    as Hin.
  { apply filter_elem_of. split; [by eapply list_elem_of_lookup_2|].
    by apply bool_decide_eq_true. }
  destruct (List.filter _ txs); [by apply elem_of_nil in Hin|done].
Qed.

Lemma pins_le_activeCount (txs : list (Tx K V)) l :
  (pins txs l ≤ activeCount txs)%nat.
Proof.
  unfold pins, activeCount. induction txs as [|tx txs IH]; [done|].
  cbn [List.filter]. unfold activeOn at 1.
  destruct (decide (tx_state tx = txActive)) as [Ha|Hn].
  - rewrite (bool_decide_eq_true_2 (tx_state tx = txActive)) by done.
    destruct (bool_decide _); cbn [length]; lia.
  - rewrite (bool_decide_eq_false_2 (tx_state tx = txActive)) by done.
    rewrite bool_decide_eq_false_2 by (by intros [? _]). done.
Qed.


(** X8.  Reference counts are exact.  While fewer than 2^63 transactions
    have been begun, in every reachable world the reference count of every
    version object is the number of active transactions whose snapshot it
    is; so once no transaction is active every count is back to zero. *)
Theorem X8_refCount_counts_active_snapshots (acts : list (action K V)) :
  begins acts < 2 ^ 63 →
  let w := run initWorld acts in
  (∀ l ver, objs (w_db w) !! l = Some ver →
            ver_refCount ver = Z.of_nat (pins (w_txs w) l))
  ∧ (activeCount (w_txs w) = 0%nat →
     ∀ l ver, objs (w_db w) !! l = Some ver → ver_refCount ver = 0).
Proof.
  intros Hb w. destruct (run_Accounting acts Hb) as (_ & _ & _ & Hrc).
  fold w in Hrc.
  split; [done|]. intros Hz l ver Hl. rewrite (Hrc l ver Hl).
  pose proof (pins_le_activeCount (w_txs w) l). lia.
Qed.

(** X9.  The registry is the set of active transactions.  While fewer
    than 2^63 transactions have been begun, in every reachable world the
    transaction behind handle [h] has id [h + 1], an id is registered in
    [activeTxs] exactly when an active transaction has it, and the registry is
    empty once no transaction is active. *)
Theorem X9_registry_holds_active_transactions (acts : list (action K V)) :
  begins acts < 2 ^ 63 →
  let w := run initWorld acts in
  (∀ (h : nat) tx, w_txs w !! h = Some tx → tx_id tx = Z.of_nat h + 1)
  ∧ (∀ (h : nat) tx, w_txs w !! h = Some tx →
       (is_Some (activeTxs (w_db w) !! tx_id tx) ↔ tx_state tx = txActive))
  ∧ (∀ id, is_Some (activeTxs (w_db w) !! id) →
           ∃ (h : nat) tx, w_txs w !! h = Some tx ∧ tx_id tx = id
                           ∧ tx_state tx = txActive)
  ∧ (activeCount (w_txs w) = 0%nat → activeTxs (w_db w) = ∅).
Proof.
  intros Hb w. destruct (run_Accounting acts Hb) as (_ & Hids & Hreg & _).
  fold w in Hids, Hreg.
  split; [done|]. split; [|split].
  - intros h tx Hh. rewrite Hreg. split.
    + intros (h' & tx' & Hh' & Hid & Ha).
      rewrite (Hids _ _ Hh), (Hids _ _ Hh') in Hid.
      assert (h' = h) as -> by lia. congruence.
    + intros Ha. by exists h, tx.
  - intros id Hid. by apply Hreg.
  - intros Hz. apply map_empty. intros id.
    destruct (activeTxs (w_db w) !! id) as [meta|] eqn:Hm; [|done].
    destruct (proj1 (Hreg id)) as (h & tx & Hh & _ & Ha); [by eexists|].
    by destruct (activeCount_zero _ _ _ Hz Hh).
Qed.

Lemma versions_collectVersions m :
  versions (collectVersions m) = sweep m.
Proof.
  unfold collectVersions. rewrite collectVersionsFrom_filter. simpl.
  by rewrite minSnapshotID_of_current.
Qed.


(** X11.  Version ids grow along the versions list.  While fewer than
    2^64 commits have published, in every reachable world the versions list
    holds allocated version objects in strictly increasing order of id (so no
    object twice), and its last element is the current version. *)
Theorem X11_versions_sorted_by_id (acts : list (action K V)) :
  commits acts < 2 ^ 64 →
  let m := w_db (run initWorld acts) in
  Forall (λ l, is_Some (objs m !! l)) (versions m)
  ∧ StronglySorted Z.lt ((λ l, ver_id (deref m l)) <$> versions m)
  ∧ NoDup (versions m)
  ∧ last (versions m) = Some (current m).
Proof.
  intros Hc m. destruct (run_VersionsList acts Hc) as (Hall & Hs & Hlast).
  split; [done|]. split; [done|]. split; [|done].
  by apply (StronglySorted_lt_NoDup (vid m)).
Qed.



Lemma filter_all_true {A} (p : A → bool) (xs : list A) :
  (∀ x, x ∈ xs → p x = true) →
  List.filter p xs = xs ∧ List.filter (λ x, negb (p x)) xs = [].
Proof.
  induction xs as [|x xs IH]; intros Hp; [done|]. simpl.
  rewrite (Hp x) by left. simpl.
  destruct IH as [-> ->]; [|done]. intros y Hy. apply Hp. by right.
Qed.

Lemma filter_sublist {A} (p : A → bool) (xs : list A) :
  sublist (List.filter p xs) xs.
Proof.
  induction xs as [|x xs IH]; [constructor|]. simpl.
  destruct (p x); by constructor.
Qed.

Lemma collectVersions_fields m :
  objs (collectVersions m) = objs m ∧ current (collectVersions m) = current m
  ∧ activeTxs (collectVersions m) = activeTxs m
  ∧ nextTxID (collectVersions m) = nextTxID m
  ∧ nextVersionID (collectVersions m) = nextVersionID m.
Proof. unfold collectVersions. by rewrite collectVersionsFrom_filter. Qed.

(** A store whose versions list holds nothing to drop is left as it is. *)
Lemma collectVersions_fixed m :
  (∀ l, l ∈ versions m →
        keepVersion m (currentVersionID m) (currentVersionID m) l = true) →
  collectVersions m = m.
Proof.
  intros Hall. unfold collectVersions.
  rewrite collectVersionsFrom_filter, minSnapshotID_of_current.
  destruct (filter_all_true _ _ Hall) as [-> ->].
  rewrite fmap_nil, app_nil_r. by destruct m.
Qed.

(** X13.  A reclaimer tick only drops versions, and a second tick right
    after it does nothing.  On any store, [collectVersions] leaves a sublist
    of the versions list and touches no version object, counter or registry;
    run again on its result it returns that store unchanged, log included. *)
Theorem X13_collectVersions_idempotent m :
  let m1 := collectVersions m in
  sublist (versions m1) (versions m)
  ∧ objs m1 = objs m ∧ current m1 = current m
  ∧ activeTxs m1 = activeTxs m
  ∧ nextTxID m1 = nextTxID m ∧ nextVersionID m1 = nextVersionID m
  ∧ collectVersions m1 = m1.
Proof.
  intros m1.
  destruct (collectVersions_fields m) as (Ho & Hc & Ha & Hn & Hv).
  fold m1 in Ho, Hc, Ha, Hn, Hv.
  split; [unfold m1; rewrite versions_collectVersions; apply filter_sublist|].
  do 5 (split; [done|]).
  apply collectVersions_fixed. intros l Hl.
  assert (currentVersionID m1 = currentVersionID m) as ->
    by (unfold currentVersionID; by rewrite Ho, Hc).
  unfold m1 in Hl. rewrite versions_collectVersions in Hl.
  apply filter_elem_of in Hl as [_ Hk].
  unfold keepVersion, deref in *. by rewrite Ho.
Qed.

(** X14.  The detector finds nothing on a reachable store.  No operation
    of the store ever records a wait-for edge, so in every reachable world
    the wait-for graph is empty, and a detector tick, whatever the order in
    which it enumerates the registry, reports no cycle and returns the store
    unchanged, log included. *)
Theorem X14_detector_idle_on_reachable_stores
    (acts : list (action K V)) (order : list Z) :
  let m := w_db (run initWorld acts) in
  waitForGraph m = ∅
  ∧ findCycle order m = None
  ∧ detectDeadlocks order m = m.
Proof.
  intros m. pose proof (run_NoWaits acts) as Hnw. fold m in Hnw.
  split; [by apply NoWaits_graph|]. by apply detectDeadlocks_NoWaits.
Qed.

End Bookkeeping.

(** * The cycle search of the detector, on any registry *)

Section CycleSearch.
Implicit Types (graph : gmap Z Z) (st : dfsState) (id : Z).

Lemma walk_S_r graph (n : nat) x :
  walk graph (S n) x = walk graph n x ≫= λ y, graph !! y.
Proof.
  revert x. induction n as [|n IH]; intros x.
  - simpl. by destruct (graph !! x).
  - change (walk graph (S (S n)) x) with (graph !! x ≫= walk graph (S n)).
    change (walk graph (S n) x) with (graph !! x ≫= walk graph n).
    destruct (graph !! x) as [y|]; [|done]. simpl. apply IH.
Qed.

Lemma onCycle_next graph x y :
  graph !! x = Some y → onCycle graph x → onCycle graph y.
Proof.
  intros Hxy [n Hn]. exists n. rewrite walk_S_r.
  change (walk graph (S n) x) with (graph !! x ≫= walk graph n) in Hn.
  rewrite Hxy in Hn. simpl in Hn. rewrite Hn. done.
Qed.

Lemma onCycle_edge graph x : onCycle graph x → is_Some (graph !! x).
Proof.
  intros [n Hn].
  change (walk graph (S n) x) with (graph !! x ≫= walk graph n) in Hn.
  destruct (graph !! x); [by eexists|done].
Qed.

Lemma waitChain_snoc graph (ids : list Z) x y :
  waitChain graph ids → last ids = Some x → graph !! y = Some x →
  waitChain graph (ids ++ [y]).
Proof.
  induction ids as [|a [|b ids] IH]; intros Hc Hl Hy.
  - done.
  - injection Hl as ->. by split.
  - destruct Hc as [Hab Hc]. split; [done|]. by apply IH.
Qed.

(** ** Soundness: what [dfs] returns is a real chain that closes on a cycle

    Invariant of the recursion: every id on the stack reaches, along at
    least one edge, the id [dfs] is called on. *)
Lemma dfs_sound graph (fuel : nat) :
  ∀ id st cycle st',
    (∀ x, x ∈ inStack st → ∃ n, walk graph (S n) x = Some id) →
    dfs fuel graph id st = Some (Some cycle, st') →
    ∃ c rest, cycle = c :: rest ∧ onCycle graph c
              ∧ last cycle = Some id ∧ waitChain graph cycle
              ∧ (c ∈ inStack st ∨ c ∈ rest).
Proof.
  induction fuel as [|fuel IH]; intros id st cycle st' Hstack; [done|].
  cbn [dfs]. destruct (decide (id ∈ inStack st)) as [Hin|Hnin].
  { intros [= <- <-]. exists id, []. split; [done|].
    split; [by apply Hstack|]. split; [done|]. split; [done|]. by left. }
  destruct (decide (id ∈ visited st)); [done|].
  destruct (graph !! id) as [next|] eqn:Hnext; [|done].
  destruct (dfs fuel graph next _) as [[[cyc|] st2]|] eqn:Hrec; [|done..].
  intros [= <- <-].
  apply IH in Hrec as (c & rest & -> & Hc & Hlast & Hchain & Hmem).
  - exists c, (rest ++ [id]). split; [done|]. split; [done|].
    split; [apply last_snoc|].
    split; [by apply (waitChain_snoc _ _ next)|].
    simpl in Hmem. destruct Hmem as [[->%elem_of_singleton|Hin]%elem_of_union|Hin].
    + right. apply elem_of_app. right. by left.
    + by left.
    + right. apply elem_of_app. by left.
  - cbn [inStack]. intros x [->%elem_of_singleton|Hx]%elem_of_union.
    + exists 0%nat. simpl. by rewrite Hnext.
    + destruct (Hstack x Hx) as [j Hj]. exists (S j).
      rewrite walk_S_r, Hj. done.
Qed.

(** ** Completeness: an id that [dfs] has finished with is on no cycle *)

Lemma dfs_visited_mono graph (fuel : nat) :
  ∀ id st r st',
    dfs fuel graph id st = Some (r, st') → visited st ⊆ visited st'.
Proof.
  induction fuel as [|fuel IH]; intros id st r st'; [done|].
  cbn [dfs]. destruct (decide (id ∈ inStack st)); [by intros [= _ <-]|].
  destruct (decide (id ∈ visited st)); [by intros [= _ <-]|].
  destruct (graph !! id) as [next|].
  - destruct (dfs fuel graph next _) as [[[cyc|] st2]|] eqn:Hrec; [| |done].
    + intros [= _ <-]. apply IH in Hrec. simpl in Hrec. set_solver.
    + intros [= _ <-]. apply IH in Hrec. simpl in *. set_solver.
  - intros [= _ <-]. simpl. set_solver.
Qed.

Lemma dfs_None graph (fuel : nat) :
  ∀ id st st',
    dfs fuel graph id st = Some (None, st') →
    finishedOffCycles graph st →
    (id ∉ inStack st) ∧ id ∈ visited st' ∧ inStack st' = inStack st
    ∧ finishedOffCycles graph st'.
Proof.
  induction fuel as [|fuel IH]; intros id st st'; [done|].
  cbn [dfs]. destruct (decide (id ∈ inStack st)) as [Hin|Hnin]; [done|].
  destruct (decide (id ∈ visited st)) as [Hv|Hnv].
  { by intros [= <-] Hfin. }
  destruct (graph !! id) as [next|] eqn:Hnext.
  - destruct (dfs fuel graph next _) as [[[cyc|] st2]|] eqn:Hrec; [done| |done].
    intros [= <-] Hfin. pose proof Hrec as Hrec0.
    apply IH in Hrec as (Hn1 & Hn2 & Hstk & Hfin2).
    2:{ intros v Hv Hs. simpl in Hv, Hs. apply Hfin; set_solver. }
    simpl in Hstk, Hn1.
    assert (id ∈ visited st2) as Hidv.
    { apply (dfs_visited_mono _ _ _ _ _ _ Hrec0). simpl. set_solver. }
    split; [done|]. split; [done|]. simpl.
    split; [rewrite Hstk; set_solver|].
    intros v Hv Hs. simpl in Hv, Hs.
    destruct (decide (v = id)) as [->|Hne].
    + intros Hcyc. apply (Hfin2 next); [done|by rewrite Hstk|].
      by apply (onCycle_next _ id).
    + apply Hfin2; [done|]. rewrite Hstk. set_solver.
  - intros [= <-] Hfin. split; [done|]. simpl.
    split; [set_solver|]. split; [set_solver|].
    intros v Hv Hs. simpl in Hv, Hs.
    destruct (decide (v = id)) as [->|Hne].
    + intros [? Hsome]%onCycle_edge. by rewrite Hnext in Hsome.
    + apply Hfin; set_solver.
Qed.

Lemma dfs_None_stack graph (fuel : nat) :
  ∀ id st st',
    dfs fuel graph id st = Some (None, st') → inStack st' = inStack st.
Proof.
  induction fuel as [|fuel IH]; intros id st st'; [done|].
  cbn [dfs]. destruct (decide (id ∈ inStack st)) as [Hin|Hnin]; [done|].
  destruct (decide (id ∈ visited st)); [by intros [= <-]|].
  destruct (graph !! id) as [next|].
  - destruct (dfs fuel graph next _) as [[[cyc|] st2]|] eqn:Hrec; [done| |done].
    intros [= <-]. apply IH in Hrec. simpl in *. rewrite Hrec. set_solver.
  - intros [= <-]. simpl. set_solver.
Qed.

Lemma detectLoop_sound graph (fuel : nat) order :
  ∀ st cycle,
    inStack st = ∅ →
    detectLoop fuel graph order st = Some (Some cycle) →
    ∃ c rest, cycle = c :: rest ∧ c ∈ rest ∧ onCycle graph c
              ∧ waitChain graph cycle
              ∧ ∃ id, id ∈ order ∧ last cycle = Some id.
Proof.
  induction order as [|id order IH]; intros st cycle Hst; [done|].
  cbn [detectLoop].
  assert (∀ r, (∃ c rest, cycle = c :: rest ∧ c ∈ rest ∧ onCycle graph c
                  ∧ waitChain graph cycle
                  ∧ ∃ id', id' ∈ order ∧ last cycle = Some id') →
               r = cycle →
               ∃ c rest, r = c :: rest ∧ c ∈ rest ∧ onCycle graph c
                 ∧ waitChain graph r
                 ∧ ∃ id', id' ∈ id :: order ∧ last r = Some id') as Hweak.
  { intros r (c & rest & -> & ? & ? & ? & id' & ? & ?) ->.
    exists c, rest. repeat (split; [done|]). exists id'. split; [by right|done]. }
  destruct (decide (id ∈ visited st)).
  { intros Hrec. apply (Hweak cycle); [|done]. by apply (IH st). }
  destruct (dfs fuel graph id st) as [[[cyc|] st']|] eqn:Hdfs; [| |done].
  - intros [= <-].
    apply dfs_sound in Hdfs as (c & rest & -> & Hc & Hlast & Hchain & Hmem).
    2:{ intros x Hx. rewrite Hst in Hx. by apply elem_of_empty in Hx. }
    exists c, rest. split; [done|]. split.
    { destruct Hmem as [Hin|Hin]; [|done].
      rewrite Hst in Hin. by apply elem_of_empty in Hin. }
    split; [done|]. split; [done|]. exists id. split; [by left|done].
  - intros Hrec. apply (Hweak cycle); [|done]. apply (IH st'); [|done].
    by rewrite (dfs_None_stack _ _ _ _ _ Hdfs).
Qed.

Lemma detectLoop_None graph (fuel : nat) order :
  ∀ st,
    inStack st = ∅ → finishedOffCycles graph st →
    detectLoop fuel graph order st = Some None →
    ∀ id, id ∈ order → ¬ onCycle graph id.
Proof.
  induction order as [|id order IH]; intros st Hst Hfin;
    [by intros _ ? ?%elem_of_nil|].
  cbn [detectLoop]. destruct (decide (id ∈ visited st)) as [Hv|Hnv].
  { intros Hrec id' [->|Hin]%elem_of_cons.
    - apply Hfin; [done|]. rewrite Hst. set_solver.
    - by apply (IH st). }
  destruct (dfs fuel graph id st) as [[[cyc|] st']|] eqn:Hdfs; [done| |done].
  apply dfs_None in Hdfs as (_ & Hv' & Hstk & Hfin'); [|done].
  rewrite Hst in Hstk.
  intros Hrec id' [->|Hin]%elem_of_cons.
  - apply Hfin'; [done|]. rewrite Hstk. set_solver.
  - by apply (IH st').
Qed.

End CycleSearch.

Section Detector2.
Context {K : Type} `{Countable K} {V : Type}.
Implicit Types (m : MVCCMap K V).

(** X15.  A reported deadlock is real.  Whatever the registry holds and in
    whatever order it is enumerated, a list returned by the cycle search
    starts with an id that waits, along one or more wait-for edges, for
    itself; that id occurs again later in the list; every id of the list
    waits for the id just before it; and the last id is the one the search
    was started from. *)
Theorem X15_findCycle_sound (order : list Z) m (cycle : list Z) :
  findCycle order m = Some cycle →
  ∃ c rest, cycle = c :: rest ∧ c ∈ rest
            ∧ onCycle (waitForGraph m) c
            ∧ waitChain (waitForGraph m) cycle
            ∧ ∃ id, id ∈ order ∧ last cycle = Some id.
Proof.
  intros Hf. pose proof (findCycle_total order m) as Ht. rewrite Hf in Ht.
  by apply detectLoop_sound in Ht.
Qed.

(** X16.  No deadlock is missed.  If the enumeration of the registry
    reaches an id that waits, along one or more wait-for edges, for itself,
    the cycle search returns a list. *)
Theorem X16_findCycle_complete (order : list Z) m (id : Z) :
  id ∈ order → onCycle (waitForGraph m) id →
  is_Some (findCycle order m).
Proof.
  intros Hin Hcyc. pose proof (findCycle_total order m) as Ht.
  destruct (findCycle order m) as [cycle|]; [by eexists|].
  exfalso. apply detectLoop_None with (id := id) in Ht; [done..| |done].
  intros v Hv. simpl in Hv. by apply elem_of_empty in Hv.
Qed.

(** X17.  The victim is the largest id listed, and the store is left
    alone.  [resolveDeadlock] changes nothing in the store but the log, to
    which it adds one event with the list and the victim; the victim is at
    least every id of the list, and for a non-empty list of ids (unsigned, so
    not negative) it is one of them. *)
Theorem X17_resolveDeadlock_logs_largest_id (cycle : list Z) m :
  resolveDeadlock cycle m
  = {| objs := objs m; current := current m; nextTxID := nextTxID m;
       nextVersionID := nextVersionID m; activeTxs := activeTxs m;
       versions := versions m;
       logger := logger m ++ [LogDeadlock cycle (pickVictim cycle)] |}
  ∧ (∀ id, id ∈ cycle → id ≤ pickVictim cycle)
  ∧ (cycle ≠ [] → Forall (λ id, 0 ≤ id) cycle → pickVictim cycle ∈ cycle).
Proof.
  split; [|split].
  - unfold resolveDeadlock. simpl. by destruct (activeTxs m !! _).
  - apply pickVictim_upper.
  - intros Hne Hpos. destruct (pickVictim_member cycle) as [Hin|Hz]; [done|].
    destruct cycle as [|x cycle]; [done|].
    pose proof (pickVictim_upper (x :: cycle) x (list_elem_of_here _ _)) as Hx.
    apply Forall_inv in Hpos. assert (x = 0) as -> by lia.
    rewrite Hz. by left.
Qed.

End Detector2.

(** * What changes the committed data, and the options *)

Section CommittedData.
Context {K : Type} `{Countable K} {V : Type}.
Implicit Types (m : MVCCMap K V) (tx : Tx K V) (k : K) (v : V).
Implicit Types (w : World K V) (a : action K V) (l : loc).

Lemma shape_eq_deref m m' l :
  shape m' l = shape m l →
  ver_id (deref m' l) = ver_id (deref m l)
  ∧ ver_data (deref m' l) = ver_data (deref m l).
Proof.
  unfold shape, deref.
  destruct (objs m' !! l), (objs m !! l); simpl; intros [=]; auto.
Qed.

Lemma Get_shape_eq k tx m m' :
  shape m' (tx_snapshot tx) = shape m (tx_snapshot tx) →
  (Get k tx m').1 = (Get k tx m).1.
Proof.
  intros [_ Hd]%shape_eq_deref.
  destruct (decide (tx_state tx = txActive)) as [Ha|Hn].
  - by rewrite !Get_active_value, Hd.
  - by rewrite !Get_inactive.
Qed.

(** X18.  Uncommitted work is invisible.  Whatever the world, an action
    that is not a publishing commit (a [BeginTx], a [Get], a [Put], a
    [Rollback], a [Commit] that fails, a cancellation, a reclaimer or a
    detector tick) leaves the current version where it was and the id and
    data of every version object as they were, so that every transaction
    reads from the store what it read before. *)
Theorem X18_only_a_publishing_commit_changes_data w a :
  publishes w a = false →
  current (w_db (step w a)) = current (w_db w)
  ∧ (∀ l, shape (w_db (step w a)) l = shape (w_db w) l)
  ∧ (∀ tx k, (Get k tx (w_db (step w a))).1 = (Get k tx (w_db w)).1).
Proof.
  intros Hp. pose proof (step_current w a) as Hc. rewrite Hp in Hc.
  destruct (step_shape_pub w a) as [d Hs]. rewrite Hp in Hs. simpl in Hs.
  split; [done|]. split; [done|]. intros tx k. by apply Get_shape_eq.
Qed.

(** X19.  Version objects are immutable.  From any world, the id and the
    data of an allocated version object stay what they are through every
    run of operations, reclaimer and detector ticks included. *)
Theorem X19_version_objects_immutable w (acts : list (action K V)) l s :
  shape (w_db w) l = Some s → shape (w_db (run w acts)) l = Some s.
Proof.
  intros Hs. induction acts as [|a acts IH] using rev_ind; [done|].
  rewrite run_snoc. by apply step_shape_old.
Qed.

End CommittedData.

Section AcrossTransactions.
Context {K : Type} `{Countable K} {V : Type}.
Implicit Types (m : MVCCMap K V) (tx : Tx K V) (k : K) (v : V).
Implicit Types (w : World K V) (a : action K V) (l : loc).

(** X21.  Committed writes are what later transactions read.  Whatever
    the world, when the [Commit] of a transaction succeeds, a transaction
    begun right after it reads, for every key the committed transaction
    wrote, the value it wrote, and for every other key what the previous
    current version held. *)
Theorem X21_committed_writes_visible w (h : nat) tx pctx :
  w_txs w !! h = Some tx →
  (Commit tx (w_db w)).1.1 = None →
  let w1 := step (step w (ACommit h)) (ABegin pctx) in
  let tx' := (BeginTx pctx (w_db (step w (ACommit h)))).1 in
  w_txs w1 !! length (w_txs w) = Some tx'
  ∧ tx_state tx' = txActive
  ∧ ∀ k, (Get k tx' (w_db w1)).1 =
         match tx_writes tx !! k with
         | Some vv => Some (value vv)
         | None => value <$> ver_data (deref (w_db w) (current (w_db w))) !! k
         end.
Proof.
  intros Hh Hok w1 tx'. apply Commit_ok_published in Hok as Hp.
  destruct (Commit_published_view tx (w_db w) Hp) as (Hcur & Hnew & _).
  assert (w_db (step w (ACommit h)) = (Commit tx (w_db w)).2) as Hdb
    by (by rewrite step_db, Hh).
  split.
  { unfold w1, tx'. rewrite <- (step_txs_begin (step w (ACommit h)) pctx).
    by rewrite step_txs_length. }
  split; [done|]. intros k.
  rewrite Get_active_value by done.
  change (tx_writes tx') with (∅ : gmap K (versionedValue V)).
  rewrite lookup_empty.
  assert (shape (w_db w1) (tx_snapshot tx')
          = Some (wrap64 (nextVersionID (w_db w) + 1),
                  tx_writes tx ∪ ver_data (deref (w_db w) (current (w_db w)))))
    as Hs.
  { unfold w1. rewrite step_db, shape_BeginTx.
    change (tx_snapshot tx') with (current (w_db (step w (ACommit h)))).
    by rewrite Hdb, Hcur. }
  apply shape_deref in Hs as [_ ->].
  destruct (tx_writes tx !! k) as [vv|] eqn:Hw.
  - by rewrite (lookup_union_Some_l _ _ _ _ Hw).
  - rewrite lookup_union_r by done.
    by destruct (ver_data (deref (w_db w) (current (w_db w))) !! k).
Qed.

Lemma run_current_no_commit w (acts : list (action K V)) :
  Forall (λ a, isCommit a = false) acts →
  current (w_db (run w acts)) = current (w_db w).
Proof.
  induction acts as [|a acts IH] using rev_ind; intros Hnc; [done|].
  apply Forall_app in Hnc as [Hnc Ha]. apply Forall_inv in Ha.
  rewrite run_snoc, step_current.
  destruct (publishes (run w acts) a) eqn:Hp; [|by apply IH].
  apply publishes_isCommit in Hp. congruence.
Qed.

Lemma run_txs_old w (acts : list (action K V)) (h : nat) tx :
  w_txs w !! h = Some tx →
  ∃ tx', w_txs (run w acts) !! h = Some tx'
         ∧ tx_snapshot tx' = tx_snapshot tx.
Proof.
  intros Hh. induction acts as [|a acts IH] using rev_ind; [by exists tx|].
  destruct IH as (tx1 & Hh1 & Hs1). rewrite run_snoc.
  destruct (step_txs_old _ a h tx1 Hh1) as (tx2 & Hh2 & (_ & Hs2 & _) & _).
  exists tx2. split; [done|]. congruence.
Qed.

(** X22.  No conflict without a commit in between.  Whatever the world a
    transaction begins in, as long as no [Commit] has been called since,
    by it or by anyone else, its [Commit] does not return [ErrConflict]; if it
    is still active and its context has not fired, the [Commit] succeeds. *)
Theorem X22_no_conflict_without_a_commit
    w0 pctx (acts : list (action K V)) :
  Forall (λ a, isCommit a = false) acts →
  let w := run (step w0 (ABegin pctx)) acts in
  ∃ tx, w_txs w !! length (w_txs w0) = Some tx
        ∧ (Commit tx (w_db w)).1.1 ≠ Some ErrConflict
        ∧ (tx_state tx = txActive → tx_ctx tx = None →
           (Commit tx (w_db w)).1.1 = None).
Proof.
  intros Hnc w.
  destruct (run_txs_old (step w0 (ABegin pctx)) acts _ _
              (step_txs_begin w0 pctx)) as (tx & Hh & Hs).
  fold w in Hh. exists tx. split; [done|].
  assert (tx_snapshot tx = current (w_db w)) as Hsnap.
  { rewrite Hs. unfold w. rewrite run_current_no_commit by done.
    by rewrite step_current. }
  assert (tx_state tx = txActive → tx_ctx tx = None →
          (Commit tx (w_db w)).1.1 = None) as Hlive.
  { intros Ha Hc. apply Commit_ok_published, Commit_no_conflict; [done..|].
    intros k _. rewrite Hsnap. by apply conflictOn_same_entry. }
  split; [|done].
  destruct (decide (tx_state tx = txActive)) as [Ha|Hn].
  - destruct (tx_ctx tx) as [cause|] eqn:Hc.
    + by rewrite (Commit_active_canceled _ _ cause).
    + by rewrite Hlive.
  - by rewrite Commit_inactive.
Qed.

End AcrossTransactions.

Section OptionsProperties.
Context {L : Type}.
Implicit Types (ss : list (setting L)) (c : config L).

Lemma applyOptions_snoc (stderrWarn : L) (opts : list (Option L)) o :
  applyOptions stderrWarn (opts ++ [o]) = o (applyOptions stderrWarn opts).
Proof. unfold applyOptions. by rewrite foldl_app. Qed.

(** X20.  The last option on a field wins.  After [NewMVCCMap] has
    applied its options in order, each field of the configuration holds the
    value given by the last option for that field, and the default (5 s,
    100 ms, the standard-error logger) when there is none; options for other
    fields never disturb it. *)
Theorem X20_last_option_wins (stderrWarn : L) ss :
  let cfg := applyOptions stderrWarn (optionOf <$> ss) in
  gcInterval cfg = default 5000000000 (last (omap gcSetting ss))
  ∧ deadlockCheckInterval cfg
    = default 100000000 (last (omap deadlockSetting ss))
  ∧ cfg_logger cfg = default stderrWarn (last (omap loggerSetting ss)).
Proof.
  induction ss as [|s ss IH] using rev_ind; [done|].
  rewrite fmap_app, !omap_app. cbn [fmap list_fmap omap list_omap].
  rewrite applyOptions_snoc. destruct IH as (IH1 & IH2 & IH3).
  destruct s as [d|d|l]; cbn [optionOf gcSetting deadlockSetting loggerSetting];
    rewrite ?app_nil_r, ?last_snoc; simpl; auto.
Qed.

End OptionsProperties.

(** * The further properties at concrete inputs *)

Lemma X1_read_your_own_writes_witness :
  let tx := Examples.writerOfK 1 in
  let m := Examples.zeroWriterStore in
  tx_state tx = txActive ∧ tx_ctx tx = None
  ∧ (Get "k" (Put "k" 3 tx m).1.2 (Put "k" 3 tx m).2).1 = Some 3.
Proof.
  intros tx m.
  assert (tx_state tx = txActive) as Ha by reflexivity.
  assert (tx_ctx tx = None) as Hc by reflexivity.
  destruct (X1_read_your_own_writes "k" 3 tx m Ha Hc) as (_ & _ & Hget & _).
  split; [exact Ha|]. split; [exact Hc|exact Hget].
Defined.

Lemma X3_terminated_is_frozen_witness :
  let tx := Scenarios.doneTx in
  let m := Examples.freshStore in
  tx_state tx ≠ txActive
  ∧ exec (OpPut "k" 1) tx m = (mkRes None (Some ErrTxDone), tx, m).
Proof.
  intros tx m.
  assert (tx_state tx ≠ txActive) as Hn by discriminate.
  split; [exact Hn|]. exact (X3_terminated_is_frozen (OpPut "k" 1) tx m Hn).
Defined.

Lemma X4_read_only_commit_witness :
  let tx := Examples.readTx2 in
  let m := w_db (run initWorld Examples.readActs) in
  tx_state tx = txActive ∧ tx_ctx tx = None ∧ tx_writes tx = ∅
  ∧ (Commit tx m).1.1 = None.
Proof.
  intros tx m.
  assert (tx_state tx = txActive) as Ha by reflexivity.
  assert (tx_ctx tx = None) as Hc by reflexivity.
  assert (tx_writes tx = ∅) as Hw by reflexivity.
  split; [exact Ha|]. split; [exact Hc|]. split; [exact Hw|].
  exact (proj1 (X4_read_only_commit tx m Ha Hc Hw)).
Defined.

Lemma X5_repeatable_read_witness :
  let w0 := run initWorld Examples.readActs in
  let acts := Scenarios.othersActs in
  w_txs w0 !! 0%nat = Some Examples.readTx1
  ∧ Forall (λ a, actsOn a ≠ Some 0%nat) acts
  ∧ w_txs (run w0 acts) !! 0%nat = Some Examples.readTx1
  ∧ (Get "x" Examples.readTx1 (w_db (run w0 acts))).1
    = (Get "x" Examples.readTx1 (w_db w0)).1.
Proof.
  intros w0 acts.
  assert (w_txs w0 !! 0%nat = Some Examples.readTx1) as Hh
    by (vm_compute; reflexivity).
  assert (Forall (λ a, actsOn a ≠ Some 0%nat) acts) as Hacts
    by (repeat constructor; discriminate).
  split; [exact Hh|]. split; [exact Hacts|].
  exact (X5_repeatable_read Examples.readActs acts 0%nat Examples.readTx1 "x"
           Hh Hacts).
Defined.

Lemma X6_disjoint_writers_both_commit_witness :
  let acts := Scenarios.disjointActs in
  let tx1 := Scenarios.disjointTx1 in
  let tx2 := Scenarios.disjointTx2 in
  let m := w_db (run initWorld acts) in
  let m1 := (Commit tx1 m).2 in
  let m2 := (Commit tx2 m1).2 in
  w_txs (run initWorld acts) !! 0%nat = Some tx1
  ∧ w_txs (run initWorld acts) !! 1%nat = Some tx2
  ∧ tx_snapshot tx1 = current m ∧ tx_snapshot tx2 = current m
  ∧ (∀ k, tx_writes tx1 !! k = None ∨ tx_writes tx2 !! k = None)
  ∧ (Commit tx1 m).1.1 = None
  ∧ (Commit tx2 m1).1.1 = None
  ∧ ver_data (deref m2 (current m2))
    = tx_writes tx2 ∪ (tx_writes tx1 ∪ ver_data (deref m (current m))).
Proof.
  assert (∀ k : string,
            tx_writes Scenarios.disjointTx1 !! k = None
            ∨ tx_writes Scenarios.disjointTx2 !! k = None) as Hdisj.
  { intros k. destruct (decide (k = "a")) as [->|Hne].
    - right. apply lookup_singleton_ne. discriminate.
    - left. apply lookup_singleton_ne. congruence. }
  intros acts tx1 tx2 m m1 m2.
  assert (w_txs (run initWorld acts) !! 0%nat = Some tx1) as Hh1
    by (vm_compute; reflexivity).
  assert (w_txs (run initWorld acts) !! 1%nat = Some tx2) as Hh2
    by (vm_compute; reflexivity).
  assert (tx_snapshot tx1 = current m) as Hs1 by (vm_compute; reflexivity).
  assert (tx_snapshot tx2 = current m) as Hs2 by (vm_compute; reflexivity).
  split; [exact Hh1|]. split; [exact Hh2|]. split; [exact Hs1|].
  split; [exact Hs2|]. split; [exact Hdisj|].
  exact (X6_disjoint_writers_both_commit acts 0%nat 1%nat tx1 tx2 Hh1 Hh2
           eq_refl eq_refl eq_refl eq_refl Hs1 Hs2 Hdisj).
Defined.

Lemma X7_first_committer_wins_witness :
  let acts := Scenarios.raceActs in
  let tx1 := Scenarios.raceTx1 in
  let tx2 := Examples.conflictTx2 in
  let m := w_db (run initWorld acts) in
  begins acts < 2 ^ 63 ∧ commits acts + 1 < 2 ^ 64
  ∧ w_txs (run initWorld acts) !! 0%nat = Some tx1
  ∧ w_txs (run initWorld acts) !! 1%nat = Some tx2
  ∧ (Commit tx1 m).1.1 = None
  ∧ is_Some (tx_writes tx1 !! "counter")
  ∧ is_Some (tx_writes tx2 !! "counter")
  ∧ (Commit tx2 (Commit tx1 m).2).1.1 = Some ErrConflict.
Proof.
  intros acts tx1 tx2 m.
  assert (begins acts < 2 ^ 63) as Hb by (vm_compute; reflexivity).
  assert (commits acts + 1 < 2 ^ 64) as Hc by (vm_compute; reflexivity).
  assert (w_txs (run initWorld acts) !! 0%nat = Some tx1) as Hh1
    by (vm_compute; reflexivity).
  assert (w_txs (run initWorld acts) !! 1%nat = Some tx2) as Hh2
    by (vm_compute; reflexivity).
  assert ((Commit tx1 m).1.1 = None) as Hok by (vm_compute; reflexivity).
  assert (is_Some (tx_writes tx1 !! "counter")) as Hw1
    by (exists (mkVV 1 1); vm_compute; reflexivity).
  assert (is_Some (tx_writes tx2 !! "counter")) as Hw2
    by (exists (mkVV 2 2); vm_compute; reflexivity).
  assert (0%nat ≠ 1%nat) as Hne by discriminate.
  split; [exact Hb|]. split; [exact Hc|]. split; [exact Hh1|].
  split; [exact Hh2|]. split; [exact Hok|]. split; [exact Hw1|].
  split; [exact Hw2|].
  exact (X7_first_committer_wins acts 0%nat 1%nat tx1 tx2 "counter"
           Hb Hc Hh1 Hh2 Hne Hok eq_refl eq_refl Hw1 Hw2).
Defined.

Lemma X8_refCount_counts_active_snapshots_witness :
  let w := run initWorld Examples.gcActs in
  begins Examples.gcActs < 2 ^ 63
  ∧ ∀ l ver, objs (w_db w) !! l = Some ver →
             ver_refCount ver = Z.of_nat (pins (w_txs w) l).
Proof.
  intros w.
  assert (begins Examples.gcActs < 2 ^ 63) as Hb by (vm_compute; reflexivity).
  split; [exact Hb|].
  exact (proj1 (X8_refCount_counts_active_snapshots Examples.gcActs Hb)).
Defined.

Lemma X9_registry_holds_active_transactions_witness :
  let w := run initWorld Examples.gcActs in
  begins Examples.gcActs < 2 ^ 63
  ∧ ∀ (h : nat) tx, w_txs w !! h = Some tx → tx_id tx = Z.of_nat h + 1.
Proof.
  intros w.
  assert (begins Examples.gcActs < 2 ^ 63) as Hb by (vm_compute; reflexivity).
  split; [exact Hb|].
  exact (proj1 (X9_registry_holds_active_transactions Examples.gcActs Hb)).
Defined.


Lemma X11_versions_sorted_by_id_witness :
  let m := w_db (run initWorld Examples.gcActs) in
  commits Examples.gcActs < 2 ^ 64
  ∧ NoDup (versions m) ∧ last (versions m) = Some (current m).
Proof.
  intros m.
  assert (commits Examples.gcActs < 2 ^ 64) as Hc by (vm_compute; reflexivity).
  split; [exact Hc|].
  exact (proj2 (proj2 (X11_versions_sorted_by_id Examples.gcActs Hc))).
Defined.


Lemma X15_findCycle_sound_witness :
  let m := Examples.waitingStore in
  findCycle [5; 1; 2] m = Some [1; 2; 1; 5]
  ∧ ∃ c rest, [1; 2; 1; 5] = c :: rest ∧ c ∈ rest
              ∧ onCycle (waitForGraph m) c
              ∧ waitChain (waitForGraph m) [1; 2; 1; 5]
              ∧ ∃ id, id ∈ [5; 1; 2] ∧ last [1; 2; 1; 5] = Some id.
Proof.
  intros m.
  assert (findCycle [5; 1; 2] m = Some [1; 2; 1; 5]) as Hf
    by (vm_compute; reflexivity).
  split; [exact Hf|]. exact (X15_findCycle_sound [5; 1; 2] m [1; 2; 1; 5] Hf).
Defined.

Lemma X16_findCycle_complete_witness :
  let m := Examples.waitingStore in
  1 ∈ [5; 1; 2] ∧ onCycle (waitForGraph m) 1
  ∧ is_Some (findCycle [5; 1; 2] m).
Proof.
  intros m.
  assert (1 ∈ [5; 1; 2]) as Hin by (right; left).
  assert (onCycle (waitForGraph m) 1) as Hcyc
    by (exists 1%nat; vm_compute; reflexivity).
  split; [exact Hin|]. split; [exact Hcyc|].
  exact (X16_findCycle_complete [5; 1; 2] m 1 Hin Hcyc).
Defined.

Lemma X18_only_a_publishing_commit_changes_data_witness :
  let w := run initWorld Examples.conflictActs in
  publishes w (ACommit 1%nat) = false
  ∧ current (w_db (step w (ACommit 1%nat))) = current (w_db w).
Proof.
  intros w.
  assert (publishes w (ACommit 1%nat) = false) as Hp
    by (vm_compute; reflexivity).
  split; [exact Hp|].
  exact (proj1 (X18_only_a_publishing_commit_changes_data w (ACommit 1%nat) Hp)).
Defined.

Lemma X19_version_objects_immutable_witness :
  shape (w_db (initWorld : World string Z)) 0%nat = Some (0, ∅)
  ∧ shape (w_db (run initWorld Examples.gcActs)) 0%nat = Some (0, ∅).
Proof.
  assert (shape (w_db (initWorld : World string Z)) 0%nat = Some (0, ∅)) as Hs
    by (vm_compute; reflexivity).
  split; [exact Hs|].
  exact (X19_version_objects_immutable initWorld Examples.gcActs 0%nat (0, ∅) Hs).
Defined.

Lemma X21_committed_writes_visible_witness :
  let w := run initWorld Examples.overlayActs in
  let tx := Examples.overlayTx in
  let w1 := step (step w (ACommit 1%nat)) (ABegin None) in
  let tx' := (BeginTx None (w_db (step w (ACommit 1%nat)))).1 in
  w_txs w !! 1%nat = Some tx
  ∧ (Commit tx (w_db w)).1.1 = None
  ∧ w_txs w1 !! length (w_txs w) = Some tx'
  ∧ tx_state tx' = txActive.
Proof.
  intros w tx w1 tx'.
  assert (w_txs w !! 1%nat = Some tx) as Hh by (vm_compute; reflexivity).
  assert ((Commit tx (w_db w)).1.1 = None) as Hok by (vm_compute; reflexivity).
  split; [exact Hh|]. split; [exact Hok|].
  destruct (X21_committed_writes_visible w 1%nat tx None Hh Hok)
    as (Hnew & Hact & _).
  split; [exact Hnew|exact Hact].
Defined.

Lemma X22_no_conflict_without_a_commit_witness :
  let w0 := run initWorld Examples.overlayActs in
  let acts := [APut 2%nat "k" 9; AGet 2%nat "k"; AGC] in
  let w := run (step w0 (ABegin None)) acts in
  Forall (λ a : action string Z, isCommit a = false) acts
  ∧ ∃ tx, w_txs w !! length (w_txs w0) = Some tx
          ∧ (Commit tx (w_db w)).1.1 ≠ Some ErrConflict
          ∧ (tx_state tx = txActive → tx_ctx tx = None →
             (Commit tx (w_db w)).1.1 = None).
Proof.
  intros w0 acts w.
  assert (Forall (λ a : action string Z, isCommit a = false) acts) as Hnc
    by (repeat constructor).
  split; [exact Hnc|].
  exact (X22_no_conflict_without_a_commit w0 None acts Hnc).
Defined.
